(** * PGS physics visualizer: the simulation tick of [services/physics.ts]

    A shallow embedding of the physics pipeline ([stepPhysics] and its
    helpers) and the properties of it that the specification states.

    Numbers.  A JavaScript [number] is an IEEE 754 binary64 value, so the
    embedding computes with Rocq's primitive [float]: [+ - * /] and
    [Math.sqrt] are the correctly rounded operations, [<] and [===] are the
    IEEE comparisons ([NaN] compares false with everything, [+0 === -0]).
    Two [number] fields are only ever used as integers and are embedded as
    [Z]: a body's [id] and the parameter [iterations].

    Objects.  Bodies are objects that [stepPhysics] mutates in place while
    the bodies array and the contacts both refer to them.  The embedding
    keeps an explicit store: [objs] holds the body objects, a reference is
    a position in it, and [arrs] holds the arrays of body references.  A
    [Vec2] and a trail belong to one body and are embedded as values. *)

From Stdlib Require Import ZArith Floats DecimalString.
From stdpp Require Import base list strings.

Set Warnings "-inexact-float".

(** ** Constants ([constants.ts]) *)

Definition CANVAS_WIDTH : float := 800.
Definition CANVAS_HEIGHT : float := 600.
Definition TIMESTEP : float := 1 / 60.
Definition PIXELS_PER_METER : float := 50.
Definition BAUMGARTE : float := 0.2.
Definition SLOP : float := 0.05.
Definition TRAIL_LENGTH : nat := 20.

(** ** The [Math] functions the pipeline calls *)

Module Math.

(** [Math.max]: [NaN] if an argument is [NaN]; [+0] is larger than [-0]. *)
Definition max (a b : float) : float :=
  if is_nan a || is_nan b then nan
  else if (a <? b)%float then b
  else if (b <? a)%float then a
  else if get_sign a then b else a.

(** [Math.min]: [NaN] if an argument is [NaN]; [-0] is smaller than [+0]. *)
Definition min (a b : float) : float :=
  if is_nan a || is_nan b then nan
  else if (a <? b)%float then a
  else if (b <? a)%float then b
  else if get_sign a then a else b.

Definition abs (a : float) : float := PrimFloat.abs a.
Definition sqrt (a : float) : float := PrimFloat.sqrt a.

End Math.

(** ** Data model ([types.ts]) *)

Record Vec2 := mkVec2 { x : float; y : float }.

Record Body := mkBody {
  id : Z;
  pos : Vec2;
  vel : Vec2;
  radius : float;
  mass : float;
  invMass : float;
  color : string;
  restitution : float;
  trail : list Vec2;
  isStatic : bool
}.

(** A reference to a body object, and a reference to an array of them. *)
Definition ref := nat.
Definition aref := nat.

Record Contact := mkContact {
  cid : string;
  bodyA : ref;
  bodyB : option ref;
  normal : Vec2;
  penetration : float;
  impulseAcc : float;
  effectiveMass : float;
  bias : float
}.

Record SimState := mkSimState {
  bodies : aref;
  contacts : list Contact;
  totalEnergy : float;
  solverErrors : list float
}.

Record Params := mkParams {
  gravity : float;
  iterations : Z;
  p_restitution : float;
  warmStarting : bool
}.

(** The object store. *)
Record Heap := mkHeap {
  objs : list Body;
  arrs : list (list ref)
}.

Definition vzero : Vec2 := mkVec2 0 0.

#[global] Instance Vec2_inhabited : Inhabited Vec2 := populate vzero.
#[global] Instance Body_inhabited : Inhabited Body :=
  populate (mkBody 0 vzero vzero 0 0 0 EmptyString 0 [] false).

(** Field assignments [b.vel = v], [b.pos = p], [b.trail = t],
    [c.impulseAcc = i]. *)
Definition setVel (v : Vec2) (b : Body) : Body :=
  mkBody (id b) (pos b) v (radius b) (mass b) (invMass b) (color b)
         (restitution b) (trail b) (isStatic b).
Definition setPos (p : Vec2) (b : Body) : Body :=
  mkBody (id b) p (vel b) (radius b) (mass b) (invMass b) (color b)
         (restitution b) (trail b) (isStatic b).
Definition setTrail (t : list Vec2) (b : Body) : Body :=
  mkBody (id b) (pos b) (vel b) (radius b) (mass b) (invMass b) (color b)
         (restitution b) t (isStatic b).
Definition setImpulseAcc (i : float) (c : Contact) : Contact :=
  mkContact (cid c) (bodyA c) (bodyB c) (normal c) (penetration c) i
            (effectiveMass c) (bias c).

(** Reading an object through a reference ([h !!! r]) and writing one of
    its fields through a reference.  There is no dangling reference in
    JavaScript; outside the store the embedding reads the default body and
    writes nothing. *)
Definition assignVel (r : ref) (v : Vec2) (h : list Body) : list Body :=
  alter (setVel v) r h.

(** ** Vector math helpers *)

Definition vAdd (a b : Vec2) : Vec2 := mkVec2 (x a + x b) (y a + y b).
Definition vSub (a b : Vec2) : Vec2 := mkVec2 (x a - x b) (y a - y b).
Definition vScale (v : Vec2) (s : float) : Vec2 := mkVec2 (x v * s) (y v * s).
Definition vDot (a b : Vec2) : float := x a * x b + y a * y b.
Definition vLen (v : Vec2) : float := Math.sqrt (x v * x v + y v * y v).
Definition vNorm (v : Vec2) : Vec2 :=
  let len := vLen v in
  if (0 <? len)%float then vScale v (1 / len) else mkVec2 0 0.
Definition vDist (a b : Vec2) : float := vLen (vSub a b).

(** ** Contact ids: the template strings [`wall-${id}`] and [`${a}-${b}`] *)

Definition showZ (z : Z) : string := NilZero.string_of_int (Z.to_int z).

Definition wallId (i : Z) : string := "wall-" +:+ showZ i.
Definition pairId (a b : Z) : string := showZ a +:+ "-" +:+ showZ b.

(** ** Physics pipeline *)

Definition widthM : float := CANVAS_WIDTH / PIXELS_PER_METER.
Definition heightM : float := CANVAS_HEIGHT / PIXELS_PER_METER.

(** The Baumgarte term both constructors compute. *)
Definition baumgarte (penetration : float) : float :=
  - BAUMGARTE * (Math.min 0 (penetration + SLOP) / TIMESTEP).

Definition createWallContact (r : ref) (body : Body) (normal : Vec2)
    (penetration rest : float) : Contact :=
  let effectiveMass := (1 / invMass body)%float in
  let bias := baumgarte penetration in
  mkContact (wallId (id body)) r None normal penetration 0 effectiveMass bias.

(** 1. Integrate velocity (gravity). *)
Definition gravityBody (g : float) (b : Body) : Body :=
  if (invMass b =? 0)%float || isStatic b then b
  else setVel (mkVec2 (x (vel b)) (y (vel b) + g * TIMESTEP)) b.

Definition applyGravity (g : float) (bs : list ref) (h : list Body) : list Body :=
  foldl (fun h r => alter (gravityBody g) r h) h bs.

(** 2. Wall constraints: floor, ceiling, left wall, right wall. *)
Definition wallContactsOf (rest : float) (h : list Body) (r : ref) : list Contact :=
  let b := h !!! r in
  (if (heightM <? y (pos b) + radius b)%float
   then [createWallContact r b (mkVec2 0 (-1)) (heightM - (y (pos b) + radius b)) rest]
   else []) ++
  (if (y (pos b) - radius b <? 0)%float
   then [createWallContact r b (mkVec2 0 1) ((y (pos b) - radius b) - 0) rest]
   else []) ++
  (if (x (pos b) - radius b <? 0)%float
   then [createWallContact r b (mkVec2 1 0) ((x (pos b) - radius b) - 0) rest]
   else []) ++
  (if (widthM <? x (pos b) + radius b)%float
   then [createWallContact r b (mkVec2 (-1) 0) (widthM - (x (pos b) + radius b)) rest]
   else []).

Definition wallContacts (rest : float) (bs : list ref) (h : list Body) : list Contact :=
  flat_map (wallContactsOf rest h) bs.

(** The predicate of the warm-start [find]: the previous contact refers to
    the bodies with ids [a] and [b], in either order.  [c.bodyB?.id] of a
    wall contact is [undefined], which equals no id. *)
Definition idThrough (h : list Body) (r : ref) : Z := id (h !!! r).

Definition samePair (h : list Body) (a b : Z) (c : Contact) : bool :=
  match bodyB c with
  | Some rb =>
      ((idThrough h (bodyA c) =? a)%Z && (idThrough h rb =? b)%Z)
      || ((idThrough h (bodyA c) =? b)%Z && (idThrough h rb =? a)%Z)
  | None => false
  end.

Definition initialImpulse (warm : bool) (prev : list Contact) (h : list Body)
    (a b : Z) : float :=
  if warm then
    match find (samePair h a b) prev with
    | Some existing => impulseAcc existing
    | None => 0%float
    end
  else 0%float.

(** Body-body constraint of the pair of array entries [ra], [rb]. *)
Definition pairContact (warm : bool) (prev : list Contact) (h : list Body)
    (ra rb : ref) : list Contact :=
  let A := h !!! ra in
  let B := h !!! rb in
  if isStatic A && isStatic B then []
  else
    let dist := vDist (pos A) (pos B) in
    let totalRad := (radius A + radius B)%float in
    if (dist <? totalRad)%float then
      let normal := vNorm (vSub (pos B) (pos A)) in
      let penetration := (dist - totalRad)%float in
      let k := (invMass A + invMass B)%float in
      let effectiveMass := if (0 <? k)%float then (1 / k)%float else 0%float in
      let bias := baumgarte penetration in
      [mkContact (pairId (id A) (id B)) ra (Some rb) normal penetration
                 (initialImpulse warm prev h (id A) (id B)) effectiveMass bias]
    else [].

(** The loops [for i] and [for j = i + 1] over the bodies array. *)
Fixpoint pairContacts (warm : bool) (prev : list Contact) (h : list Body)
    (bs : list ref) : list Contact :=
  match bs with
  | [] => []
  | ra :: rest =>
      flat_map (pairContact warm prev h ra) rest ++ pairContacts warm prev h rest
  end.

Definition detect (p : Params) (prev : list Contact) (bs : list ref)
    (h : list Body) : list Contact :=
  wallContacts (p_restitution p) bs h ++ pairContacts (warmStarting p) prev h bs.

(** Warm start: apply the seeded impulse of one contact. *)
Definition warmApply (h : list Body) (c : Contact) : list Body :=
  let impulse := vScale (normal c) (impulseAcc c) in
  let h1 := assignVel (bodyA c)
              (vSub (vel (h !!! bodyA c)) (vScale impulse (invMass (h !!! bodyA c)))) h in
  match bodyB c with
  | Some rb =>
      assignVel rb (vAdd (vel (h1 !!! rb)) (vScale impulse (invMass (h1 !!! rb)))) h1
  | None => h1
  end.

Definition warmStart (warm : bool) (cs : list Contact) (h : list Body) : list Body :=
  if warm then foldl warmApply h cs else h.

(** 3. Projected Gauss-Seidel: the impulse [lambda] of one contact. *)
Definition contactLambda (rest : float) (h : list Body) (c : Contact) : float :=
  let rv := match bodyB c with
            | Some rb => vSub (vel (h !!! rb)) (vel (h !!! bodyA c))
            | None => vSub (mkVec2 0 0) (vel (h !!! bodyA c))
            end in
  let contactVel := vDot rv (normal c) in
  let restitutionBias :=
    if (contactVel <? -1.0)%float then (- rest * contactVel)%float else 0%float in
  (- effectiveMass c * (contactVel + bias c + restitutionBias))%float.

(** One contact of one sweep: the updated contact and the updated store. *)
Definition solveContact (rest : float) (h : list Body) (c : Contact)
    : Contact * list Body :=
  let lambda := contactLambda rest h c in
  let oldImpulse := impulseAcc c in
  let c' := setImpulseAcc (Math.max 0 (oldImpulse + lambda)) c in
  let deltaImpulse := (impulseAcc c' - oldImpulse)%float in
  let impulseVec := vScale (normal c) deltaImpulse in
  let h1 := assignVel (bodyA c)
              (vSub (vel (h !!! bodyA c)) (vScale impulseVec (invMass (h !!! bodyA c)))) h in
  let h2 := match bodyB c with
            | Some rb =>
                assignVel rb (vAdd (vel (h1 !!! rb)) (vScale impulseVec (invMass (h1 !!! rb)))) h1
            | None => h1
            end in
  (c', h2).

(** The state of a sweep: contacts already visited (in order), the store,
    and [maxError]. *)
Record Sweep := mkSweep {
  sw_done : list Contact;
  sw_heap : list Body;
  sw_maxError : float
}.

Definition sweepStep (rest : float) (s : Sweep) (c : Contact) : Sweep :=
  let lambda := contactLambda rest (sw_heap s) c in
  let '(c', h') := solveContact rest (sw_heap s) c in
  mkSweep (sw_done s ++ [c']) h' (Math.max (sw_maxError s) (Math.abs lambda)).

Definition sweep (rest : float) (cs : list Contact) (h : list Body) : Sweep :=
  foldl (sweepStep rest) (mkSweep [] h 0) cs.

(** The loop [for (i = 0; i < iterations; i++)]: contacts, store and the
    errors pushed so far. *)
Fixpoint solve (rest : float) (n : nat) (cs : list Contact) (h : list Body)
    (errs : list float) : list Contact * list Body * list float :=
  match n with
  | O => (cs, h, errs)
  | S n' =>
      let s := sweep rest cs h in
      solve rest n' (sw_done s) (sw_heap s) (errs ++ [sw_maxError s])
  end.

(** 4. Integrate position and clamp to the world bounds. *)
Definition updateTrail (b : Body) : list Vec2 :=
  let speed := vLen (vel b) in
  if (0.1 <? speed)%float then
    let t := pos b :: trail b in
    if (TRAIL_LENGTH <? length t)%nat then removelast t else t
  else if (0 <? length (trail b))%nat then removelast (trail b)
  else trail b.

Definition clampLow (p r v : float) : float * float :=
  if (p - r <? 0)%float then (r, (v * -0.5)%float) else (p, v).

Definition clampHigh (bound p r v : float) : float * float :=
  if (bound <? p + r)%float then ((bound - r)%float, (v * -0.5)%float) else (p, v).

Definition integrateBody (b : Body) : Body :=
  if isStatic b || (invMass b =? 0)%float then b
  else
    let t := updateTrail b in
    let p := vAdd (pos b) (vScale (vel b) TIMESTEP) in
    let '(px, vx) := clampLow (x p) (radius b) (x (vel b)) in
    let '(px, vx) := clampHigh widthM px (radius b) vx in
    let '(py, vy) := clampLow (y p) (radius b) (y (vel b)) in
    let '(py, vy) := clampHigh heightM py (radius b) vy in
    setTrail t (setPos (mkVec2 px py) (setVel (mkVec2 vx vy) b)).

Definition integrate (bs : list ref) (h : list Body) : list Body :=
  foldl (fun h r => alter integrateBody r h) h bs.

(** The tick. *)
Definition stepPhysics (state : SimState) (params : Params) (hp : Heap)
    : SimState * Heap :=
  let bs := arrs hp !!! bodies state in
  let h := applyGravity (gravity params) bs (objs hp) in
  let cs := detect params (contacts state) bs h in
  let h := warmStart (warmStarting params) cs h in
  let '(cs, h, errs) :=
    solve (p_restitution params) (Z.to_nat (iterations params)) cs h [] in
  let h := integrate bs h in
  (mkSimState (bodies state) cs (totalEnergy state) errs, mkHeap h (arrs hp)).


(** ** The phases of a tick

    The intermediate values of [stepPhysics], named so that statements can
    refer to them: the bodies array, the store after gravity, the contacts
    as constructed, the store after the warm-start pre-application, and the
    solver's result. *)

Definition bodiesOf (state : SimState) (hp : Heap) : list ref :=
  arrs hp !!! bodies state.

Definition afterGravity (state : SimState) (params : Params) (hp : Heap) : list Body :=
  applyGravity (gravity params) (bodiesOf state hp) (objs hp).

Definition constructed (state : SimState) (params : Params) (hp : Heap) : list Contact :=
  detect params (contacts state) (bodiesOf state hp) (afterGravity state params hp).

Definition beforeSolve (state : SimState) (params : Params) (hp : Heap) : list Body :=
  warmStart (warmStarting params) (constructed state params hp)
            (afterGravity state params hp).

(** One full sweep as a function on (contacts, store), and the lambdas it
    computes, contact by contact. *)
Definition sweepOnce (rest : float) (st : list Contact * list Body)
    : list Contact * list Body :=
  let s := sweep rest st.1 st.2 in (sw_done s, sw_heap s).

Fixpoint sweepLambdas (rest : float) (cs : list Contact) (h : list Body) : list float :=
  match cs with
  | [] => []
  | c :: cs' => contactLambda rest h c :: sweepLambdas rest cs' (solveContact rest h c).2
  end.

(** The running maximum [maxError = Math.max(maxError, Math.abs(lambda))],
    started at 0. *)
Definition maxAbs (ls : list float) : float :=
  foldl (fun m l => Math.max m (Math.abs l)) 0%float ls.

(** Contacts and store at the start of sweep [k] of a tick. *)
Definition sweepStart (state : SimState) (params : Params) (hp : Heap) (k : nat)
    : list Contact * list Body :=
  Nat.iter k (sweepOnce (p_restitution params))
           (constructed state params hp, beforeSolve state params hp).


(** A sweep rewrites [impulseAcc] only: every other field of every contact
    is as constructed. *)
Definition sameConstraint (c c' : Contact) : Prop :=
  cid c' = cid c /\ bodyA c' = bodyA c /\ bodyB c' = bodyB c /\
  normal c' = normal c /\ penetration c' = penetration c /\
  effectiveMass c' = effectiveMass c /\ bias c' = bias c.


(** ** Scenarios *)

(** A body as [createBody] builds it once its radius is drawn:
    [mass = radius * radius * Math.PI], [invMass = 1 / mass] or 0. *)
Definition Math_PI : float := 3.141592653589793.

Definition bodyAt (i : Z) (px py vx vy r : float) (static : bool) : Body :=
  let m := (r * r * Math_PI)%float in
  mkBody i (mkVec2 px py) (mkVec2 vx vy) r m
         (if static then 0%float else (1 / m)%float)
         "hsl(0, 70%, 60%)" 0.5 [] static.

(** The parameters the application starts with. *)
Definition defaultParams : Params := mkParams 0 10 0.8 true.

(** The state of a world without previous contacts whose bodies array is
    array 0 of the store. *)
Definition freshState : SimState := mkSimState 0 [] 0 [].

Definition worldOf (bs : list Body) : Heap := mkHeap bs [seq 0 (length bs)].

(** A static body of radius 0.5 whose centre is 0.48 from the left wall:
    it overlaps the wall by 0.02, less than [SLOP]. *)
Definition staticAtWall : Heap :=
  worldOf [bodyAt 0 0.48 5 0 0 0.5 true].

(** A dynamic body overlapping the left wall and moving into it, and a
    second dynamic body that touches it from the left at speed 5. *)
Definition pushedFromLeft : Heap :=
  worldOf [bodyAt 0 0.4 5 (-1) 0 0.5 false; bodyAt 1 (-0.58) 5 5 0 0.5 false].

(** The first body alone. *)
Definition aloneAtWall : Heap :=
  worldOf [bodyAt 0 0.4 5 (-1) 0 0.5 false].

(** The static body of [staticAtWall] and a dynamic body of radius 0.5
    that rests against it: the centres are 0.92 apart. *)
Definition besideStatic : Heap :=
  worldOf [bodyAt 0 0.48 5 0 0 0.5 true; bodyAt 1 1.4 5 0 0 0.5 false].

(** A dynamic body in the lower left corner: it overlaps the left wall
    and the floor, and moves left and up. *)
Definition inCorner : Heap :=
  worldOf [bodyAt 0 0.4 11.8 (-1) (-20) 0.5 false].


(** ** Statements about single bodies *)

(** The conclusion of scenario C for the body behind reference [r]: after
    the tick it sits at [pos.x = radius] and its [vel.x] is the incoming
    one times the damping factor -0.5. *)
Definition leftBounce (state : SimState) (params : Params) (hp : Heap) (r : ref) : Prop :=
  let b := objs hp !!! r in
  let b' := objs (stepPhysics state params hp).2 !!! r in
  x (pos b') = radius b /\ x (vel b') = (x (vel b) * -0.5)%float.


(** The conclusion of C9 for the body behind reference [r]. *)
Definition insideArena (b : Body) : Prop :=
  (radius b <=? x (pos b))%float = true /\
  (x (pos b) <=? widthM - radius b)%float = true /\
  (radius b <=? y (pos b))%float = true /\
  (y (pos b) <=? heightM - radius b)%float = true.


(** ** What a phase writes *)

(** The store the integrator starts from. *)
Definition afterSolve (state : SimState) (params : Params) (hp : Heap) : list Body :=
  (sweepStart state params hp (Z.to_nat (iterations params))).2.

(** [b'] is [b] with another velocity, and stores that differ in
    velocities only. *)
Definition sameButVel (b b' : Body) : Prop := b' = setVel (vel b') b.

Definition velOnly (h h' : list Body) : Prop := Forall2 sameButVel h h'.

(** What the integrator keeps of a body. *)
Definition sameShape (b b' : Body) : Prop :=
  radius b' = radius b /\ isStatic b' = isStatic b /\ invMass b' = invMass b.

(** The contact [c] does not refer to the body behind [r]. *)
Definition untouched (r : ref) (c : Contact) : Prop :=
  bodyA c <> r /\ bodyB c <> Some r.

(** A body that moves left with a finite vertical speed and a positive,
    finite [invMass]. *)
Definition movesLeft (b : Body) : Prop :=
  (x (vel b) <? 0)%float = true /\ is_finite (y (vel b)) = true /\
  (0 <? invMass b)%float = true /\ (invMass b <? infinity)%float = true.

(** The left-wall contact of the body [b] behind [r], with no impulse
    accumulated. *)
Definition restingLeft (r : ref) (b : Body) (c : Contact) : Prop :=
  bodyA c = r /\ bodyB c = None /\ normal c = mkVec2 1 0 /\
  impulseAcc c = 0%float /\ effectiveMass c = (1 / invMass b)%float /\
  (0 <=? bias c)%float = true.


(** [b'] is [b] with another velocity that has the [vel.x] of [b]. *)
Definition keepsVelX (b b' : Body) : Prop :=
  sameButVel b b' /\ x (vel b') = x (vel b).

(** A body of radius 0.5 at rest, one unit in the last place right of
    [widthM - radius]. *)
Definition nearRightWall : Heap :=
  worldOf [bodyAt 0 15.500000000000002 5 0 0 0.5 false].

(** ** What a tick keeps of a body *)

(** The fields no phase of the tick writes. *)
Definition sameIdentity (b b' : Body) : Prop :=
  id b' = id b /\ radius b' = radius b /\ mass b' = mass b /\
  invMass b' = invMass b /\ color b' = color b /\
  restitution b' = restitution b /\ isStatic b' = isStatic b.

(** The references a contact holds. *)
Definition refersTo (c : Contact) (r : ref) : Prop :=
  bodyA c = r \/ bodyB c = Some r.

(** A contact that gives the body behind [r] no impulse along x.  If it
    refers to the body, the impulse it has accumulated is a number from
    0 up, below [Infinity]; if it is a body-body contact, moreover, its
    normal has a finite x component, and that component or the
    accumulated impulse is 0. *)
Definition gentle (r : ref) (c : Contact) : Prop :=
  refersTo c r ->
  (0 <=? impulseAcc c)%float = true /\ (impulseAcc c <? infinity)%float = true /\
  (bodyB c <> None ->
   is_finite (x (normal c)) = true /\
   ((x (normal c) =? 0)%float = true \/ (impulseAcc c =? 0)%float = true)).

(** How a contact of a tick can stand to the body [b] behind [r], which
    occurs once in the bodies array: it does not refer to it; it is its
    resting left-wall contact; it is a wall contact of it whose normal
    has no x component (floor, ceiling); or it is a body-body contact of
    it with another body. *)
Definition alongside (r : ref) (b : Body) (c : Contact) : Prop :=
  untouched r c \/ restingLeft r b c \/
  (bodyA c = r /\ bodyB c = None /\ x (normal c) = 0%float) \/
  (bodyA c = r /\ exists rb, bodyB c = Some rb /\ rb <> r) \/
  (bodyA c <> r /\ bodyB c = Some r).

(** A body in the middle of the arena, moving right. *)
Definition midArena : Heap := worldOf [bodyAt 0 8 6 1 0 0.5 false].

(** The body of [aloneAtWall] and a second body that overlaps it from
    the right and moves away at speed 5. *)
Definition leavingToRight : Heap :=
  worldOf [bodyAt 0 0.4 5 (-1) 0 0.5 false; bodyAt 1 1.3 5 5 0 0.5 false].

(** A store with two objects of which the bodies array lists the first. *)
Definition spareObject : Heap :=
  mkHeap [bodyAt 0 8 6 1 0 0.5 false; bodyAt 1 0.2 3 (-1) 0 0.5 false] [[0%nat]].

(** A state that remembers a wall contact and a body-body contact. *)
Definition rememberedContacts : list Contact :=
  [mkContact "wall-0" 0 None (mkVec2 1 0) (-0.1) 3 1 0;
   mkContact "0-1" 0 (Some 1%nat) (mkVec2 1 0) (-0.1) 2 1 0].

(** A body-body contact ([bodyB] is not [null]). *)
Definition isPair (c : Contact) : bool :=
  match bodyB c with Some _ => true | None => false end.

(** A previous state of which only the body-body contacts are kept. *)
Definition forgetWalls (state : SimState) : SimState :=
  mkSimState (bodies state) (List.filter isPair (contacts state)) (totalEnergy state) [].

(** ** The same world in two stores *)

(** The contact [c] with its references renamed by [f]. *)
Definition renameContact (f : ref -> ref) (c : Contact) : Contact :=
  mkContact (cid c) (f (bodyA c)) (f <$> bodyB c) (normal c) (penetration c)
            (impulseAcc c) (effectiveMass c) (bias c).

(** The references a state holds: the entries of its bodies array and
    the bodies of its contacts. *)
Definition contactRefs (c : Contact) : list ref :=
  bodyA c :: match bodyB c with Some rb => [rb] | None => [] end.

Definition stateRefs (state : SimState) (hp : Heap) : list ref :=
  bodiesOf state hp ++ flat_map contactRefs (contacts state).

(** The contact refers to objects behind [rs] only. *)
Definition refsWithin (rs : list ref) (c : Contact) : Prop :=
  Forall (fun r => r ∈ rs) (contactRefs c).

(** [f] takes the references [rs] to distinct references, and the object
    behind each of them in [h] is the object behind its image in [h']. *)
Definition oneToOne (f : ref -> ref) (rs : list ref) : Prop :=
  forall r r', r ∈ rs -> r' ∈ rs -> f r = f r' -> r = r'.

Definition sameObjects (f : ref -> ref) (rs : list ref) (h h' : list Body) : Prop :=
  forall r, r ∈ rs -> h' !! f r = h !! r.

(** The world of [pushedFromLeft] in a store that holds another object
    first, and the same with the two bodies in the other order. *)
Definition pushedFromLeftMoved : Heap :=
  mkHeap [bodyAt 7 3 3 0 0 0.5 false;
          bodyAt 1 (-0.58) 5 5 0 0.5 false;
          bodyAt 0 0.4 5 (-1) 0 0.5 false] [[2; 1]%nat].

Definition movedRef (r : ref) : ref :=
  match r with O => 2%nat | _ => 1%nat end.

(** ** Body factory and initial state ([services/physics.ts]) *)

Definition MAX_BODIES : Z := 30.

(** [Math.random()].  The numbers it returns are an unspecified sequence;
    a computation that draws takes the sequence and the number of draws
    made so far, and returns its result with the new count. *)
Definition Source := nat -> float.
Definition Gen (A : Type) : Type := Source -> nat -> A * nat.

Definition ret {A} (a : A) : Gen A := fun _ n => (a, n).
Definition bind {A B} (g : Gen A) (f : A -> Gen B) : Gen B :=
  fun src n => let '(a, n') := g src n in f a src n'.
Definition random : Gen float := fun src n => (src n, S n).

Notation "'let*' x ':=' g 'in' f" := (bind g (fun x => f))
  (at level 10, x name, g at level 100, f at level 200).

Section Factory.

(** The conversion of a number to text in a template string is the
    language's, not the repository's. *)
Variable numberToString : float -> string.

Definition hslColor (u : float) : string :=
  "hsl(" +:+ numberToString (u * 360) +:+ ", 70%, 60%)".

(** [createBody(x, y, id, isStatic)].  The radius is drawn first, the
    velocity of a body that is not static next, the colour last. *)
Definition createBody (px py : float) (i : Z) (static : bool) : Gen Body :=
  let* u := random in
  let radius := (0.4 + u * 0.4)%float in
  let mass := (radius * radius * Math_PI)%float in
  let invMass := if static then 0%float else (1 / mass)%float in
  let* v := (if static then ret (mkVec2 0 0)
             else let* ux := random in
                  let* uy := random in
                  ret (mkVec2 ((ux - 0.5) * 8) ((uy - 0.5) * 8))) in
  let* uc := random in
  ret (mkBody i (mkVec2 px py) v radius mass invMass (hslColor uc) 0.5 [] static).

(** The loop of [createInitialState]: [n] bodies with ids from [i] on. *)
Fixpoint createBodies (n : nat) (i : Z) : Gen (list Body) :=
  match n with
  | O => ret []
  | S n' =>
      let* ux := random in
      let* uy := random in
      let* b := createBody (ux * (widthM - 2) + 1) (uy * (heightM - 2) + 1) i false in
      let* bs := createBodies n' (i + 1) in
      ret (b :: bs)
  end.

(** [createInitialState(count)]: the new body objects and the new bodies
    array are allocated in the store. *)
Definition createInitialState (count : Z) (hp : Heap) : Gen (SimState * Heap) :=
  let* bs := createBodies (Z.to_nat count) 0 in
  ret (mkSimState (length (arrs hp)) [] 0 [],
       mkHeap (objs hp ++ bs)
              (arrs hp ++ [seq (length (objs hp)) (length bs)])).

(** ** Spawning and dragging ([components/SimulationCanvas.tsx]) *)

(** The body under the mouse:
    [bodies.find(b => vDist(b.pos, mousePos) < b.radius)]. *)
Definition clickedBody (h : list Body) (bs : list ref) (mousePos : Vec2) : option ref :=
  find (fun r => (vDist (pos (h !!! r)) mousePos <? radius (h !!! r))%float) bs.

(** An [id] is a number.  [toNumber] is the binary64 number of an
    integer (the nearest one, when the integer is not a binary64 number
    itself) and [toInteger] the integer of a binary64 number. *)
Definition toNumber (z : Z) : float :=
  SF2Prim (binary_normalize prec emax z 0 false).

Definition toInteger (a : float) : Z :=
  match Prim2SF a with
  | S754_finite s m e =>
      let v := if (0 <=? e)%Z then (Zpos m * 2 ^ e)%Z else (Zpos m / 2 ^ (- e))%Z in
      if s then (- v)%Z else v
  | _ => 0%Z
  end.

(** [Math.max(...numbers)]: the greatest argument, from [-Infinity] on. *)
Definition Math_maxOf (l : list float) : float := foldl Math.max neg_infinity l.

(** [bodies.length > 0 ? Math.max(...bodies.map(b => b.id)) + 1 : 0],
    with the addition of binary64. *)
Definition newId (h : list Body) (bs : list ref) : Z :=
  match bs with
  | [] => 0
  | _ => toInteger (Math_maxOf (map (fun r => toNumber (id (h !!! r))) bs) + 1)
  end.

(** The spawn branch of [handleMouseDown]: the id is computed from the
    rendered [state], the body is appended to a copy of the bodies array
    of the state [prev] that is current when the update runs. *)
Definition spawnBody (state prev : SimState) (hp : Heap) (mousePos : Vec2)
    (static : bool) : Gen (SimState * Heap) :=
  let i := newId (objs hp) (arrs hp !!! bodies state) in
  let* b := createBody (x mousePos) (y mousePos) i static in
  ret (mkSimState (length (arrs hp)) (contacts prev) (totalEnergy prev)
                  (solverErrors prev),
       mkHeap (objs hp ++ [b])
              (arrs hp ++ [(arrs hp !!! bodies prev) ++ [length (objs hp)]])).

End Factory.

(** The drag of [handleMouseMove]:
    [bodies.map(b => b.id !== id ? b : {...b, pos, vel, trail: []})].
    A body with the dragged id is replaced by a new object, the others
    keep theirs; the result is the new array and the store. *)
Definition dragged (mousePos mouseVel : Vec2) (b : Body) : Body :=
  setTrail [] (setVel mouseVel (setPos mousePos b)).

Definition dragStep (i : Z) (mousePos mouseVel : Vec2)
    (acc : list ref * list Body) (r : ref) : list ref * list Body :=
  let b := acc.2 !!! r in
  if (id b =? i)%Z
  then (acc.1 ++ [length acc.2], acc.2 ++ [dragged mousePos mouseVel b])
  else (acc.1 ++ [r], acc.2).

Definition mouseVel (mousePos lastMousePos : Vec2) : Vec2 :=
  mkVec2 ((x mousePos - x lastMousePos) / TIMESTEP)
         ((y mousePos - y lastMousePos) / TIMESTEP).

Definition dragBodies (i : Z) (mousePos lastMousePos : Vec2) (prev : SimState)
    (hp : Heap) : SimState * Heap :=
  let '(bs, h) := foldl (dragStep i mousePos (mouseVel mousePos lastMousePos))
                        ([], objs hp) (arrs hp !!! bodies prev) in
  (mkSimState (length (arrs hp)) (contacts prev) (totalEnergy prev) (solverErrors prev),
   mkHeap h (arrs hp ++ [bs])).

(** A source of draws for examples: 0.25, 0.5, 0.75, 0.25, ... *)
Definition someDraws : Source :=
  fun n => match (n mod 3)%nat with O => 0.25%float | 1%nat => 0.5%float | _ => 0.75%float end.

Definition plainNumber (u : float) : string := "0".

(** All draws are numbers in [0, 1), as [Math.random] returns them. *)
Definition unitDraws (src : Source) : Prop :=
  forall k, (0 <=? src k)%float = true /\ (src k <? 1)%float = true.

(** What [createBody] guarantees of a body it returns. *)
Definition wellMade (static : bool) (b : Body) : Prop :=
  isStatic b = static /\ trail b = [] /\ restitution b = 0.5%float /\
  (0.4 <=? radius b)%float = true /\ (radius b <=? 0.8)%float = true /\
  mass b = (radius b * radius b * Math_PI)%float /\
  (0.25 <=? mass b)%float = true /\ (mass b <=? 4)%float = true /\
  if static then invMass b = 0%float /\ vel b = mkVec2 0 0
  else invMass b = (1 / mass b)%float /\
       (0 <? invMass b)%float = true /\ (invMass b <=? 4)%float = true /\
       (-4 <=? x (vel b))%float = true /\ (x (vel b) <=? 4)%float = true /\
       (-4 <=? y (vel b))%float = true /\ (y (vel b) <=? 4)%float = true.

(** A body of the initial state: made by [createBody], not static, with
    its centre at least 1 from every wall. *)
Definition wellPlaced (i : Z) (b : Body) : Prop :=
  id b = i /\ wellMade false b /\
  (1 <=? x (pos b))%float = true /\ (x (pos b) <=? 15)%float = true /\
  (1 <=? y (pos b))%float = true /\ (y (pos b) <=? 11)%float = true.

(** A store whose only body has the id 2^53. *)
Definition lastExactId : Heap :=
  worldOf [mkBody 9007199254740992 (mkVec2 8 6) vzero 0.5 1 1 "hsl(0, 70%, 60%)" 0.5 [] false].

(** What a drag does to one entry of the bodies array: an entry with the
    dragged id becomes a reference to a new object, the dragged body; any
    other entry is kept. *)
Definition dragResult (i : Z) (mousePos mouseVel : Vec2) (h h' : list Body)
    (r r' : ref) : Prop :=
  if (id (h !!! r) =? i)%Z
  then (length h <= r')%nat /\ h' !! r' = Some (dragged mousePos mouseVel (h !!! r))
  else r' = r.

(** ** Binary64 values

    The values of binary64 numbers on an integer scale, for the facts
    about the primitive floats derived below from their specification
    [SpecFloat]. *)

Local Open Scope Z_scope.

(** The format: binary64. *)
Abbreviation fexp64 := (fexp prec emax).
Abbreviation bra := (binary_round_aux prec emax).

(** A shift that lost no bit. *)
Definition exact (mrs : shr_record) : Prop := shr_r mrs = false /\ shr_s mrs = false.

(** The shape of a rounded result. *)
Definition finish (s : bool) (m e : Z) : spec_float :=
  match m with
  | Z0 => S754_zero s
  | Zpos p => if e <=? 971 then S754_finite s p e else S754_infinity s
  | Zneg _ => S754_nan
  end.

(** Magnitudes, as integers in units of 2^-3000. *)
Definition mag (m e : Z) : Z := m * 2 ^ (e + 3000).

(** Three landmarks on that scale: the value given to the infinities, a
    bound above every finite binary64 number, and the least positive one. *)
Definition huge : Z := 2 ^ 5000.
Definition big : Z := 2 ^ 4024.
Definition tiny : Z := 2 ^ 1926.

Definition absval (f : spec_float) : Z :=
  match f with
  | S754_finite _ m e => mag (Zpos m) e
  | S754_infinity _ => huge
  | _ => 0
  end.

Definition is_neg (f : spec_float) : bool :=
  match f with
  | S754_finite s _ _ | S754_infinity s | S754_zero s => s
  | S754_nan => false
  end.

Definition not_nan (f : spec_float) : Prop := f <> S754_nan.

(** Signed values and the order of binary64 numbers. *)
Definition sval (f : spec_float) : Z :=
  if is_neg f then - absval f else absval f.

(** [r] is a correct rounding of the exact value [v]: every binary64
    number below [v] is below [r] and every one above is above. *)
Definition sandwich (v : Z) (r : spec_float) : Prop :=
  not_nan r /\
  forall A, valid_binary A = true -> not_nan A ->
    (sval A <= v -> sval A <= sval r) /\ (v <= sval A -> sval r <= sval A).

(** Which sums are [NaN]: opposite infinities. *)
Definition opposite_inf (x y : spec_float) : Prop :=
  exists s, x = S754_infinity s /\ y = S754_infinity (negb s).

(** Primitive floats: value, not [NaN]. *)
Definition ord (a : float) : Z := sval (Prim2SF a).
Definition num (a : float) : Prop := not_nan (Prim2SF a).

(** The sums that are [NaN]: infinities of opposite signs. *)
Definition clash (a b : float) : Prop :=
  (ord a = huge /\ ord b = - huge) \/ (ord a = - huge /\ ord b = huge).

(** The least positive binary64 number. *)
Definition SFtiny : spec_float := S754_finite false 1 (-1074).

Definition is_zero_sf (x : spec_float) : bool :=
  match x with S754_zero _ => true | _ => false end.
Definition is_inf_sf (x : spec_float) : bool :=
  match x with S754_infinity _ => true | _ => false end.

(** Signs and classes of primitive floats. *)
Definition fneg (a : float) : bool := is_neg (Prim2SF a).
Definition fzero (a : float) : bool := is_zero_sf (Prim2SF a).
Definition finf (a : float) : bool := is_inf_sf (Prim2SF a).

(** Constants: positive finite numbers. *)
Definition pos_finite (c : float) : bool :=
  match Prim2SF c with S754_finite false _ _ => true | _ => false end.

Local Close Scope Z_scope.
(** ** Binary64 arithmetic

    Facts about the primitive floats, derived from their specification
    [SpecFloat]: how the operations round, and what that implies for the
    order of the results. *)

Local Open Scope Z_scope.

(** Digits *)
Lemma digits2_pos_bounds (m : positive) :
  2 ^ (Zpos (digits2_pos m) - 1) <= Zpos m < 2 ^ Zpos (digits2_pos m).
Proof.
  induction m as [m IH|m IH|]; cbn [digits2_pos].
  - rewrite Pos2Z.inj_succ.
    replace (Z.succ (Z.pos (digits2_pos m)) - 1) with (Z.pos (digits2_pos m) - 1 + 1) by lia.
    rewrite Z.pow_succ_r by lia. rewrite Z.pow_add_r by lia. lia.
  - rewrite Pos2Z.inj_succ.
    replace (Z.succ (Z.pos (digits2_pos m)) - 1) with (Z.pos (digits2_pos m) - 1 + 1) by lia.
    rewrite Z.pow_succ_r by lia. rewrite Z.pow_add_r by lia. lia.
  - simpl. lia.
Qed.

Lemma Zdigits2_bounds (m : Z) :
  0 < m -> 0 < Zdigits2 m /\ 2 ^ (Zdigits2 m - 1) <= m < 2 ^ Zdigits2 m.
Proof.
  destruct m as [|p|p]; try lia. intros _. simpl. split; [lia|].
  apply digits2_pos_bounds.
Qed.

Lemma Zdigits2_unique (m k : Z) :
  2 ^ (k - 1) <= m < 2 ^ k -> 0 < m -> Zdigits2 m = k.
Proof.
  intros [Hl Hu] Hm.
  destruct (Zdigits2_bounds m Hm) as (Hd & Hdl & Hdu).
  assert (0 < k).
  { destruct (Z_lt_le_dec 0 k); [done|]. 
    assert (2 ^ k <= 2 ^ 0) by (destruct (Z_lt_le_dec k 0); [rewrite Z.pow_neg_r by lia; simpl; lia| apply Z.pow_le_mono_r; lia]).
    simpl in *. lia. }
  destruct (Z_lt_le_dec (Zdigits2 m) k) as [H1|H1].
  - assert (2 ^ Zdigits2 m <= 2 ^ (k - 1)) by (apply Z.pow_le_mono_r; lia). lia.
  - destruct (Z_lt_le_dec k (Zdigits2 m)) as [H2|H2]; [|lia].
    assert (2 ^ k <= 2 ^ (Zdigits2 m - 1)) by (apply Z.pow_le_mono_r; lia). lia.
Qed.

Lemma Zdigits2_nonneg (m : Z) : 0 <= Zdigits2 m.
Proof. destruct m; simpl; lia. Qed.

(** Right shifts *)
Lemma shr_1_m (mrs : shr_record) :
  0 <= shr_m mrs -> shr_m (shr_1 mrs) = shr_m mrs / 2.
Proof.
  destruct mrs as [m r s]. cbn [shr_m shr_1]. intros Hm.
  destruct m as [|[p|p|]|p]; try lia; cbn [shr_m].
  - reflexivity.
  - apply Z.div_unique with 1; lia.
  - apply Z.div_unique with 0; lia.
  - reflexivity.
Qed.

Lemma pow2_xI (p : positive) : 2 ^ Z.pos p~1 = 2 * (2 ^ Z.pos p * 2 ^ Z.pos p).
Proof.
  replace (Z.pos p~1) with (1 + (Z.pos p + Z.pos p)) by lia.
  rewrite !Z.pow_add_r by lia. reflexivity.
Qed.

Lemma pow2_xO (p : positive) : 2 ^ Z.pos p~0 = 2 ^ Z.pos p * 2 ^ Z.pos p.
Proof.
  replace (Z.pos p~0) with (Z.pos p + Z.pos p) by lia.
  rewrite !Z.pow_add_r by lia. reflexivity.
Qed.

Lemma pow2_pos (n : Z) : 0 <= n -> 0 < 2 ^ n.
Proof. intros. apply Z.pow_pos_nonneg; lia. Qed.

Lemma iter_pos_shr_m (p : positive) (mrs : shr_record) :
  0 <= shr_m mrs ->
  shr_m (SpecFloat.iter_pos shr_1 p mrs) = shr_m mrs / 2 ^ Zpos p.
Proof.
  revert mrs. induction p as [p IH|p IH|]; intros mrs Hm; cbn [SpecFloat.iter_pos].
  - assert (Hp : 0 < 2 ^ Z.pos p) by (apply pow2_pos; lia).
    assert (H1 : 0 <= shr_m (shr_1 mrs)).
    { rewrite shr_1_m by done. apply Z.div_pos; lia. }
    assert (H2 : 0 <= shr_m (SpecFloat.iter_pos shr_1 p (shr_1 mrs))).
    { rewrite IH by done. apply Z.div_pos; lia. }
    rewrite IH, IH, shr_1_m by done.
    rewrite !Z.div_div by lia.
    f_equal. rewrite pow2_xI. lia.
  - assert (Hp : 0 < 2 ^ Z.pos p) by (apply pow2_pos; lia).
    assert (H2 : 0 <= shr_m (SpecFloat.iter_pos shr_1 p mrs)).
    { rewrite IH by done. apply Z.div_pos; lia. }
    rewrite IH, IH by done.
    rewrite !Z.div_div by lia.
    f_equal. rewrite pow2_xO. lia.
  - rewrite shr_1_m by done. reflexivity.
Qed.


Lemma shr_1_exact (mrs : shr_record) :
  0 <= shr_m mrs -> exact mrs -> shr_m mrs mod 2 = 0 -> exact (shr_1 mrs).
Proof.
  destruct mrs as [m r s]; unfold exact; cbn [shr_m shr_r shr_s shr_1].
  intros Hm [-> ->] Hmod.
  destruct m as [|[p|p|]|p]; try lia; cbn; try done.
  exfalso. change (Z.pos p~1) with (2 * Z.pos p + 1) in Hmod.
  rewrite Z.add_comm, Z.mul_comm, Z_mod_plus_full in Hmod. discriminate.
Qed.

Lemma iter_pos_exact (p : positive) (mrs : shr_record) :
  0 <= shr_m mrs -> exact mrs -> shr_m mrs mod 2 ^ Zpos p = 0 ->
  exact (SpecFloat.iter_pos shr_1 p mrs).
Proof.
  revert mrs. induction p as [p IH|p IH|]; intros mrs Hm Hex Hmod; cbn [SpecFloat.iter_pos].
  - assert (Hp : 0 < 2 ^ Z.pos p) by (apply pow2_pos; lia).
    rewrite pow2_xI in Hmod.
    apply Z.mod_divide in Hmod; [|lia]. destruct Hmod as [q Hq].
    assert (Hq0 : 0 <= q) by nia.
    assert (E1 : shr_m (shr_1 mrs) = q * 2 ^ Z.pos p * 2 ^ Z.pos p).
    { rewrite shr_1_m by done. rewrite Hq.
      replace (q * (2 * (2 ^ Z.pos p * 2 ^ Z.pos p))) with (q * 2 ^ Z.pos p * 2 ^ Z.pos p * 2) by lia.
      apply Z.div_mul. lia. }
    assert (H1 : 0 <= shr_m (shr_1 mrs)) by (rewrite E1; nia).
    assert (E2 : shr_m (SpecFloat.iter_pos shr_1 p (shr_1 mrs)) = q * 2 ^ Z.pos p).
    { rewrite iter_pos_shr_m, E1 by done. apply Z.div_mul. lia. }
    apply IH.
    + rewrite E2. nia.
    + apply IH; [done| |].
      * apply shr_1_exact; [done..|]. rewrite Hq.
        replace (q * (2 * (2 ^ Z.pos p * 2 ^ Z.pos p))) with (q * 2 ^ Z.pos p * 2 ^ Z.pos p * 2) by lia.
        apply Z_mod_mult.
      * rewrite E1. apply Z_mod_mult.
    + rewrite E2. apply Z_mod_mult.
  - assert (Hp : 0 < 2 ^ Z.pos p) by (apply pow2_pos; lia).
    rewrite pow2_xO in Hmod.
    apply Z.mod_divide in Hmod; [|lia]. destruct Hmod as [q Hq].
    assert (Hq0 : 0 <= q) by nia.
    assert (E2 : shr_m (SpecFloat.iter_pos shr_1 p mrs) = q * 2 ^ Z.pos p).
    { rewrite iter_pos_shr_m, Hq by done. rewrite Z.mul_assoc. apply Z.div_mul. lia. }
    apply IH.
    + rewrite E2. nia.
    + apply IH; [done..|]. rewrite Hq, Z.mul_assoc. apply Z_mod_mult.
    + rewrite E2. apply Z_mod_mult.
  - apply shr_1_exact; try done.
Qed.


Lemma fexp64_eq (e : Z) : fexp64 e = Z.max (e - 53) (-1074).
Proof. reflexivity. Qed.

Lemma shr_record_of_loc_m (m : Z) (l : location) : shr_m (shr_record_of_loc m l) = m.
Proof. by destruct l as [|[]]. Qed.

Lemma shr_fexp_spec (m e : Z) (l : location) :
  0 <= m ->
  let e' := Z.max e (fexp64 (Zdigits2 m + e)) in
  let r := (shr_fexp prec emax m e l).1 in
  (shr_fexp prec emax m e l).2 = e' /\
  shr_m r = m / 2 ^ (e' - e) /\
  (l = loc_Exact -> m mod 2 ^ (e' - e) = 0 -> exact r).
Proof.
  intros Hm e' r. subst r. unfold shr_fexp, shr.
  destruct (fexp64 (Zdigits2 m + e) - e) as [|p|p] eqn:E.
  - assert (e' = e) as -> by lia. cbn [fst snd].
    rewrite Z.sub_diag, Z.div_1_r, shr_record_of_loc_m.
    split; [done|]. split; [done|]. by intros -> _.
  - assert (e' = e + Z.pos p) as -> by lia. cbn [fst snd].
    replace (e + Z.pos p - e) with (Z.pos p) by lia.
    split; [done|]. split.
    + rewrite iter_pos_shr_m; rewrite shr_record_of_loc_m; done.
    + intros -> Hmod. apply iter_pos_exact; done.
  - assert (e' = e) as -> by lia. cbn [fst snd].
    rewrite Z.sub_diag, Z.div_1_r, shr_record_of_loc_m.
    split; [done|]. split; [done|]. by intros -> _.
Qed.

Lemma round_nearest_even_spec (r : shr_record) :
  let m' := round_nearest_even (shr_m r) (loc_of_shr_record r) in
  (m' = shr_m r \/ m' = shr_m r + 1) /\ (exact r -> m' = shr_m r).
Proof.
  destruct r as [m [] []]; unfold exact; cbn; split; try tauto; try (intros [? ?]; done).
  destruct (Z.even m); tauto.
Qed.


Lemma bra_spec (s : bool) (mx ex : Z) (lx : location) :
  0 <= mx ->
  let e1 := Z.max ex (fexp64 (Zdigits2 mx + ex)) in
  let m1 := mx / 2 ^ (e1 - ex) in
  exists m2,
    (m2 = m1 \/ m2 = m1 + 1) /\
    (lx = loc_Exact -> mx mod 2 ^ (e1 - ex) = 0 -> m2 = m1) /\
    let e2 := Z.max e1 (fexp64 (Zdigits2 m2 + e1)) in
    bra s mx ex lx = finish s (m2 / 2 ^ (e2 - e1)) e2.
Proof.
  intros Hmx e1 m1. unfold binary_round_aux.
  destruct (shr_fexp_spec mx ex lx Hmx) as (He & Hm & Hex).
  destruct (shr_fexp prec emax mx ex lx) as [r e'] eqn:E1. cbn [fst snd] in *.
  fold e1 in He, Hm, Hex. fold m1 in Hm. subst e'.
  destruct (round_nearest_even_spec r) as [Hr Hrex].
  set (m2 := round_nearest_even (shr_m r) (loc_of_shr_record r)) in *.
  exists m2. rewrite Hm in Hr, Hrex. split; [done|]. split.
  { intros Hl Hmod. apply Hrex, Hex; done. }
  assert (Hm1 : 0 <= m1).
  { unfold m1. apply Z.div_pos; [done|]. apply pow2_pos. lia. }
  assert (Hm2 : 0 <= m2) by lia.
  destruct (shr_fexp_spec m2 e1 loc_Exact Hm2) as (He2 & Hm3 & _).
  destruct (shr_fexp prec emax m2 e1 loc_Exact) as [r2 e2] eqn:E2. cbn [fst snd] in *.
  rewrite Hm3. subst e2. reflexivity.
Qed.


Lemma mag_shift (m e n : Z) : 0 <= n -> -3000 <= e -> mag (m * 2 ^ n) e = mag m (e + n).
Proof.
  intros. unfold mag. replace (e + n + 3000) with (n + (e + 3000)) by lia.
  rewrite (Z.pow_add_r 2 n (e + 3000)) by lia. ring.
Qed.

Lemma mag_mono (m m' e : Z) : m <= m' -> -3000 <= e -> mag m e <= mag m' e.
Proof.
  intros. unfold mag. apply Z.mul_le_mono_nonneg_r; [|done].
  apply Z.lt_le_incl, pow2_pos. lia.
Qed.

Lemma mag_lt_mono (m m' e : Z) : m < m' -> -3000 <= e -> mag m e < mag m' e.
Proof.
  intros. unfold mag. apply Z.mul_lt_mono_pos_r; [|done]. apply pow2_pos. lia.
Qed.

Lemma mag_pow (k e : Z) : 0 <= k -> -3000 <= e -> mag (2 ^ k) e = 2 ^ (k + e + 3000).
Proof.
  intros. unfold mag. rewrite <- Z.pow_add_r by lia. f_equal. lia.
Qed.

Lemma mag_nonneg (m e : Z) : 0 <= m -> 0 <= mag m e.
Proof.
  intros. unfold mag. apply Z.mul_nonneg_nonneg; [done|]. apply Z.pow_nonneg. lia.
Qed.

Lemma mag_pos (m e : Z) : 0 < m -> -3000 <= e -> 0 < mag m e.
Proof. intros. unfold mag. apply Z.mul_pos_pos; [done|]. apply pow2_pos. lia. Qed.

Lemma floor_le (m n : Z) : 0 <= n -> m / 2 ^ n * 2 ^ n <= m.
Proof.
  intros. pose proof (pow2_pos n H). rewrite Z.mul_comm.
  apply Z.mul_div_le. lia.
Qed.

Lemma floor_lt (m n : Z) : 0 <= n -> m < (m / 2 ^ n + 1) * 2 ^ n.
Proof.
  intros. pose proof (pow2_pos n H).
  pose proof (Z.mod_pos_bound m (2 ^ n) H0).
  pose proof (Z.div_mod m (2 ^ n)). lia.
Qed.

Lemma floor_exact (m n : Z) : 0 <= n -> m mod 2 ^ n <> 0 -> m / 2 ^ n * 2 ^ n < m.
Proof.
  intros. pose proof (pow2_pos n H).
  pose proof (Z.mod_pos_bound m (2 ^ n) H1).
  pose proof (Z.div_mod m (2 ^ n)). lia.
Qed.

(** Representable magnitudes. *)
Lemma bounded_spec (m : positive) (e : Z) :
  bounded prec emax m e = true <->
  -1074 <= e <= 971 /\ Zpos (digits2_pos m) <= 53 /\
  (-1074 < e -> Zpos (digits2_pos m) = 53).
Proof.
  unfold bounded, canonical_mantissa. rewrite andb_true_iff, Z.eqb_eq, Z.leb_le.
  rewrite fexp64_eq. change (emax - prec) with 971. lia.
Qed.

Lemma bounded_range (m : positive) (e : Z) :
  bounded prec emax m e = true ->
  Zpos m < 2 ^ 53 /\ (-1074 < e -> 2 ^ 52 <= Zpos m).
Proof.
  rewrite bounded_spec. intros (He & Hd & Hn).
  pose proof (digits2_pos_bounds m) as [Hl Hu]. split.
  - eapply Z.lt_le_trans; [exact Hu|]. apply Z.pow_le_mono_r; lia.
  - intros H. rewrite (Hn H) in Hl. exact Hl.
Qed.

(** A representable magnitude below a value is below the value truncated
    to a canonical exponent; one above an inexact value is above the next
    multiple. *)
Lemma repr_floor (mA : positive) (eA v e1 M : Z) :
  bounded prec emax mA eA = true ->
  -1074 <= e1 -> 0 <= v -> M = v / 2 ^ (e1 + 3000) ->
  (-1074 < e1 -> 2 ^ 52 <= M) ->
  mag (Zpos mA) eA <= v -> mag (Zpos mA) eA <= mag M e1.
Proof.
  intros Hb He1 Hv HM Hnorm Hle.
  pose proof (bounded_range _ _ Hb) as [HmA _].
  apply bounded_spec in Hb as (HeA & _).
  assert (HP : 0 < 2 ^ (e1 + 3000)) by (apply pow2_pos; lia).
  destruct (Z_lt_le_dec eA e1) as [Hlt|Hge].
  - assert (mag (Z.pos mA) eA < mag (2 ^ 53) eA) by (apply mag_lt_mono; lia).
    rewrite mag_pow in H by lia.
    assert (2 ^ (53 + eA + 3000) <= 2 ^ (52 + e1 + 3000)) by (apply Z.pow_le_mono_r; lia).
    assert (mag (2 ^ 52) e1 <= mag M e1) by (apply mag_mono; lia).
    rewrite mag_pow in H1 by lia. lia.
  - replace eA with (e1 + (eA - e1)) by lia.
    rewrite <- mag_shift by lia. apply mag_mono; [|lia].
    rewrite HM. apply Z.div_le_lower_bound; [done|].
    replace eA with (e1 + (eA - e1)) in Hle by lia.
    rewrite <- mag_shift in Hle by lia. unfold mag in Hle. lia.
Qed.

Lemma repr_ceil (mA : positive) (eA v e1 M : Z) :
  bounded prec emax mA eA = true ->
  -1074 <= e1 -> 0 <= v -> M = v / 2 ^ (e1 + 3000) ->
  (-1074 < e1 -> 2 ^ 52 <= M) ->
  v mod 2 ^ (e1 + 3000) <> 0 ->
  v <= mag (Zpos mA) eA -> mag (M + 1) e1 <= mag (Zpos mA) eA.
Proof.
  intros Hb He1 Hv HM Hnorm Hne Hle.
  pose proof (bounded_range _ _ Hb) as [HmA _].
  apply bounded_spec in Hb as (HeA & _).
  assert (HP : 0 < 2 ^ (e1 + 3000)) by (apply pow2_pos; lia).
  assert (Hfl : M * 2 ^ (e1 + 3000) < v).
  { rewrite HM. apply floor_exact; [lia|done]. }
  destruct (Z_lt_le_dec eA e1) as [Hlt|Hge].
  - exfalso.
    assert (mag (Z.pos mA) eA < mag (2 ^ 53) eA) by (apply mag_lt_mono; lia).
    rewrite mag_pow in H by lia.
    assert (2 ^ (53 + eA + 3000) <= 2 ^ (52 + e1 + 3000)) by (apply Z.pow_le_mono_r; lia).
    assert (mag (2 ^ 52) e1 <= mag M e1) by (apply mag_mono; lia).
    rewrite mag_pow in H1 by lia. unfold mag in H1. lia.
  - replace eA with (e1 + (eA - e1)) by lia.
    rewrite <- mag_shift by lia. apply mag_mono; [|lia].
    replace eA with (e1 + (eA - e1)) in Hle by lia.
    rewrite <- mag_shift in Hle by lia. unfold mag in Hle.
    assert (M < Z.pos mA * 2 ^ (eA - e1)); [|lia].
    apply Z.mul_lt_mono_pos_r with (2 ^ (e1 + 3000)); [done|lia].
Qed.

Lemma Zdigits2_pow53 : Zdigits2 (2 ^ 53) = 54.
Proof. reflexivity. Qed.

Lemma step2 (m1 m2 e1 : Z) :
  0 <= m1 < 2 ^ 53 -> -1074 <= e1 -> (m2 = m1 \/ m2 = m1 + 1) ->
  let e2 := Z.max e1 (fexp64 (Zdigits2 m2 + e1)) in
  let m3 := m2 / 2 ^ (e2 - e1) in
  m3 * 2 ^ (e2 - e1) = m2 /\ 0 <= m3 < 2 ^ 53 /\
  (e2 = e1 \/ (e2 = e1 + 1 /\ m2 = 2 ^ 53)).
Proof.
  intros Hm1 He1 Hm2 e2 m3.
  destruct (Z_lt_le_dec m2 (2 ^ 53)) as [Hlt|Hge].
  - assert (He2 : e2 = e1).
    { unfold e2. rewrite fexp64_eq.
      destruct (Z.eq_dec m2 0) as [->|Hne]; [simpl; lia|].
      destruct (Zdigits2_bounds m2) as (Hd & Hl & _); [lia|].
      assert (Zdigits2 m2 - 1 < 53); [|lia].
      apply (Z.pow_lt_mono_r_iff 2); lia. }
    unfold m3. rewrite He2, Z.sub_diag, Z.pow_0_r, Z.div_1_r. lia.
  - assert (m2 = 2 ^ 53) as Hm by lia.
    assert (He2 : e2 = e1 + 1).
    { unfold e2. rewrite Hm, Zdigits2_pow53, fexp64_eq. lia. }
    unfold m3. rewrite He2, Hm.
    replace (e1 + 1 - e1) with 1 by lia.
    split; [reflexivity|]. split; [|right; done].
    change (2 ^ 53 / 2 ^ 1) with (2 ^ 52). lia.
Qed.

Lemma bra_value (s : bool) (mx ex : Z) (lx : location) :
  0 <= mx -> -3000 <= ex ->
  let e1 := Z.max ex (fexp64 (Zdigits2 mx + ex)) in
  let m1 := mx / 2 ^ (e1 - ex) in
  exists m2 m3 e2,
    (m2 = m1 \/ m2 = m1 + 1) /\
    (lx = loc_Exact -> mx mod 2 ^ (e1 - ex) = 0 -> m2 = m1) /\
    0 <= m1 < 2 ^ 53 /\
    (0 < mx -> -1074 < e1 -> ex <= fexp64 (Zdigits2 mx + ex) -> 2 ^ 52 <= m1) /\
    bra s mx ex lx = finish s m3 e2 /\
    mag m3 e2 = mag m2 e1 /\ 0 <= m3 < 2 ^ 53 /\
    (e2 = e1 \/ (e2 = e1 + 1 /\ m2 = 2 ^ 53)).
Proof.
  intros Hmx Hex e1 m1.
  destruct (bra_spec s mx ex lx Hmx) as (m2 & Hm2 & Hexact & Hres).
  fold e1 m1 in Hm2, Hexact, Hres.
  assert (Hsh : 0 <= e1 - ex) by lia.
  assert (HP : 0 < 2 ^ (e1 - ex)) by (by apply pow2_pos).
  assert (Hm1 : 0 <= m1 < 2 ^ 53).
  { split; [apply Z.div_pos; lia|].
    apply Z.div_lt_upper_bound; [done|].
    destruct (Z.eq_dec mx 0) as [->|Hne]; [lia|].
    destruct (Zdigits2_bounds mx) as (Hd & _ & Hu); [lia|].
    eapply Z.lt_le_trans; [exact Hu|].
    rewrite <- Z.pow_add_r by lia. apply Z.pow_le_mono_r; [lia|].
    unfold e1. rewrite fexp64_eq. lia. }
  assert (He1 : -1074 <= e1) by (unfold e1; rewrite fexp64_eq; lia).
  destruct (step2 m1 m2 e1 Hm1 He1 Hm2) as (H3 & Hm3 & He2).
  set (e2 := Z.max e1 (fexp64 (Zdigits2 m2 + e1))) in *.
  set (m3 := m2 / 2 ^ (e2 - e1)) in *.
  exists m2, m3, e2. repeat (split; [done|]).
  split.
  { intros Hpos Hn Hle.
    destruct (Zdigits2_bounds mx Hpos) as (Hd & Hl & _).
    assert (E : e1 - ex = Zdigits2 mx - 53) by (unfold e1 in *; rewrite fexp64_eq in *; lia).
    unfold m1. rewrite E. apply Z.div_le_lower_bound; [apply pow2_pos; lia|].
    rewrite <- Z.pow_add_r by lia.
    replace (Zdigits2 mx - 53 + 52) with (Zdigits2 mx - 1) by lia. done. }
  split; [done|]. split; [|done].
  transitivity (mag (m3 * 2 ^ (e2 - e1)) e1); [|by rewrite H3].
  rewrite mag_shift by lia. f_equal. lia.
Qed.


Lemma big_eq : big = 2 ^ (1024 + 3000).
Proof. reflexivity. Qed.

Lemma huge_big : 4 * big <= huge.
Proof.
  unfold huge, big. change 4 with (2 ^ 2). rewrite <- Z.pow_add_r by lia.
  apply Z.pow_le_mono_r; lia.
Qed.

Lemma big_pos : 0 < big.
Proof. unfold big. by apply pow2_pos. Qed.

Lemma tiny_pos : 0 < tiny.
Proof. unfold tiny. by apply pow2_pos. Qed.

Lemma tiny_big : 8 * tiny < big.
Proof.
  unfold tiny, big. change 8 with (2 ^ 3). rewrite <- Z.pow_add_r by lia.
  apply Z.pow_lt_mono_r; lia.
Qed.

Lemma huge_tiny : huge = 2 ^ 3074 * tiny.
Proof. unfold huge, tiny. rewrite <- Z.pow_add_r by lia. reflexivity. Qed.

Lemma huge_nonneg : 0 <= huge.
Proof. unfold huge. apply Z.pow_nonneg. lia. Qed.

Lemma mag_tiny (k : Z) : mag k (-1074) = k * tiny.
Proof. reflexivity. Qed.

#[global] Opaque huge big tiny.


Lemma mag_bounded_lt (m : positive) (e : Z) :
  bounded prec emax m e = true -> 0 < mag (Zpos m) e < big.
Proof.
  intros Hb. pose proof (bounded_range _ _ Hb) as [Hm _].
  apply bounded_spec in Hb as (He & _). split; [apply mag_pos; lia|].
  eapply Z.lt_le_trans; [apply (mag_lt_mono _ (2 ^ 53)); lia|].
  rewrite mag_pow, big_eq by lia. apply Z.pow_le_mono_r; lia.
Qed.

Lemma finish_shape (s : bool) (m e : Z) :
  0 <= m -> not_nan (finish s m e) /\ is_neg (finish s m e) = s.
Proof.
  intros Hm. destruct m as [|p|p]; try lia; cbn [finish].
  - done.
  - destruct (e <=? 971); done.
Qed.

Lemma finish_absval (s : bool) (m e : Z) :
  0 <= m < 2 ^ 53 -> -3000 <= e ->
  (e <= 971 /\ absval (finish s m e) = mag m e) \/
  (971 < e /\ 0 < m /\ finish s m e = S754_infinity s) \/
  (971 < e /\ m = 0 /\ finish s m e = S754_zero s).
Proof.
  intros Hm He. destruct m as [|p|p]; try lia; cbn [finish].
  - destruct (Z_le_gt_dec e 971); [left|right; right]; split; try lia; done.
  - destruct (Z.leb_spec e 971); [left|right; left]; done.
Qed.

Lemma bra_shape (s : bool) (mx ex : Z) (lx : location) :
  0 <= mx -> -3000 <= ex ->
  not_nan (bra s mx ex lx) /\ is_neg (bra s mx ex lx) = s.
Proof.
  intros Hmx Hex.
  destruct (bra_value s mx ex lx Hmx Hex) as (m2 & m3 & e2 & _ & _ & _ & _ & -> & _ & Hm3 & _).
  apply finish_shape. lia.
Qed.

Lemma mag_div (mx ex e1 : Z) :
  0 <= mx -> -3000 <= ex -> ex <= e1 ->
  mag mx ex / 2 ^ (e1 + 3000) = mx / 2 ^ (e1 - ex) /\
  (mag mx ex mod 2 ^ (e1 + 3000) = 0 <-> mx mod 2 ^ (e1 - ex) = 0).
Proof.
  intros Hmx Hex He1. unfold mag.
  replace (e1 + 3000) with (e1 - ex + (ex + 3000)) by lia.
  rewrite (Z.pow_add_r 2 (e1 - ex) (ex + 3000)) by lia.
  assert (0 < 2 ^ (ex + 3000)) by (apply pow2_pos; lia).
  assert (0 < 2 ^ (e1 - ex)) by (apply pow2_pos; lia).
  split.
  - apply Z.div_mul_cancel_r; lia.
  - rewrite Z.mul_mod_distr_r by lia. nia.
Qed.

(** Rounding does not go below a representable magnitude that the value
    reaches. *)
Lemma bra_lower (s : bool) (mx ex : Z) (lx : location) (mA : positive) (eA : Z) :
  0 <= mx -> -3000 <= ex ->
  bounded prec emax mA eA = true ->
  mag (Zpos mA) eA <= mag mx ex ->
  mag (Zpos mA) eA <= absval (bra s mx ex lx).
Proof.
  intros Hmx Hex Hb Hle.
  destruct (bra_value s mx ex lx Hmx Hex)
    as (m2 & m3 & e2 & Hm2 & _ & Hm1 & Hnorm & -> & Hmag & Hm3 & He2).
  set (e1 := Z.max ex (fexp64 (Zdigits2 mx + ex))) in *.
  set (m1 := mx / 2 ^ (e1 - ex)) in *.
  pose proof (mag_bounded_lt _ _ Hb) as [HA0 HA1].
  assert (Hmxpos : 0 < mx).
  { destruct (Z.eq_dec mx 0) as [->|]; [|lia].
    assert (mag 0 ex = 0) by (unfold mag; lia). lia. }
  assert (He1 : -1074 <= e1 /\ ex <= e1) by (unfold e1; rewrite fexp64_eq; lia).
  assert (H1 : mag (Z.pos mA) eA <= mag m1 e1).
  { destruct (Z.eq_dec e1 ex) as [E|E].
    - unfold m1. rewrite E, Z.sub_diag, Z.pow_0_r, Z.div_1_r. done.
    - apply (repr_floor mA eA (mag mx ex) e1 m1).
      + done.
      + lia.
      + apply mag_nonneg. lia.
      + symmetry. apply mag_div; lia.
      + intros Hn. apply Hnorm; [done..|]. unfold e1 in *. lia.
      + done. }
  assert (H2 : mag m1 e1 <= mag m2 e1) by (apply mag_mono; lia).
  destruct (finish_absval s m3 e2 Hm3) as [[_ ->]|[(_ & _ & ->)|(He & -> & _)]]; try lia.
  - cbn [absval]. pose proof huge_big. lia.
  - exfalso. unfold mag in Hmag at 1. simpl in Hmag. lia.
Qed.

(** An exact value is not rounded above a representable magnitude that
    bounds it. *)
Lemma bra_upper (s : bool) (mx ex : Z) (A : spec_float) :
  0 <= mx -> -3000 <= ex -> ex <= fexp64 (Zdigits2 mx + ex) ->
  valid_binary A = true -> not_nan A ->
  mag mx ex <= absval A ->
  absval (bra s mx ex loc_Exact) <= absval A.
Proof.
  intros Hmx Hex Hcan Hv Hn Hle.
  destruct (bra_value s mx ex loc_Exact Hmx Hex)
    as (m2 & m3 & e2 & Hm2 & Hexact & Hm1 & Hnorm & -> & Hmag & Hm3 & He2).
  set (e1 := Z.max ex (fexp64 (Zdigits2 mx + ex))) in *.
  set (m1 := mx / 2 ^ (e1 - ex)) in *.
  assert (He1 : -1074 <= e1 /\ ex <= e1) by (unfold e1; rewrite fexp64_eq; lia).
  assert (HP : 0 < 2 ^ (e1 - ex)) by (apply pow2_pos; lia).
  assert (Hfin : absval (finish s m3 e2) <= huge).
  { pose proof huge_big as Hhuge. pose proof big_pos as Hbig.
    pose proof huge_nonneg as Hh0.
    destruct (finish_absval s m3 e2 Hm3) as [[He ->]|[(_ & _ & ->)|(_ & _ & ->)]];
      try lia; cbn [absval]; try lia.
    assert (mag m3 e2 <= mag (2 ^ 53) e2) by (apply mag_mono; lia).
    rewrite mag_pow in H by lia.
    assert (2 ^ (53 + e2 + 3000) <= big) by (rewrite big_eq; apply Z.pow_le_mono_r; lia).
    lia. }
  assert (Hzero : mx = 0 -> absval (finish s m3 e2) = 0).
  { intros Hz.
    assert (Hz1 : m1 = 0) by (unfold m1; rewrite Hz; apply Z.div_0_l; lia).
    assert (Hz2 : m2 = m1) by (apply Hexact; [done|]; rewrite Hz; apply Z.mod_0_l; lia).
    assert (Hz3 : mag m3 e2 = 0) by (rewrite Hmag; unfold mag; lia).
    assert (Hz4 : m3 = 0).
    { unfold mag in Hz3. apply Z.mul_eq_0 in Hz3 as [|Hz3]; [done|].
      assert (0 < 2 ^ (e2 + 3000)) by (apply pow2_pos; lia). lia. }
    rewrite Hz4. done. }
  destruct A as [sA|sA| |sA mA eA]; cbn [absval] in *.
  - assert (mx = 0); [|by rewrite Hzero].
    destruct (Z.eq_dec mx 0); [done|]. assert (0 < mag mx ex) by (apply mag_pos; lia). lia.
  - done.
  - by destruct Hn.
  - cbn [valid_binary] in Hv.
    pose proof (mag_bounded_lt _ _ Hv) as [HA0 HA1].
    destruct (Z.eq_dec mx 0) as [Hz|Hnz]; [rewrite Hzero; lia|].
    assert (Hmxpos : 0 < mx) by lia.
    assert (Hnorm' : -1074 < e1 -> 2 ^ 52 <= m1) by (intros; by apply Hnorm).
    assert (H1 : mag m2 e1 <= mag (Z.pos mA) eA).
    { destruct (Z.eq_dec (mx mod 2 ^ (e1 - ex)) 0) as [Hmod|Hmod].
      - rewrite (Hexact eq_refl Hmod).
        apply Z.div_exact in Hmod; [|lia].
        replace (mag m1 e1) with (mag mx ex); [done|].
        rewrite Hmod at 1. rewrite Z.mul_comm, mag_shift by lia. f_equal. lia.
      - eapply Z.le_trans; [apply (mag_mono m2 (m1 + 1)); lia|].
        apply (repr_ceil mA eA (mag mx ex) e1 m1).
        + done.
        + lia.
        + apply mag_nonneg. lia.
        + symmetry. apply mag_div; lia.
        + done.
        + rewrite (proj2 (mag_div mx ex e1 Hmx Hex (proj2 He1))). done.
        + done. }
    destruct (finish_absval s m3 e2 Hm3) as [[_ ->]|[(He & Hpos & _)|(He & -> & _)]]; try lia.
    + exfalso.
      assert (big <= mag m2 e1); [|lia].
      destruct He2 as [E|[E ->]].
      * rewrite <- Hmag. 
        assert (m3 = m2).
        { apply (Z.mul_cancel_r _ _ (2 ^ (e2 + 3000))); [apply Z.pow_nonzero; lia|].
          unfold mag in Hmag. rewrite Hmag, E. done. }
        eapply Z.le_trans; [|apply (mag_mono (2 ^ 52)); lia].
        rewrite mag_pow, big_eq by lia. apply Z.pow_le_mono_r; lia.
      * rewrite mag_pow, big_eq by lia. apply Z.pow_le_mono_r; lia.
    + rewrite Hzero; [lia|]. exfalso.
      assert (mag 0 e2 = 0) by (unfold mag; lia).
      assert (0 < mag m1 e1); [|assert (mag m1 e1 <= mag m2 e1) by (apply mag_mono; lia); lia].
      apply mag_pos; [|lia].
      assert (2 ^ 52 <= m1); [|lia]. apply Hnorm'. lia.
Qed.

(** Left alignment and [binary_round]. *)
Lemma pos_iter_xO (m d : positive) : Zpos (Pos.iter xO m d) = Zpos m * 2 ^ Zpos d.
Proof.
  revert m. induction d as [|d IH] using Pos.peano_ind; intros m.
  - simpl. lia.
  - rewrite Pos.iter_succ, Pos2Z.inj_xO, IH, Pos2Z.inj_succ, Z.pow_succ_r by lia. ring.
Qed.

Lemma shl_align_spec (mx : positive) (ex e' : Z) :
  let ez := Z.min ex e' in
  (shl_align mx ex e').2 = ez /\
  Zpos (shl_align mx ex e').1 = Zpos mx * 2 ^ (ex - ez).
Proof.
  intros ez. unfold shl_align.
  destruct (e' - ex) as [|d|d] eqn:E; cbn [fst snd].
  - assert (ez = ex) as -> by lia. rewrite Z.sub_diag. simpl. lia.
  - assert (ez = ex) as -> by lia. rewrite Z.sub_diag. simpl. lia.
  - assert (ez = e') as -> by lia. split; [done|].
    rewrite pos_iter_xO. f_equal. f_equal. lia.
Qed.

Lemma Zdigits2_shift (m n : Z) : 0 < m -> 0 <= n -> Zdigits2 (m * 2 ^ n) = Zdigits2 m + n.
Proof.
  intros Hm Hn. destruct (Zdigits2_bounds m Hm) as (Hd & Hl & Hu).
  assert (HP : 0 < 2 ^ n) by (by apply pow2_pos).
  apply Zdigits2_unique; [|nia].
  replace (Zdigits2 m + n - 1) with (Zdigits2 m - 1 + n) by lia.
  rewrite !Z.pow_add_r by lia. nia.
Qed.

Lemma binary_round_bra (s : bool) (mx : positive) (ex : Z) :
  -3000 <= ex ->
  exists mz ez,
    binary_round prec emax s mx ex = bra s mz ez loc_Exact /\
    0 < mz /\ -3000 <= ez /\ ez <= fexp64 (Zdigits2 mz + ez) /\
    mag mz ez = mag (Zpos mx) ex.
Proof.
  intros Hex. unfold binary_round.
  destruct (shl_align_spec mx ex (fexp64 (Z.pos (digits2_pos mx) + ex))) as [He Hm].
  destruct (shl_align mx ex _) as [mz ez] eqn:E. cbn [fst snd] in *.
  rewrite <- He in Hm.
  exists (Zpos mz), ez. split; [done|]. split; [lia|].
  assert (Hez : -3000 <= ez /\ ez <= ex) by (rewrite fexp64_eq in He; lia).
  split; [lia|]. split.
  - rewrite Hm, Zdigits2_shift by lia.
    replace (Zdigits2 (Z.pos mx) + (ex - ez) + ez) with (Z.pos (digits2_pos mx) + ex)
      by (simpl; lia). lia.
  - rewrite Hm, mag_shift by lia. f_equal. lia.
Qed.

Lemma binary_round_shape (s : bool) (mx : positive) (ex : Z) :
  -3000 <= ex ->
  not_nan (binary_round prec emax s mx ex) /\
  is_neg (binary_round prec emax s mx ex) = s.
Proof.
  intros Hex. destruct (binary_round_bra s mx ex Hex) as (mz & ez & -> & Hmz & Hez & _).
  apply bra_shape; lia.
Qed.

Lemma binary_round_lower (s : bool) (mx : positive) (ex : Z) (mA : positive) (eA : Z) :
  -3000 <= ex -> bounded prec emax mA eA = true ->
  mag (Zpos mA) eA <= mag (Zpos mx) ex ->
  mag (Zpos mA) eA <= absval (binary_round prec emax s mx ex).
Proof.
  intros Hex Hb Hle.
  destruct (binary_round_bra s mx ex Hex) as (mz & ez & -> & Hmz & Hez & _ & Hmag).
  apply bra_lower; try done; try lia.
Qed.

Lemma binary_round_upper (s : bool) (mx : positive) (ex : Z) (A : spec_float) :
  -3000 <= ex -> valid_binary A = true -> not_nan A ->
  mag (Zpos mx) ex <= absval A ->
  absval (binary_round prec emax s mx ex) <= absval A.
Proof.
  intros Hex Hv Hn Hle.
  destruct (binary_round_bra s mx ex Hex) as (mz & ez & -> & Hmz & Hez & Hcan & Hmag).
  apply bra_upper; try done; try lia.
Qed.


Lemma absval_range (f : spec_float) :
  valid_binary f = true ->
  0 <= absval f <= huge /\
  (forall s m e, f = S754_finite s m e -> 0 < absval f < big).
Proof.
  intros Hv. pose proof huge_big as Hh.
  pose proof big_pos as Hp.
  destruct f as [s|s| |s m e]; cbn [absval]; (split; [try lia|try done]).
  - pose proof (mag_bounded_lt m e Hv). lia.
  - intros ? ? ? _. apply (mag_bounded_lt m e Hv).
Qed.

Lemma mag_lt_exp (m1 m2 : positive) (e1 e2 : Z) :
  bounded prec emax m1 e1 = true -> bounded prec emax m2 e2 = true ->
  e1 < e2 -> mag (Zpos m1) e1 < mag (Zpos m2) e2.
Proof.
  intros H1 H2 Hlt.
  pose proof (bounded_range _ _ H1) as [Hu _].
  pose proof (bounded_range _ _ H2) as [_ Hl].
  apply bounded_spec in H1 as (He1 & _). apply bounded_spec in H2 as (He2 & _).
  assert (mag (Z.pos m1) e1 < mag (2 ^ 53) e1) by (apply mag_lt_mono; lia).
  assert (mag (2 ^ 52) e2 <= mag (Z.pos m2) e2) by (apply mag_mono; lia).
  rewrite mag_pow in H, H0 by lia.
  assert (2 ^ (53 + e1 + 3000) <= 2 ^ (52 + e2 + 3000)) by (apply Z.pow_le_mono_r; lia).
  lia.
Qed.

Lemma mag_compare (m1 m2 : positive) (e1 e2 : Z) :
  bounded prec emax m1 e1 = true -> bounded prec emax m2 e2 = true ->
  (mag (Zpos m1) e1 ?= mag (Zpos m2) e2) =
  match e1 ?= e2 with
  | Lt => Lt
  | Gt => Gt
  | Eq => Pos.compare_cont Eq m1 m2
  end.
Proof.
  intros H1 H2. destruct (Z.compare_spec e1 e2) as [->|Hlt|Hgt].
  - change (Pos.compare_cont Eq m1 m2) with (Z.pos m1 ?= Z.pos m2).
    pose proof (proj1 (bounded_spec _ _) H2) as (He & _).
    assert (HP : 0 < 2 ^ (e2 + 3000)) by (apply pow2_pos; lia).
    unfold mag. destruct (Z.compare_spec (Z.pos m1) (Z.pos m2)) as [E|E|E].
    + rewrite E. apply Z.compare_refl.
    + apply Z.compare_lt_iff. nia.
    + apply Z.compare_gt_iff. nia.
  - apply Z.compare_lt_iff. by apply mag_lt_exp.
  - apply Z.compare_gt_iff. by apply mag_lt_exp.
Qed.

Lemma SFcompare_sval (x y : spec_float) :
  valid_binary x = true -> valid_binary y = true -> not_nan x -> not_nan y ->
  SFcompare x y = Some (sval x ?= sval y).
Proof.
  intros Hx Hy Nx Ny.
  pose proof (absval_range x Hx) as [Rx Fx].
  pose proof (absval_range y Hy) as [Ry Fy].
  pose proof huge_big as Hh.
  pose proof big_pos as Hp.
  destruct x as [sx|sx| |sx mx ex]; [| |by destruct Nx|];
  destruct y as [sy|sy| |sy my ey]; try (by destruct Ny);
    try specialize (Fx _ _ _ eq_refl); try specialize (Fy _ _ _ eq_refl);
    unfold sval in *; cbn [SFcompare is_neg absval] in *.
  - by destruct sx, sy.
  - destruct sx, sy; f_equal; symmetry;
      first [apply Z.compare_lt_iff | apply Z.compare_gt_iff]; lia.
  - destruct sx, sy; f_equal; symmetry;
      first [apply Z.compare_lt_iff | apply Z.compare_gt_iff]; lia.
  - destruct sx, sy; f_equal; symmetry;
      first [apply Z.compare_lt_iff | apply Z.compare_gt_iff]; lia.
  - destruct sx, sy; f_equal; symmetry;
      first [apply Z.compare_eq_iff | apply Z.compare_lt_iff | apply Z.compare_gt_iff]; lia.
  - destruct sx, sy; f_equal; symmetry;
      first [apply Z.compare_lt_iff | apply Z.compare_gt_iff]; lia.
  - destruct sx, sy; f_equal; symmetry;
      first [apply Z.compare_lt_iff | apply Z.compare_gt_iff]; lia.
  - destruct sx, sy; f_equal; symmetry;
      first [apply Z.compare_lt_iff | apply Z.compare_gt_iff]; lia.
  - cbn [valid_binary] in Hx, Hy.
    destruct sx, sy; f_equal.
    + rewrite Z.compare_opp, (Z.compare_antisym (mag (Z.pos mx) ex) (mag (Z.pos my) ey)).
      rewrite (mag_compare mx my ex ey Hx Hy).
      by destruct (ex ?= ey).
    + symmetry. apply Z.compare_lt_iff. lia.
    + symmetry. apply Z.compare_gt_iff. lia.
    + symmetry. apply mag_compare; done.
Qed.

Lemma absval_nonneg (f : spec_float) : 0 <= absval f.
Proof.
  destruct f; cbn [absval]; try lia.
  - apply huge_nonneg.
  - apply mag_nonneg. lia.
Qed.

Lemma sval_cases (A : spec_float) :
  valid_binary A = true -> not_nan A ->
  (sval A = huge /\ A = S754_infinity false) \/
  (sval A = - huge /\ A = S754_infinity true) \/
  (- big < sval A < big /\
   (0 < sval A -> exists m e, A = S754_finite false m e /\ sval A = mag (Zpos m) e) /\
   (sval A < 0 -> exists m e, A = S754_finite true m e /\ sval A = - mag (Zpos m) e) /\
   (sval A = 0 -> exists s, A = S754_zero s)).
Proof.
  intros Hv Hn. pose proof (absval_range A Hv) as [_ HF].
  pose proof big_pos as Hp.
  destruct A as [s|[]| |[] m e]; unfold sval; cbn [is_neg absval].
  - right; right. split; [destruct s; lia|].
    split; [destruct s; lia|]. split; [destruct s; lia|]. intros _. by exists s.
  - right; left. done.
  - left. done.
  - by destruct Hn.
  - specialize (HF _ _ _ eq_refl). cbn [absval] in HF.
    right; right. split; [lia|]. split; [lia|]. split; [|lia].
    intros _. by exists m, e.
  - specialize (HF _ _ _ eq_refl). cbn [absval] in HF.
    right; right. split; [lia|]. split; [|lia]. intros _. by exists m, e.
Qed.


Lemma sandwich_exact (v : Z) (r : spec_float) :
  not_nan r -> sval r = v -> sandwich v r.
Proof. intros Hn <-. split; [done|]. intros A _ _. done. Qed.

Lemma sandwich_pinf (v : Z) :
  huge - big <= v -> sandwich v (S754_infinity false).
Proof.
  intros Hv. split; [done|]. intros A HA NA.
  pose proof huge_big as Hh.
  pose proof big_pos as Hp.
  change (sval (S754_infinity false)) with huge.
  destruct (sval_cases A HA NA) as [[-> _]|[[-> _]|[HR _]]]; lia.
Qed.

Lemma sandwich_ninf (v : Z) :
  v <= - huge + big -> sandwich v (S754_infinity true).
Proof.
  intros Hv. split; [done|]. intros A HA NA.
  pose proof huge_big as Hh.
  pose proof big_pos as Hp.
  change (sval (S754_infinity true)) with (- huge).
  destruct (sval_cases A HA NA) as [[-> _]|[[-> _]|[HR _]]]; lia.
Qed.

Lemma normalize_sandwich (N e : Z) :
  -3000 <= e -> - huge < mag N e < huge ->
  sandwich (mag N e) (binary_normalize prec emax N e false).
Proof.
  intros He Hr. destruct N as [|m|m]; cbn [binary_normalize].
  - apply sandwich_exact; done.
  - destruct (binary_round_shape false m e He) as [Hn Hs].
    split; [done|]. intros A HA NA.
    set (r := binary_round prec emax false m e) in *.
    assert (Hr0 : sval r = absval r) by (unfold sval; by rewrite Hs).
    pose proof (absval_nonneg r) as Hr1.
    assert (0 < mag (Z.pos m) e) by (apply mag_pos; lia).
    destruct (sval_cases A HA NA) as [[E ->]|[[E ->]|(HR & Hpos & Hneg & Hz)]].
    + split; [rewrite E; lia|]. intros _. rewrite Hr0.
      apply (binary_round_upper false m e (S754_infinity false));
        [exact He|reflexivity|discriminate|].
      cbn [absval]. lia.
    + rewrite E. pose proof huge_big. pose proof big_pos. lia.
    + split.
      * intros Hle. destruct (Z_le_gt_dec (sval A) 0) as [|Hp]; [lia|].
        destruct (Hpos ltac:(lia)) as (mA & eA & -> & E). rewrite E, Hr0.
        apply binary_round_lower; try done; lia.
      * intros Hle. destruct (Hpos ltac:(lia)) as (mA & eA & EA & E). rewrite Hr0.
        replace (sval A) with (absval A) by (rewrite EA in *; done).
        apply binary_round_upper; try done.
        rewrite EA in *. cbn [absval]. lia.
  - destruct (binary_round_shape true m e He) as [Hn Hs].
    split; [done|]. intros A HA NA.
    set (r := binary_round prec emax true m e) in *.
    assert (Hr0 : sval r = - absval r) by (unfold sval; by rewrite Hs).
    pose proof (absval_nonneg r) as Hr1.
    assert (Hm : mag (Z.neg m) e = - mag (Z.pos m) e) by (unfold mag; lia).
    rewrite Hm in *.
    assert (0 < mag (Z.pos m) e) by (apply mag_pos; lia).
    destruct (sval_cases A HA NA) as [[E ->]|[[E ->]|(HR & Hpos & Hneg & Hz)]].
    + rewrite E. pose proof huge_big. pose proof big_pos. lia.
    + split; [|rewrite E; lia]. intros _. rewrite Hr0, E.
      assert (absval r <= absval (S754_infinity true)); [|cbn [absval] in *; lia].
      apply (binary_round_upper true m e (S754_infinity true));
        [exact He|reflexivity|discriminate|].
      cbn [absval]. lia.
    + split.
      * intros Hle. destruct (Hneg ltac:(lia)) as (mA & eA & EA & E). rewrite Hr0.
        assert (absval r <= absval A); [|rewrite EA in *; cbn [absval] in *; lia].
        apply binary_round_upper; try done.
        rewrite EA in *. cbn [absval]. lia.
      * intros Hle. destruct (Z_le_gt_dec 0 (sval A)) as [|Hp]; [lia|].
        destruct (Hneg ltac:(lia)) as (mA & eA & -> & E). rewrite E, Hr0.
        assert (mag (Z.pos mA) eA <= absval r); [|lia].
        apply binary_round_lower; try done; lia.
Qed.

Lemma cond_Zopp_mag (s : bool) (mx : positive) (ex ez : Z) :
  -3000 <= ez -> ez <= ex ->
  mag (cond_Zopp s (Zpos (shl_align mx ex ez).1)) ez =
  sval (S754_finite s mx ex).
Proof.
  intros Hez Hle. destruct (shl_align_spec mx ex ez) as [_ Hm].
  rewrite Hm. replace (Z.min ex ez) with ez by lia.
  unfold sval; cbn [is_neg absval].
  assert (E : mag (Z.pos mx * 2 ^ (ex - ez)) ez = mag (Z.pos mx) ex).
  { rewrite mag_shift by lia. f_equal. lia. }
  rewrite <- E. destruct s; cbn [cond_Zopp]; unfold mag; ring.
Qed.


Theorem SFadd_sandwich (x y : spec_float) :
  valid_binary x = true -> valid_binary y = true ->
  not_nan x -> not_nan y -> ~ opposite_inf x y ->
  sandwich (sval x + sval y) (SFadd prec emax x y).
Proof.
  intros Hx Hy Nx Ny Hopp.
  pose proof huge_big as Hh.
  pose proof big_pos as Hp.
  pose proof (absval_range x Hx) as [Rx Fx].
  pose proof (absval_range y Hy) as [Ry Fy].
  destruct x as [sx|sx| |sx mx ex]; [| |by destruct Nx|];
  destruct y as [sy|sy| |sy my ey]; try (by destruct Ny);
    try specialize (Fx _ _ _ eq_refl); try specialize (Fy _ _ _ eq_refl);
    cbn [SFadd].
  - apply sandwich_exact; destruct sx, sy; done.
  - apply sandwich_exact; [done|]. unfold sval; cbn [is_neg absval]. destruct sx; lia.
  - apply sandwich_exact; [done|]. unfold sval; cbn [is_neg absval]. destruct sx; lia.
  - destruct sx; [apply sandwich_ninf|apply sandwich_pinf];
      unfold sval; cbn [is_neg absval]; destruct sy; lia.
  - destruct sx, sy.
    + apply sandwich_ninf. unfold sval; cbn [is_neg absval]. lia.
    + destruct Hopp. by exists true.
    + destruct Hopp. by exists false.
    + apply sandwich_pinf. unfold sval; cbn [is_neg absval]. lia.
  - destruct sx; [apply sandwich_ninf|apply sandwich_pinf];
      unfold sval; cbn [is_neg absval] in *; destruct sy; lia.
  - apply sandwich_exact; [done|]. unfold sval; cbn [is_neg absval]. destruct sy; lia.
  - destruct sy; [apply sandwich_ninf|apply sandwich_pinf];
      unfold sval; cbn [is_neg absval] in *; destruct sx; lia.
  - cbn [valid_binary] in Hx, Hy.
    pose proof (proj1 (bounded_spec _ _) Hx) as (Hex & _).
    pose proof (proj1 (bounded_spec _ _) Hy) as (Hey & _).
    set (ez := Z.min ex ey).
    set (N := cond_Zopp sx (Z.pos (shl_align mx ex ez).1) +
              cond_Zopp sy (Z.pos (shl_align my ey ez).1)).
    assert (HN : mag N ez = sval (S754_finite sx mx ex) + sval (S754_finite sy my ey)).
    { rewrite <- !(cond_Zopp_mag _ _ _ ez) by lia. unfold N, mag. ring. }
    rewrite <- HN. apply normalize_sandwich; [lia|].
    rewrite HN. unfold sval; cbn [is_neg absval] in *. destruct sx, sy; lia.
Qed.

Lemma SFsub_SFadd (x y : spec_float) :
  SFsub prec emax x y = SFadd prec emax x (SFopp y).
Proof.
  destruct x as [sx|sx| |sx mx ex], y as [sy|sy| |sy my ey]; cbn [SFsub SFadd SFopp];
    try reflexivity; try (by destruct sx, sy).
Qed.

Lemma sval_opp (x : spec_float) : sval (SFopp x) = - sval x.
Proof.
  destruct x as [s|s| |s m e]; unfold sval; cbn [SFopp is_neg absval]; try lia;
    destruct s; cbn [negb]; lia.
Qed.

Lemma valid_opp (x : spec_float) : valid_binary (SFopp x) = valid_binary x.
Proof. by destruct x. Qed.

Lemma not_nan_opp (x : spec_float) : not_nan (SFopp x) <-> not_nan x.
Proof. by destruct x. Qed.

Theorem SFsub_sandwich (x y : spec_float) :
  valid_binary x = true -> valid_binary y = true ->
  not_nan x -> not_nan y -> ~ opposite_inf x (SFopp y) ->
  sandwich (sval x - sval y) (SFsub prec emax x y).
Proof.
  intros Hx Hy Nx Ny Hopp. rewrite SFsub_SFadd.
  replace (sval x - sval y) with (sval x + sval (SFopp y)) by (rewrite sval_opp; lia).
  apply SFadd_sandwich; try done.
  - by rewrite valid_opp.
  - by apply not_nan_opp.
Qed.

(** ** Primitive floats *)


Lemma SFcompare_refl (x : spec_float) :
  valid_binary x = true -> not_nan x -> SFcompare x x = Some Eq.
Proof. intros Hv Hn. rewrite SFcompare_sval by done. by rewrite Z.compare_refl. Qed.

Lemma num_dec (a : float) : {num a} + {~ num a}.
Proof. unfold num, not_nan. destruct (Prim2SF a); (by left) || (right; intros H; by apply H). Qed.

Lemma is_nan_num (a : float) : is_nan a = false <-> num a.
Proof.
  unfold is_nan, num. rewrite FloatAxioms.eqb_spec. unfold SFeqb.
  pose proof (Prim2SF_valid a) as Hv.
  destruct (Prim2SF a) as [s|s| |s m e] eqn:E.
  - rewrite SFcompare_refl; done.
  - rewrite SFcompare_refl; done.
  - cbn. split; [done|]. intros H. by destruct H.
  - rewrite SFcompare_refl; done.
Qed.

Lemma compare_ord (a b : float) :
  num a -> num b -> SFcompare (Prim2SF a) (Prim2SF b) = Some (ord a ?= ord b).
Proof. intros. apply SFcompare_sval; try done; apply Prim2SF_valid. Qed.

Lemma compare_nan (a b : float) :
  ~ (num a /\ num b) -> SFcompare (Prim2SF a) (Prim2SF b) = None.
Proof.
  unfold num, not_nan. intros H.
  destruct (Prim2SF a) as [| | |], (Prim2SF b) as [| | |]; try done;
    exfalso; apply H; done.
Qed.

Lemma ltb_ord (a b : float) :
  (a <? b)%float = true <-> num a /\ num b /\ ord a < ord b.
Proof.
  rewrite FloatAxioms.ltb_spec. unfold SFltb.
  destruct (num_dec a) as [Ha|Ha]; [destruct (num_dec b) as [Hb|Hb]|].
  - rewrite compare_ord by done.
    destruct (Z.compare_spec (ord a) (ord b)); split; try done;
      try (intros (_ & _ & ?); lia); intros _; repeat split; try done; lia.
  - rewrite compare_nan by tauto. split; [done|tauto].
  - rewrite compare_nan by tauto. split; [done|tauto].
Qed.

Lemma leb_ord (a b : float) :
  (a <=? b)%float = true <-> num a /\ num b /\ ord a <= ord b.
Proof.
  rewrite FloatAxioms.leb_spec. unfold SFleb.
  destruct (num_dec a) as [Ha|Ha]; [destruct (num_dec b) as [Hb|Hb]|].
  - rewrite compare_ord by done.
    destruct (Z.compare_spec (ord a) (ord b)); split; try done;
      try (intros (_ & _ & ?); lia); intros _; repeat split; try done; lia.
  - rewrite compare_nan by tauto. split; [done|tauto].
  - rewrite compare_nan by tauto. split; [done|tauto].
Qed.

Lemma eqb_ord (a b : float) :
  (a =? b)%float = true <-> num a /\ num b /\ ord a = ord b.
Proof.
  rewrite FloatAxioms.eqb_spec. unfold SFeqb.
  destruct (num_dec a) as [Ha|Ha]; [destruct (num_dec b) as [Hb|Hb]|].
  - rewrite compare_ord by done.
    destruct (Z.compare_spec (ord a) (ord b)); split; try done;
      try (intros (_ & _ & ?); lia); intros _; repeat split; try done; lia.
  - rewrite compare_nan by tauto. split; [done|tauto].
  - rewrite compare_nan by tauto. split; [done|tauto].
Qed.

Lemma ltb_false (a b : float) :
  (a <? b)%float = false -> num a -> num b -> ord b <= ord a.
Proof.
  intros H Ha Hb. destruct (Z_le_gt_dec (ord b) (ord a)); [done|].
  assert ((a <? b)%float = true) by (apply ltb_ord; repeat split; try done; lia).
  congruence.
Qed.


Lemma opposite_inf_clash (a b : float) :
  num a -> num b -> opposite_inf (Prim2SF a) (Prim2SF b) -> clash a b.
Proof.
  intros _ _ (s & Ha & Hb). unfold clash, ord. rewrite Ha, Hb.
  destruct s; [right|left]; done.
Qed.

Theorem add_sandwich (a b : float) :
  num a -> num b -> ~ clash a b -> sandwich (ord a + ord b) (Prim2SF (a + b)).
Proof.
  intros Ha Hb Hc. rewrite add_spec.
  apply SFadd_sandwich; try done; try apply Prim2SF_valid.
  intros H. by apply Hc, opposite_inf_clash.
Qed.

Theorem sub_sandwich (a b : float) :
  num a -> num b -> ~ clash a (- b) -> sandwich (ord a - ord b) (Prim2SF (a - b)).
Proof.
  intros Ha Hb Hc. rewrite sub_spec.
  apply SFsub_sandwich; try done; try apply Prim2SF_valid.
  intros H. apply Hc. rewrite <- opp_spec in H.
  apply opposite_inf_clash; try done.
  unfold num. rewrite opp_spec. by apply not_nan_opp.
Qed.

(** The grid: every value is a multiple of the least positive one. *)


Lemma SFtiny_facts : valid_binary SFtiny = true /\ not_nan SFtiny /\ sval SFtiny = tiny.
Proof.
  split; [reflexivity|]. split; [done|].
  unfold sval; cbn [SFtiny is_neg absval]. rewrite mag_tiny. lia.
Qed.

Lemma sval_multiple (A : spec_float) :
  valid_binary A = true -> exists k, sval A = k * tiny.
Proof.
  intros Hv.
  pose proof huge_tiny as Hh.
  destruct A as [s|s| |s m e]; unfold sval; cbn [is_neg absval].
  - exists 0. destruct s; lia.
  - destruct s; [exists (- 2 ^ 3074)|exists (2 ^ 3074)]; lia.
  - exists 0. lia.
  - cbn [valid_binary] in Hv. apply bounded_spec in Hv as (He & _).
    assert (Hm : mag (Z.pos m) e = Z.pos m * 2 ^ (e + 1074) * tiny).
    { rewrite <- mag_tiny, mag_shift by lia. f_equal. lia. }
    destruct s; [exists (- (Z.pos m * 2 ^ (e + 1074)))|exists (Z.pos m * 2 ^ (e + 1074))]; lia.
Qed.

Lemma ord_gap (a b : float) : ord a < ord b -> ord a + tiny <= ord b.
Proof.
  intros Hlt. pose proof tiny_pos.
  destruct (sval_multiple (Prim2SF a) (Prim2SF_valid a)) as [ka Ha].
  destruct (sval_multiple (Prim2SF b) (Prim2SF_valid b)) as [kb Hb].
  unfold ord in *. rewrite Ha, Hb in *.
  assert (ka < kb) by (apply (Z.mul_lt_mono_pos_r tiny); done).
  assert ((ka + 1) * tiny <= kb * tiny) by (apply Z.mul_le_mono_nonneg_r; lia).
  lia.
Qed.

Lemma ord_opp (a : float) : ord (- a) = - ord a.
Proof. unfold ord. by rewrite opp_spec, sval_opp. Qed.

Lemma num_opp (a : float) : num (- a) <-> num a.
Proof. unfold num. rewrite opp_spec. apply not_nan_opp. Qed.

Lemma ord_zero : ord 0 = 0 /\ num 0%float.
Proof. split; [reflexivity|]. unfold num. by vm_compute. Qed.

Lemma ord_range (a : float) : - huge <= ord a <= huge.
Proof.
  unfold ord, sval. pose proof (absval_range _ (Prim2SF_valid a)) as [H _].
  destruct (is_neg _); lia.
Qed.

Lemma nan_sub (a b : float) : ~ (num a /\ num b) -> ~ num (a - b).
Proof.
  unfold num, not_nan. rewrite sub_spec. intros H.
  destruct (Prim2SF a) as [| | |], (Prim2SF b) as [| | |];
    try (exfalso; apply H; split; discriminate); cbn; intros Hn; by apply Hn.
Qed.

Lemma nan_add (a b : float) : ~ (num a /\ num b) -> ~ num (a + b).
Proof.
  unfold num, not_nan. rewrite add_spec. intros H.
  destruct (Prim2SF a) as [| | |], (Prim2SF b) as [| | |];
    try (exfalso; apply H; split; discriminate); cbn; intros Hn; by apply Hn.
Qed.

Lemma clash_nan_add (a b : float) : num a -> num b -> clash a b -> ~ num (a + b).
Proof.
  intros Ha Hb Hc. unfold num. rewrite add_spec. pose proof huge_big.
  pose proof big_pos.
  destruct (sval_cases _ (Prim2SF_valid a) Ha) as [[Ea ->]|[[Ea ->]|[Ra _]]];
  destruct (sval_cases _ (Prim2SF_valid b) Hb) as [[Eb ->]|[[Eb ->]|[Rb _]]];
    unfold clash, ord in Hc; cbn; try tauto; try lia;
    intros Hn; by apply Hn.
Qed.

Lemma clash_nan_sub (a b : float) : num a -> num b -> clash a (- b) -> ~ num (a - b).
Proof.
  intros Ha Hb Hc. unfold num. rewrite sub_spec, SFsub_SFadd, <- opp_spec, <- add_spec.
  apply clash_nan_add; try done. by apply num_opp.
Qed.

Lemma clash_dec (a b : float) : {clash a b} + {~ clash a b}.
Proof.
  unfold clash.
  destruct (Z.eq_dec (ord a) huge) as [E1|E1].
  - destruct (Z.eq_dec (ord b) (- huge)) as [E2|E2].
    + left. left. by split.
    + right. intros [[_ H]|[H _]]; [by apply E2|].
      pose proof huge_big. pose proof big_pos. lia.
  - destruct (Z.eq_dec (ord a) (- huge)) as [E3|E3].
    + destruct (Z.eq_dec (ord b) huge) as [E4|E4].
      * left. right. by split.
      * right. intros [[H _]|[_ H]]; [by apply E1|by apply E4].
    + right. intros [[H _]|[H _]]; [by apply E1|by apply E3].
Qed.

(** The sign of a difference is exact. *)
Theorem sub_ltb_zero (a r : float) : (a - r <? 0)%float = (a <? r)%float.
Proof.
  destruct ord_zero as [Z0 N0]. pose proof tiny_pos as Ht.
  apply eq_true_iff_eq. rewrite !ltb_ord.
  destruct (num_dec a) as [Ha|Ha]; [destruct (num_dec r) as [Hr|Hr]|].
  2,3: split; [intros (Hn & _); exfalso; revert Hn; apply nan_sub; tauto|tauto].
  destruct (clash_dec a (- r)) as [Hc|Hc].
  { split.
    - intros (Hn & _). exfalso. revert Hn. by apply clash_nan_sub.
    - intros (_ & _ & Hlt). exfalso. unfold clash in Hc. rewrite ord_opp in Hc. lia. }
  destruct (sub_sandwich a r Ha Hr Hc) as [Hn Hs]. fold (num (a - r)) in Hn.
  rewrite Z0. split.
  - intros (_ & _ & Hlt). repeat split; try done.
    destruct (Z_lt_le_dec (ord a) (ord r)) as [|Hge]; [done|exfalso].
    destruct (Hs (Prim2SF 0%float) (Prim2SF_valid _) N0) as [Hlow _].
    fold (ord 0) (ord (a - r)) in Hlow. lia.
  - intros (_ & _ & Hlt). repeat split; try done.
    apply ord_gap in Hlt.
    destruct SFtiny_facts as (Tv & Tn & Te).
    destruct (Hs (SFopp SFtiny)) as [_ Hup].
    + by rewrite valid_opp.
    + by apply not_nan_opp.
    + rewrite sval_opp, Te in Hup. fold (ord (a - r)) in Hup. lia.
Qed.

Lemma sub_ltb_zero_r (a r : float) : (0 <? a - r)%float = (r <? a)%float.
Proof.
  destruct ord_zero as [Z0 N0]. pose proof tiny_pos as Ht.
  apply eq_true_iff_eq. rewrite !ltb_ord.
  destruct (num_dec a) as [Ha|Ha]; [destruct (num_dec r) as [Hr|Hr]|].
  2,3: split; [intros (_ & Hn & _); exfalso; revert Hn; apply nan_sub; tauto|tauto].
  destruct (clash_dec a (- r)) as [Hc|Hc].
  { split.
    - intros (_ & Hn & _). exfalso. revert Hn. by apply clash_nan_sub.
    - intros (_ & _ & Hlt). exfalso. unfold clash in Hc. rewrite ord_opp in Hc. lia. }
  destruct (sub_sandwich a r Ha Hr Hc) as [Hn Hs]. fold (num (a - r)) in Hn.
  rewrite Z0. split.
  - intros (_ & _ & Hlt). repeat split; try done.
    destruct (Z_lt_le_dec (ord r) (ord a)) as [|Hge]; [done|exfalso].
    destruct (Hs (Prim2SF 0%float) (Prim2SF_valid _) N0) as [_ Hup].
    fold (ord 0) (ord (a - r)) in Hup. lia.
  - intros (_ & _ & Hlt). repeat split; try done.
    apply ord_gap in Hlt.
    destruct SFtiny_facts as (Tv & Tn & Te).
    destruct (Hs SFtiny Tv Tn) as [Hlow _].
    rewrite Te in Hlow. fold (ord (a - r)) in Hlow. lia.
Qed.

(** Sums with a one-sided term, and bounds by a binary64 number. *)
Lemma add_le (a b c : float) :
  num a -> num b -> ~ clash a b -> num c -> ord a + ord b <= ord c ->
  num (a + b) /\ ord (a + b) <= ord c.
Proof.
  intros Ha Hb Hc Nc Hle. destruct (add_sandwich a b Ha Hb Hc) as [Hn Hs].
  split; [done|]. by apply (Hs (Prim2SF c) (Prim2SF_valid c) Nc).
Qed.

Lemma add_ge (a b c : float) :
  num a -> num b -> ~ clash a b -> num c -> ord c <= ord a + ord b ->
  num (a + b) /\ ord c <= ord (a + b).
Proof.
  intros Ha Hb Hc Nc Hle. destruct (add_sandwich a b Ha Hb Hc) as [Hn Hs].
  split; [done|]. by apply (Hs (Prim2SF c) (Prim2SF_valid c) Nc).
Qed.

Lemma sub_le (a b c : float) :
  num a -> num b -> ~ clash a (- b) -> num c -> ord a - ord b <= ord c ->
  num (a - b) /\ ord (a - b) <= ord c.
Proof.
  intros Ha Hb Hc Nc Hle. destruct (sub_sandwich a b Ha Hb Hc) as [Hn Hs].
  split; [done|]. by apply (Hs (Prim2SF c) (Prim2SF_valid c) Nc).
Qed.

Lemma sub_ge (a b c : float) :
  num a -> num b -> ~ clash a (- b) -> num c -> ord c <= ord a - ord b ->
  num (a - b) /\ ord c <= ord (a - b).
Proof.
  intros Ha Hb Hc Nc Hle. destruct (sub_sandwich a b Ha Hb Hc) as [Hn Hs].
  split; [done|]. by apply (Hs (Prim2SF c) (Prim2SF_valid c) Nc).
Qed.

(** Products. *)

Lemma bounded_exp (m : positive) (e : Z) :
  bounded prec emax m e = true -> -1074 <= e <= 971.
Proof. intros H. by apply bounded_spec in H as (? & _). Qed.

Lemma SFmul_shape (x y : spec_float) :
  valid_binary x = true -> valid_binary y = true -> not_nan x -> not_nan y ->
  is_zero_sf x && is_inf_sf y = false -> is_inf_sf x && is_zero_sf y = false ->
  not_nan (SFmul prec emax x y) /\
  is_neg (SFmul prec emax x y) = xorb (is_neg x) (is_neg y).
Proof.
  intros Hx Hy Nx Ny H1 H2.
  destruct x as [sx|sx| |sx mx ex]; [| |by destruct Nx|];
  destruct y as [sy|sy| |sy my ey]; try (by destruct Ny); try discriminate;
    cbn [SFmul is_neg]; try done.
  cbn [valid_binary] in Hx, Hy.
  apply bounded_exp in Hx, Hy. apply bra_shape; lia.
Qed.

Lemma SFmul_lower (sx sy : bool) (mx my : positive) (ex ey : Z) (mA : positive) (eA : Z) :
  bounded prec emax mx ex = true -> bounded prec emax my ey = true ->
  bounded prec emax mA eA = true ->
  mag (Zpos mA) eA * 2 ^ 3000 <= mag (Zpos mx) ex * mag (Zpos my) ey ->
  mag (Zpos mA) eA <=
    absval (SFmul prec emax (S754_finite sx mx ex) (S754_finite sy my ey)).
Proof.
  intros Hx Hy HA Hle. cbn [SFmul].
  pose proof (bounded_exp _ _ Hx). pose proof (bounded_exp _ _ Hy).
  apply bra_lower; try done; try lia.
  assert (E : mag (Z.pos mx) ex * mag (Z.pos my) ey =
              mag (Z.pos (mx * my)) (ex + ey) * 2 ^ 3000).
  { unfold mag. rewrite Pos2Z.inj_mul.
    replace (ex + ey + 3000) with ((ex + 3000) + ey) by lia.
    transitivity (Z.pos mx * Z.pos my * (2 ^ (ex + 3000) * 2 ^ (ey + 3000))); [ring|].
    rewrite <- Z.pow_add_r by lia.
    transitivity (Z.pos mx * Z.pos my * (2 ^ (ex + 3000 + ey) * 2 ^ 3000)); [|ring].
    rewrite <- Z.pow_add_r by lia. do 2 f_equal. lia. }
  rewrite E in Hle. apply Z.mul_le_mono_pos_r in Hle; [done|]. by apply pow2_pos.
Qed.

(** Quotients. *)
Lemma SFdiv_core_spec (m1 m2 : positive) (e1 e2 : Z) :
  let e' := Z.min (fexp64 (Zdigits2 (Zpos m1) + e1 - (Zdigits2 (Zpos m2) + e2))) (e1 - e2) in
  let s := e1 - e2 - e' in
  exists l, SFdiv_core_binary prec emax (Zpos m1) e1 (Zpos m2) e2 =
            (Zpos m1 * 2 ^ s / Zpos m2, e', l) /\ 0 <= s.
Proof.
  intros e' s. unfold SFdiv_core_binary.
  fold e'. fold s.
  assert (Hs : 0 <= s) by (unfold s, e'; lia).
  assert (E : match s with
              | 0 => Z.pos m1
              | Z.pos _ => Z.shiftl (Z.pos m1) s
              | Z.neg _ => 0
              end = Z.pos m1 * 2 ^ s).
  { destruct s as [|p|p] eqn:Es; [simpl; lia| |lia].
    rewrite Z.shiftl_mul_pow2 by lia. done. }
  rewrite E.
  pose proof (Z_div_mod (Z.pos m1 * 2 ^ s) (Z.pos m2) ltac:(lia)) as Hdm.
  unfold Z.div. destruct (Z.div_eucl (Z.pos m1 * 2 ^ s) (Z.pos m2)) as [q r].
  eexists. split; [reflexivity|done].
Qed.

Lemma SFdiv_shape (x y : spec_float) :
  valid_binary x = true -> valid_binary y = true -> not_nan x -> not_nan y ->
  is_zero_sf x && is_zero_sf y = false -> is_inf_sf x && is_inf_sf y = false ->
  not_nan (SFdiv prec emax x y) /\
  is_neg (SFdiv prec emax x y) = xorb (is_neg x) (is_neg y).
Proof.
  intros Hx Hy Nx Ny H1 H2.
  destruct x as [sx|sx| |sx mx ex]; [| |by destruct Nx|];
  destruct y as [sy|sy| |sy my ey]; try (by destruct Ny); try discriminate;
    cbn [SFdiv is_neg]; try done.
  cbn [valid_binary] in Hx, Hy.
  destruct (SFdiv_core_spec mx my ex ey) as (l & -> & Hs).
  apply bounded_exp in Hx, Hy.
  apply bra_shape.
  - apply Z.div_pos; [|lia]. apply Z.mul_nonneg_nonneg; [lia|]. apply Z.pow_nonneg. lia.
  - rewrite fexp64_eq. lia.
Qed.

Lemma SFdiv_lower (sx sy : bool) (mx my : positive) (ex ey : Z) (mA : positive) (eA : Z) :
  bounded prec emax mx ex = true -> bounded prec emax my ey = true ->
  bounded prec emax mA eA = true ->
  let e' := Z.min (fexp64 (Zdigits2 (Zpos mx) + ex - (Zdigits2 (Zpos my) + ey))) (ex - ey) in
  mag (Zpos mA) eA <= mag (Zpos mx * 2 ^ (ex - ey - e') / Zpos my) e' ->
  mag (Zpos mA) eA <=
    absval (SFdiv prec emax (S754_finite sx mx ex) (S754_finite sy my ey)).
Proof.
  intros Hx Hy HA e' Hle. cbn [SFdiv].
  destruct (SFdiv_core_spec mx my ex ey) as (l & -> & Hs). fold e' in Hs |- *.
  pose proof (bounded_exp _ _ Hx). pose proof (bounded_exp _ _ Hy).
  apply bra_lower; try done.
  - apply Z.div_pos; [|lia]. apply Z.mul_nonneg_nonneg; [lia|]. apply Z.pow_nonneg. lia.
  - unfold e'. rewrite fexp64_eq. lia.
Qed.


Lemma fneg_ord (a : float) :
  (fneg a = false -> 0 <= ord a) /\ (fneg a = true -> ord a <= 0).
Proof.
  unfold fneg, ord, sval. pose proof (absval_nonneg (Prim2SF a)).
  destruct (is_neg _); split; try done; lia.
Qed.

Lemma ord_fneg (a : float) :
  (0 < ord a -> fneg a = false) /\ (ord a < 0 -> fneg a = true).
Proof.
  destruct (fneg_ord a) as [H1 H2].
  destruct (fneg a); split; try done; intros; [specialize (H2 eq_refl)|specialize (H1 eq_refl)]; lia.
Qed.

Lemma fzero_ord (a : float) : num a -> (fzero a = true <-> ord a = 0).
Proof.
  intros Ha. unfold fzero, ord. pose proof huge_big.
  pose proof big_pos.
  destruct (sval_cases _ (Prim2SF_valid a) Ha) as [[E ->]|[[E ->]|(R & Hp & Hn & Hz)]].
  - cbn. split; [done|]. unfold sval; cbn. lia.
  - cbn. split; [done|]. unfold sval; cbn. lia.
  - split.
    + destruct (Prim2SF a) as [s| | |s m e] eqn:E; try done.
      intros _. unfold sval; cbn. destruct s; lia.
    + intros E. destruct (Hz E) as [s ->]. done.
Qed.

Lemma finf_ord (a : float) : num a -> (finf a = true <-> (ord a = huge \/ ord a = - huge)).
Proof.
  intros Ha. unfold finf, ord. pose proof huge_big.
  pose proof big_pos.
  destruct (sval_cases _ (Prim2SF_valid a) Ha) as [[E ->]|[[E ->]|(R & Hp & Hn & Hz)]].
  - cbn. split; [|done]. intros _. left. done.
  - cbn. split; [|done]. intros _. right. done.
  - split; [|lia]. destruct (Prim2SF a) as [s|s| |s m e] eqn:E; try done.
    unfold sval in R; cbn in R. destruct s; lia.
Qed.

Theorem mul_sign (a b : float) :
  num a -> num b ->
  fzero a && finf b = false -> finf a && fzero b = false ->
  num (a * b) /\ fneg (a * b) = xorb (fneg a) (fneg b).
Proof.
  intros Ha Hb H1 H2. unfold num, fneg. rewrite mul_spec.
  apply SFmul_shape; try done; apply Prim2SF_valid.
Qed.

Theorem div_sign (a b : float) :
  num a -> num b ->
  fzero a && fzero b = false -> finf a && finf b = false ->
  num (a / b) /\ fneg (a / b) = xorb (fneg a) (fneg b).
Proof.
  intros Ha Hb H1 H2. unfold num, fneg. rewrite div_spec.
  apply SFdiv_shape; try done; apply Prim2SF_valid.
Qed.

(** A product of two non-zero numbers whose exact value reaches the least
    positive binary64 number is not zero. *)
Theorem mul_nonzero (a b : float) :
  num a -> num b -> ord a <> 0 -> ord b <> 0 ->
  tiny * 2 ^ 3000 <= Z.abs (ord a) * Z.abs (ord b) ->
  tiny <= Z.abs (ord (a * b)).
Proof.
  intros Ha Hb Za Zb Hle. pose proof tiny_pos as Ht. pose proof huge_big as Hh.
  pose proof big_pos as Hp. pose proof tiny_big as Htiny.
  assert (Habs : forall x, Z.abs (sval x) = absval x).
  { intros x. unfold sval. pose proof (absval_nonneg x). destruct (is_neg x); lia. }
  unfold ord in *. rewrite mul_spec. unfold SF64mul. rewrite !Habs in *.
  pose proof (Prim2SF_valid a) as Va. pose proof (Prim2SF_valid b) as Vb.
  unfold num in Ha, Hb.
  destruct (Prim2SF a) as [sa|sa| |sa ma ea].
  - exfalso. apply Za. unfold sval. cbn [is_neg absval]. destruct sa; reflexivity.
  - destruct (Prim2SF b) as [sb|sb| |sb mb eb].
    + exfalso. apply Zb. unfold sval. cbn [is_neg absval]. destruct sb; reflexivity.
    + cbn [SFmul absval]. clear Hle. lia.
    + exfalso. by apply Hb.
    + cbn [SFmul absval]. clear Hle. lia.
  - exfalso. by apply Ha.
  - destruct (Prim2SF b) as [sb|sb| |sb mb eb].
    + exfalso. apply Zb. unfold sval. cbn [is_neg absval]. destruct sb; reflexivity.
    + cbn [SFmul absval]. clear Hle. lia.
    + exfalso. by apply Hb.
    + rewrite <- (Z.mul_1_l tiny), <- mag_tiny.
      apply (SFmul_lower sa sb ma mb ea eb 1 (-1074)); [exact Va|exact Vb|reflexivity|].
      rewrite mag_tiny, Z.mul_1_l. exact Hle.
Qed.

Lemma mag_exp_mono (m e e' : Z) : 0 <= m -> -3000 <= e -> e <= e' -> mag m e <= mag m e'.
Proof.
  intros Hm He Hle. unfold mag. apply Z.mul_le_mono_nonneg_l; [done|].
  apply Z.pow_le_mono_r; lia.
Qed.


Lemma SFdiv_ge (sx sy : bool) (mx my : positive) (ex ey : Z) (k : positive) :
  bounded prec emax mx ex = true -> bounded prec emax my ey = true ->
  bounded prec emax k (-1074) = true ->
  let e' := Z.min (fexp64 (Zdigits2 (Zpos mx) + ex - (Zdigits2 (Zpos my) + ey))) (ex - ey) in
  -1074 <= e' ->
  Zpos my * Zpos k <= Zpos mx * 2 ^ (ex - ey - e') ->
  Zpos k * tiny <= absval (SFdiv prec emax (S754_finite sx mx ex) (S754_finite sy my ey)).
Proof.
  intros Hx Hy Hk e' He' Hq. rewrite <- mag_tiny.
  apply SFdiv_lower; try done. fold e'.
  eapply Z.le_trans; [apply (mag_exp_mono _ _ e'); lia|].
  apply mag_mono; [|lia].
  apply Z.div_le_lower_bound; [lia|done].
Qed.

(** [1 / b] is positive for a positive finite [b]. *)
Lemma Prim2SF_one : Prim2SF 1 = S754_finite false 4503599627370496 (-52).
Proof. reflexivity. Qed.

Theorem inv_pos (b : float) :
  num b -> 0 < ord b < huge -> num (1 / b) /\ 0 < ord (1 / b).
Proof.
  intros Hb [Hpos Hfin]. pose proof tiny_pos as Ht.
  assert (Hsh : num (1 / b) /\ fneg (1 / b) = xorb (fneg 1) (fneg b)).
  { apply div_sign; try done; reflexivity. }
  destruct Hsh as [Hn Hs]. split; [done|].
  rewrite (proj1 (ord_fneg b) Hpos) in Hs. change (fneg 1) with false in Hs.
  pose proof (proj1 (fneg_ord _) Hs) as H0.
  assert (tiny <= Z.abs (ord (1 / b))); [|lia].
  unfold ord in *. rewrite div_spec, Prim2SF_one.
  pose proof (Prim2SF_valid b) as Vb.
  destruct (sval_cases _ Vb Hb) as [[E _]|[[E _]|(R & Hp & _)]]; try lia.
  destruct (Hp Hpos) as (m & e & Eb & _). rewrite Eb in *.
  cbn [valid_binary] in Vb.
  assert (Habs : forall x, Z.abs (sval x) = absval x).
  { intros x. unfold sval. pose proof (absval_nonneg x). destruct (is_neg x); lia. }
  rewrite Habs. replace tiny with (1 * tiny) by lia.
  pose proof (bounded_exp _ _ Vb) as He.
  pose proof (bounded_range _ _ Vb) as [Hm _].
  destruct (Zdigits2_bounds (Z.pos m)) as (Hd & _); [lia|].
  apply (SFdiv_ge false false 4503599627370496 m (-52) e 1); try done.
  - change (Zdigits2 4503599627370496) with 53. rewrite fexp64_eq. lia.
  - change (Zdigits2 4503599627370496) with 53. rewrite fexp64_eq.
    set (sh := -52 - e - Z.min (Z.max (53 + -52 - (Zdigits2 (Z.pos m) + e) - 53) (-1074)) (-52 - e)).
    assert (1 <= sh) by (unfold sh; lia).
    assert (2 ^ 1 <= 2 ^ sh) by (apply Z.pow_le_mono_r; lia).
    change (2 ^ 1) with 2 in H1. change 4503599627370496 with (2 ^ 52).
    change (2 ^ 53) with (2 ^ 52 * 2) in Hm.
    assert (0 < 2 ^ 52) by done. nia.
Qed.

Local Close Scope Z_scope.
(** ** Arithmetic facts the pipeline relies on *)

Local Open Scope Z_scope.

Lemma fzero_spec (a : float) : fzero a = true <-> exists s, Prim2SF a = S754_zero s.
Proof.
  unfold fzero. destruct (Prim2SF a) as [s| | |]; cbn; split; try done.
  - intros _. by exists s.
  - by intros [? ?].
  - by intros [? ?].
  - by intros [? ?].
Qed.

Lemma mul_zero (a b : float) :
  num a -> num b -> fzero a = true \/ fzero b = true ->
  finf a = false -> finf b = false -> fzero (a * b) = true.
Proof.
  unfold num, not_nan, fzero, finf. rewrite mul_spec.
  destruct (Prim2SF a) as [| | |], (Prim2SF b) as [| | |]; cbn; try done;
    intros ? ? [?|?]; done.
Qed.

Lemma div_zero (a b : float) :
  num a -> num b -> fzero a = true -> fzero b = false -> fzero (a / b) = true.
Proof.
  unfold num, not_nan, fzero. rewrite div_spec.
  destruct (Prim2SF a) as [| | |], (Prim2SF b) as [| | |]; cbn; done.
Qed.

Lemma Zmul_pos_cases (u v : Z) : 0 < u * v -> (0 < u /\ 0 < v) \/ (u < 0 /\ v < 0).
Proof.
  intros H.
  pose proof (Z.mul_nonneg_nonpos u v). pose proof (Z.mul_nonpos_nonneg u v).
  destruct (Z.eq_dec u 0) as [->|]; [lia|]. destruct (Z.eq_dec v 0) as [->|]; lia.
Qed.

Lemma Zmul_neg_cases (u v : Z) : u * v < 0 -> (0 < u /\ v < 0) \/ (u < 0 /\ 0 < v).
Proof.
  intros H.
  pose proof (Z.mul_nonneg_nonneg u v). pose proof (Z.mul_nonpos_nonpos u v).
  destruct (Z.eq_dec u 0) as [->|]; [lia|]. destruct (Z.eq_dec v 0) as [->|]; lia.
Qed.

Lemma ord_strict_sign (a b : float) :
  0 < ord a * ord b -> fneg a = fneg b.
Proof.
  intros H.
  destruct (ord_fneg a) as [Pa Na], (ord_fneg b) as [Pb Nb].
  destruct (Zmul_pos_cases _ _ H) as [[Ha Hb]|[Ha Hb]].
  - by rewrite (Pa Ha), (Pb Hb).
  - by rewrite (Na Ha), (Nb Hb).
Qed.

Lemma ord_opposite_sign (a b : float) :
  ord a * ord b < 0 -> fneg a = negb (fneg b).
Proof.
  intros H.
  destruct (ord_fneg a) as [Pa Na], (ord_fneg b) as [Pb Nb].
  destruct (Zmul_neg_cases _ _ H) as [[Ha Hb]|[Ha Hb]].
  - by rewrite (Pa Ha), (Nb Hb).
  - by rewrite (Na Ha), (Pb Hb).
Qed.

(** The sign of a product and of a quotient, in terms of the values. *)
Theorem mul_ord_sign (a b : float) :
  num a -> num b -> finf a = false \/ ord b <> 0 -> finf b = false \/ ord a <> 0 ->
  num (a * b) /\
  (0 <= ord a * ord b -> 0 <= ord (a * b)) /\
  (ord a * ord b <= 0 -> ord (a * b) <= 0).
Proof.
  intros Ha Hb H1 H2.
  assert (Hza : fzero a && finf b = false).
  { destruct (fzero a) eqn:E; [|done]. apply fzero_ord in E; [|done].
    destruct H2 as [->|]; done. }
  assert (Hzb : finf a && fzero b = false).
  { destruct (fzero b) eqn:E; [|by rewrite andb_false_r]. apply fzero_ord in E; [|done].
    destruct H1 as [->|]; done. }
  destruct (mul_sign a b Ha Hb Hza Hzb) as [Hn Hs]. split; [done|].
  destruct (Z.eq_dec (ord a * ord b) 0) as [E|E].
  - assert (Hz : fzero (a * b) = true).
    { apply Z.mul_eq_0 in E. apply mul_zero; try done.
      - destruct E as [E|E]; [left|right]; by apply fzero_ord.
      - destruct E as [E|E]; [|destruct H1; [done|lia]].
        destruct (finf a) eqn:F; [|done]. apply finf_ord in F; [|done].
        pose proof huge_big. pose proof big_pos. lia.
      - destruct E as [E|E]; [destruct H2; [done|lia]|].
        destruct (finf b) eqn:F; [|done]. apply finf_ord in F; [|done].
        pose proof huge_big. pose proof big_pos. lia. }
    apply fzero_ord in Hz; [|done]. lia.
  - destruct (fneg_ord (a * b)) as [P N]. split; intros H.
    + apply P. rewrite Hs, (ord_strict_sign a b) by lia. apply xorb_nilpotent.
    + apply N. rewrite Hs, (ord_opposite_sign a b) by lia. by destruct (fneg b).
Qed.

Theorem div_ord_sign (a b : float) :
  num a -> num b -> ord b <> 0 -> finf b = false ->
  num (a / b) /\
  (0 <= ord a * ord b -> 0 <= ord (a / b)) /\
  (ord a * ord b <= 0 -> ord (a / b) <= 0).
Proof.
  intros Ha Hb Hb0 Hbf.
  assert (Hzb : fzero b = false).
  { destruct (fzero b) eqn:E; [|done]. apply fzero_ord in E; done. }
  destruct (div_sign a b Ha Hb) as [Hn Hs].
  { by rewrite Hzb, andb_false_r. }
  { by rewrite Hbf, andb_false_r. }
  split; [done|].
  destruct (Z.eq_dec (ord a) 0) as [E|E].
  - assert (Hz : fzero (a / b) = true).
    { apply div_zero; try done. by apply fzero_ord. }
    apply fzero_ord in Hz; [|done]. lia.
  - destruct (fneg_ord (a / b)) as [P N]. split; intros H.
    + assert (Hab : ord a * ord b <> 0) by (apply Z.neq_mul_0; done).
      apply P. rewrite Hs, (ord_strict_sign a b) by lia. apply xorb_nilpotent.
    + assert (Hab : ord a * ord b <> 0) by (apply Z.neq_mul_0; done).
      apply N. rewrite Hs, (ord_opposite_sign a b) by lia. by destruct (fneg b).
Qed.


Lemma pos_finite_facts (c : float) :
  pos_finite c = true ->
  num c /\ 0 < ord c < big /\ finf c = false /\ fneg c = false.
Proof.
  unfold pos_finite, num, ord, finf, fneg, sval.
  pose proof (absval_range _ (Prim2SF_valid c)) as [_ HF].
  destruct (Prim2SF c) as [| | |[] m e]; try done. intros _.
  specialize (HF _ _ _ eq_refl). cbn [is_neg is_inf_sf absval] in *. done.
Qed.

Lemma finite_facts (c : float) :
  num c -> finf c = false -> - big < ord c < big.
Proof.
  intros Hn Hf. pose proof huge_big. pose proof big_pos.
  destruct (sval_cases _ (Prim2SF_valid c) Hn) as [[E F]|[[E F]|[R _]]].
  - unfold finf in Hf. by rewrite F in Hf.
  - unfold finf in Hf. by rewrite F in Hf.
  - done.
Qed.

Lemma no_clash_finite_r (a b : float) : num b -> finf b = false -> ~ clash a b.
Proof.
  intros Hb Hf [[_ E]|[_ E]]; pose proof (finite_facts b Hb Hf);
    pose proof huge_big; pose proof big_pos; lia.
Qed.

Lemma no_clash_finite_l (a b : float) : num a -> finf a = false -> ~ clash a b.
Proof.
  intros Ha Hf [[E _]|[E _]]; pose proof (finite_facts a Ha Hf);
    pose proof huge_big; pose proof big_pos; lia.
Qed.

Lemma finf_opp (a : float) : finf (- a) = finf a.
Proof. unfold finf. rewrite opp_spec. by destruct (Prim2SF a). Qed.

(** [Math.max] and [Math.min] against 0. *)
Lemma Math_max_zero_nonpos (v : float) :
  num v -> ord v <= 0 -> Math.max 0 v = 0%float.
Proof.
  intros Hn Hle. unfold Math.max.
  assert (Hnan : is_nan v = false) by (by apply is_nan_num).
  change (is_nan 0) with false. rewrite Hnan. cbn [orb].
  assert (Hlt : (0 <? v)%float = false).
  { destruct (0 <? v)%float eqn:E; [|done].
    apply ltb_ord in E as (_ & _ & E). rewrite (proj1 ord_zero) in E. lia. }
  rewrite Hlt. destruct (v <? 0)%float; [done|]. reflexivity.
Qed.

Lemma Math_min_zero (v : float) :
  num v ->
  num (Math.min 0 v) /\ ord (Math.min 0 v) <= 0 /\
  (ord v < 0 -> Math.min 0 v = v) /\
  (0 <= ord v -> ord (Math.min 0 v) = 0).
Proof.
  intros Hn. unfold Math.min. destruct ord_zero as [Z0 N0].
  assert (Hnan : is_nan v = false) by (by apply is_nan_num).
  change (is_nan 0) with false. rewrite Hnan. cbn [orb].
  destruct (0 <? v)%float eqn:E1.
  - apply ltb_ord in E1 as (_ & _ & E1). rewrite Z0 in *.
    repeat split; try done; lia.
  - apply ltb_false in E1; [|done..]. rewrite Z0 in E1.
    destruct (v <? 0)%float eqn:E2.
    + apply ltb_ord in E2 as (_ & _ & E2). rewrite Z0 in E2.
      repeat split; try done; lia.
    + apply ltb_false in E2; [|done..]. rewrite Z0 in E2.
      change (get_sign 0) with false. cbv iota.
      repeat split; try done; lia.
Qed.

(** Division by [TIMESTEP] of a negative number: at least eight grid
    steps below zero. *)
Lemma TIMESTEP_spec : Prim2SF TIMESTEP = S754_finite false 4803839602528529 (-58).
Proof. reflexivity. Qed.

Lemma BAUMGARTE_spec : Prim2SF BAUMGARTE = S754_finite false 7205759403792794 (-55).
Proof. reflexivity. Qed.

Lemma div_timestep_neg (s : float) :
  num s -> ord s < 0 ->
  num (s / TIMESTEP) /\ ord (s / TIMESTEP) <= - (8 * tiny).
Proof.
  intros Hs Hneg. pose proof tiny_pos as Ht. pose proof tiny_big as Htb.
  pose proof huge_big as Hh.
  destruct (pos_finite_facts TIMESTEP eq_refl) as (NT & RT & FT & ST).
  destruct (div_ord_sign s TIMESTEP Hs NT) as (Hn & _ & Hle); [lia|done|].
  split; [done|].
  assert (Hq : ord (s / TIMESTEP) <= 0) by (apply Hle; nia).
  assert (8 * tiny <= Z.abs (ord (s / TIMESTEP))); [|lia].
  assert (Habs : forall x, Z.abs (sval x) = absval x).
  { intros x. unfold sval. pose proof (absval_nonneg x). destruct (is_neg x); lia. }
  unfold ord in *. rewrite Habs, div_spec, TIMESTEP_spec.
  pose proof (Prim2SF_valid s) as Vs.
  destruct (sval_cases _ Vs Hs) as [[E _]|[[_ ->]|(_ & _ & Hn' & _)]].
  - pose proof big_pos. lia.
  - cbn. lia.
  - destruct (Hn' Hneg) as (m & e & Es & _). rewrite Es in *.
    cbn [valid_binary] in Vs.
    pose proof (bounded_exp _ _ Vs) as He.
    pose proof (digits2_pos_bounds m) as [Hl _].
    apply (SFdiv_ge true false m 4803839602528529 e (-58) 8); [done|reflexivity|reflexivity|..].
    + rewrite fexp64_eq. lia.
    + change (Zdigits2 4803839602528529) with 53. rewrite fexp64_eq.
      change (Zdigits2 (Z.pos m)) with (Z.pos (digits2_pos m)).
      set (d := Z.pos (digits2_pos m)) in *.
      set (sh := e - -58 - Z.min (Z.max (d + e - (53 + -58) - 53) (-1074)) (e - -58)).
      assert (Hsh : 0 <= sh /\ 56 <= d - 1 + sh) by (unfold sh; lia).
      assert (2 ^ 56 <= 2 ^ (d - 1 + sh)) by (apply Z.pow_le_mono_r; lia).
      rewrite Z.pow_add_r in H by lia.
      assert (0 < 2 ^ sh) by (apply pow2_pos; lia).
      assert (2 ^ (d - 1) * 2 ^ sh <= Z.pos m * 2 ^ sh) by (apply Z.mul_le_mono_nonneg_r; lia).
      change (2 ^ 56) with 72057594037927936 in H. lia.
Qed.

Lemma fzero_not_inf (a : float) : fzero a = true -> finf a = false.
Proof. unfold fzero, finf. by destruct (Prim2SF a). Qed.

Lemma BAUMGARTE_ord : 2 ^ 3000 <= 8 * ord BAUMGARTE.
Proof.
  unfold ord, sval. rewrite BAUMGARTE_spec. cbn [is_neg absval]. unfold mag.
  apply Z.leb_le. vm_compute. reflexivity.
Qed.

(** The Baumgarte term: a number whenever the penetration is one, never
    negative, zero inside the slop and positive beyond it. *)
Lemma baumgarte_steps (p : float) :
  num p ->
  let s := (p + SLOP)%float in
  let m := Math.min 0 s in
  let q := (m / TIMESTEP)%float in
  num s /\ num m /\ ord m <= 0 /\ num q /\ ord q <= 0 /\
  num (baumgarte p) /\ 0 <= ord (baumgarte p).
Proof.
  intros Hp s m q.
  destruct (pos_finite_facts SLOP eq_refl) as (NS & RS & FS & _).
  destruct (pos_finite_facts TIMESTEP eq_refl) as (NT & RT & FT & _).
  destruct (pos_finite_facts BAUMGARTE eq_refl) as (NB & RB & FB & _).
  destruct (add_sandwich p SLOP Hp NS) as [Hs _]; [by apply no_clash_finite_r|].
  fold (num s) in Hs.
  destruct (Math_min_zero s Hs) as (Hm & Hm0 & _). fold m in Hm, Hm0.
  destruct (div_ord_sign m TIMESTEP Hm NT) as (Hq & _ & Hq0); [lia|done|].
  fold q in Hq, Hq0.
  assert (Hq1 : ord q <= 0).
  { apply Hq0. apply Z.mul_nonpos_nonneg; lia. }
  assert (NnB : num (- BAUMGARTE)) by (by apply num_opp).
  assert (OnB : ord (- BAUMGARTE) = - ord BAUMGARTE) by apply ord_opp.
  destruct (mul_ord_sign (- BAUMGARTE) q NnB Hq) as (Hb & Hb0 & _).
  { left. by rewrite finf_opp. }
  { right. lia. }
  split; [exact Hs|]. split; [exact Hm|]. split; [exact Hm0|].
  split; [exact Hq|]. split; [exact Hq1|]. split; [exact Hb|].
  apply Hb0. apply Z.mul_nonpos_nonpos; lia.
Qed.

Theorem baumgarte_zero (p : float) :
  (- SLOP <=? p)%float = true -> (baumgarte p =? 0)%float = true.
Proof.
  intros H. apply leb_ord in H as (_ & Hp & Hle). rewrite ord_opp in Hle.
  destruct (baumgarte_steps p Hp) as (Hs & Hm & _ & Hq & _ & Hb & _).
  destruct (pos_finite_facts SLOP eq_refl) as (NS & RS & FS & _).
  destruct (pos_finite_facts TIMESTEP eq_refl) as (NT & RT & FT & _).
  destruct (pos_finite_facts BAUMGARTE eq_refl) as (NB & RB & FB & _).
  destruct ord_zero as [Z0 N0].
  destruct (add_ge p SLOP 0 Hp NS) as [_ Hs0]; [by apply no_clash_finite_r|done|lia|].
  rewrite Z0 in Hs0.
  destruct (Math_min_zero _ Hs) as (_ & _ & _ & Hm0). specialize (Hm0 Hs0).
  assert (Zm : fzero (Math.min 0 (p + SLOP)) = true) by (by apply fzero_ord).
  assert (Zq : fzero (Math.min 0 (p + SLOP) / TIMESTEP) = true).
  { apply div_zero; [exact Hm|exact NT|exact Zm|reflexivity]. }
  assert (Zb : fzero (baumgarte p) = true).
  { apply mul_zero.
    - by apply num_opp.
    - exact Hq.
    - by right.
    - by rewrite finf_opp.
    - by apply fzero_not_inf. }
  apply eqb_ord. split; [exact Hb|]. split; [exact N0|].
  rewrite Z0. by apply fzero_ord.
Qed.

Theorem baumgarte_pos (p : float) :
  (p <? - SLOP)%float = true -> (0 <? baumgarte p)%float = true.
Proof.
  intros H. apply ltb_ord in H as (Hp & _ & Hlt).
  apply ord_gap in Hlt. rewrite ord_opp in Hlt.
  destruct (baumgarte_steps p Hp) as (Hs & Hm & _ & Hq & _ & Hb & Hb0).
  destruct (pos_finite_facts SLOP eq_refl) as (NS & RS & FS & _).
  destruct (pos_finite_facts BAUMGARTE eq_refl) as (NB & RB & FB & _).
  destruct ord_zero as [Z0 N0]. pose proof tiny_pos as Ht.
  destruct SFtiny_facts as (Tv & Tn & Te).
  destruct (add_sandwich p SLOP Hp NS) as [_ Hsw]; [by apply no_clash_finite_r|].
  destruct (Hsw (SFopp SFtiny)) as [_ Hup]; [by rewrite valid_opp|by apply not_nan_opp|].
  rewrite sval_opp, Te in Hup. fold (ord (p + SLOP)) in Hup.
  assert (Hs0 : ord (p + SLOP) < 0) by lia.
  destruct (Math_min_zero _ Hs) as (_ & _ & Hmin & _). specialize (Hmin Hs0).
  destruct (div_timestep_neg (p + SLOP) Hs Hs0) as [_ Hq8].
  assert (Hnz : tiny <= Z.abs (ord (baumgarte p))).
  { unfold baumgarte. rewrite Hmin.
    apply mul_nonzero.
    - by apply num_opp.
    - rewrite <- Hmin. exact Hq.
    - rewrite ord_opp. lia.
    - lia.
    - rewrite ord_opp. pose proof BAUMGARTE_ord as HB.
      remember (2 ^ 3000) as u. remember (ord BAUMGARTE) as B.
      remember (ord ((p + SLOP) / TIMESTEP)) as Q.
      rewrite Z.abs_opp, (Z.abs_eq B), (Z.abs_neq Q) by lia.
      assert (tiny * u <= tiny * (8 * B)) by (apply Z.mul_le_mono_nonneg_l; lia).
      assert (B * (8 * tiny) <= B * - Q) by (apply Z.mul_le_mono_nonneg_l; lia).
      lia. }
  apply ltb_ord. split; [exact N0|]. split; [exact Hb|]. rewrite Z0. lia.
Qed.

Local Close Scope Z_scope.
(** ** Exact identities and the arithmetic of the clamp *)

Local Open Scope Z_scope.

Lemma sub_zero_r (a : float) : (a - 0)%float = a.
Proof.
  apply Prim2SF_inj. rewrite sub_spec. change (Prim2SF 0) with (S754_zero false).
  unfold SF64sub. destruct (Prim2SF a) as [[]| | |]; reflexivity.
Qed.

Lemma pos_shape (b : float) :
  num b -> 0 < ord b < huge -> exists m e, Prim2SF b = S754_finite false m e.
Proof.
  intros Hb [Hpos Hfin].
  destruct (sval_cases _ (Prim2SF_valid b) Hb) as [[E _]|[[E _]|(_ & P & _)]].
  - fold (ord b) in E. lia.
  - fold (ord b) in E. pose proof huge_nonneg. lia.
  - destruct (P Hpos) as (m & e & E & _). by exists m, e.
Qed.

Lemma mul_zero_pos (b : float) :
  num b -> 0 < ord b < huge -> (0 * b)%float = 0%float.
Proof.
  intros Hb Hr. destruct (pos_shape b Hb Hr) as (m & e & E).
  apply Prim2SF_inj. rewrite mul_spec, E. reflexivity.
Qed.

Lemma ord_infinity : ord infinity = huge.
Proof. reflexivity. Qed.

Lemma ord_one : ord 1 = 2 ^ 3000.
Proof. unfold ord. rewrite Prim2SF_one. reflexivity. Qed.

Lemma finf_false_ord (a : float) : num a -> - huge < ord a < huge -> finf a = false.
Proof.
  intros Ha Hr. destruct (finf a) eqn:E; [|done].
  apply finf_ord in E; [|done]. lia.
Qed.

Lemma finf_range (a : float) : num a -> finf a = false -> - huge < ord a < huge.
Proof.
  intros Ha Hf. pose proof (finite_facts a Ha Hf).
  pose proof huge_big. pose proof big_pos. lia.
Qed.

(** [Number.isFinite]. *)
Lemma is_infinity_finf (a : float) : is_infinity a = finf a.
Proof.
  unfold is_infinity, finf. rewrite FloatAxioms.eqb_spec, abs_spec.
  change (Prim2SF infinity) with (S754_infinity false).
  destruct (Prim2SF a) as [| | |]; reflexivity.
Qed.

Lemma is_finite_spec (a : float) : is_finite a = true <-> num a /\ finf a = false.
Proof.
  unfold is_finite. rewrite negb_true_iff, orb_false_iff, is_infinity_finf.
  by rewrite is_nan_num.
Qed.

(** [0 - v] of a finite [v] is finite. *)
Lemma zero_sub_finite (v : float) :
  num v -> finf v = false -> num (0 - v) /\ finf (0 - v) = false.
Proof.
  unfold num, not_nan, finf. rewrite sub_spec.
  change (Prim2SF 0) with (S754_zero false). unfold SF64sub.
  destruct (Prim2SF v) as [[]| | |]; cbn; done.
Qed.

(** Multiplication by 1 keeps a positive number positive. *)
Lemma mul_one_pos (a : float) :
  num a -> 0 < ord a -> num (a * 1) /\ 0 < ord (a * 1).
Proof.
  intros Ha Hpos. pose proof tiny_pos as Ht.
  destruct (pos_finite_facts 1 eq_refl) as (N1 & R1 & F1 & _).
  destruct (mul_ord_sign a 1 Ha N1) as (Hn & Hp & _); [right; lia|by left|].
  split; [exact Hn|].
  assert (Hnz : tiny <= Z.abs (ord (a * 1))).
  { apply mul_nonzero; [exact Ha|exact N1|lia|lia|].
    rewrite ord_one. rewrite (Z.abs_eq (ord a)) by lia.
    pose proof (ord_gap 0 a) as Hg. rewrite (proj1 ord_zero) in Hg.
    specialize (Hg Hpos). remember (2 ^ 3000) as u.
    assert (0 < u) by (subst u; by apply pow2_pos).
    rewrite (Z.abs_eq u) by lia. apply Z.mul_le_mono_nonneg_r; lia. }
  assert (0 <= ord (a * 1)) by (apply Hp; apply Z.mul_nonneg_nonneg; lia).
  lia.
Qed.

(** The approach speed at the left wall, [vDot (0 - vel) (1, 0)], of a
    body that moves left. *)
Lemma approach_left (vx vy : float) :
  (vx <? 0)%float = true -> num vy -> finf vy = false ->
  let cv := vDot (vSub (mkVec2 0 0) (mkVec2 vx vy)) (mkVec2 1 0) in
  num cv /\ 0 < ord cv.
Proof.
  intros Hvx Hvy Fvy cv. destruct ord_zero as [Z0 N0].
  assert (Ha : (0 <? 0 - vx)%float = true) by (by rewrite sub_ltb_zero_r).
  apply ltb_ord in Ha as (_ & Na & Pa). rewrite Z0 in Pa.
  destruct (mul_one_pos _ Na Pa) as [Na1 Pa1].
  destruct (zero_sub_finite vy Hvy Fvy) as [Nb Fb].
  assert (Zc : fzero ((0 - vy) * 0) = true).
  { apply mul_zero; [exact Nb|exact N0|by right|exact Fb|reflexivity]. }
  assert (Nc : num ((0 - vy) * 0)).
  { apply mul_ord_sign; [exact Nb|exact N0|by left|by left]. }
  assert (Oc : ord ((0 - vy) * 0) = 0) by (by apply fzero_ord).
  unfold cv, vDot, vSub. cbn [x y].
  destruct (add_ge ((0 - vx) * 1) ((0 - vy) * 0) ((0 - vx) * 1)) as [Hn Hle].
  - exact Na1.
  - exact Nc.
  - apply no_clash_finite_r; [exact Nc|by apply fzero_not_inf].
  - exact Na1.
  - lia.
  - split; [exact Hn|lia].
Qed.

(** The impulse the left-wall contact of a body that moves left asks for
    is not positive, and the projection leaves the accumulated impulse
    at 0. *)
Lemma lambda_nonpos (em cv bs : float) :
  num em -> 0 < ord em -> num cv -> 0 < ord cv -> num bs -> 0 <= ord bs ->
  let l := (- em * (cv + bs + 0))%float in
  num l /\ ord l <= 0 /\ Math.max 0 (0 + l) = 0%float.
Proof.
  intros Nem Pem Ncv Pcv Nbs Pbs l. destruct ord_zero as [Z0 N0].
  pose proof huge_big. pose proof big_pos.
  destruct (add_ge cv bs cv Ncv Nbs) as [N1 P1].
  { intros [[_ E]|[E _]]; lia. }
  { exact Ncv. }
  { lia. }
  destruct (add_ge (cv + bs) 0 cv N1 N0) as [N2 P2].
  { by apply no_clash_finite_r. }
  { exact Ncv. }
  { lia. }
  assert (Nn : num (- em)) by (by apply num_opp).
  destruct (mul_ord_sign (- em) (cv + bs + 0) Nn N2) as (Nl & _ & Ol).
  { right. lia. }
  { right. rewrite ord_opp. lia. }
  assert (Hl : ord l <= 0).
  { apply Ol. rewrite ord_opp. apply Z.mul_nonpos_nonneg; lia. }
  split; [exact Nl|]. split; [exact Hl|].
  destruct (add_le 0 l 0 N0 Nl) as [N3 P3].
  { by apply no_clash_finite_l. }
  { exact N0. }
  { fold l. lia. }
  apply Math_max_zero_nonpos; [exact N3|]. lia.
Qed.

(** A body left of [r] that moves left is still left of [r] after the
    position update. *)
Lemma move_left (px vx r : float) :
  (px - r <? 0)%float = true -> (vx <? 0)%float = true ->
  (px + vx * TIMESTEP - r <? 0)%float = true.
Proof.
  rewrite !sub_ltb_zero. intros Hp Hv.
  apply ltb_ord in Hp as (Np & Nr & Hlt). apply ltb_ord in Hv as (Nv & _ & Hv).
  rewrite (proj1 ord_zero) in Hv.
  destruct (pos_finite_facts TIMESTEP eq_refl) as (NT & RT & FT & _).
  pose proof huge_big. pose proof big_pos. pose proof (ord_range r).
  destruct (mul_ord_sign vx TIMESTEP Nv NT) as (Nm & _ & Om); [right; lia|by left|].
  assert (Hm : ord (vx * TIMESTEP) <= 0).
  { apply Om. apply Z.mul_nonpos_nonneg; lia. }
  destruct (add_le px (vx * TIMESTEP) px Np Nm) as [Ns Os].
  { intros [[E _]|[_ E]]; lia. }
  { exact Np. }
  { lia. }
  apply ltb_ord. split; [exact Ns|]. split; [exact Nr|]. lia.
Qed.

Section Clamp.

(** An arena side [c] and its half [h]. *)
Variables c h : float.
Hypothesis c_pos : pos_finite c = true.
Hypothesis c_half : ord c = 2 * ord h.

Lemma half_range : 0 < ord h < big.
Proof. destruct (pos_finite_facts c c_pos) as (_ & R & _). lia. Qed.

Lemma no_overlap_high (px r : float) :
  (px <? r)%float = true -> (r <=? h)%float = true -> (c <? px + r)%float = false.
Proof.
  intros Hp Hr. destruct (c <? px + r)%float eqn:E; [|done].
  apply ltb_ord in Hp as (Np & Nr & Hlt). apply leb_ord in Hr as (_ & _ & Hle).
  apply ltb_ord in E as (Nc & _ & E).
  pose proof huge_big. pose proof big_pos. pose proof half_range.
  pose proof (ord_range px).
  destruct (add_le px r c Np Nr) as [_ Os].
  { intros [[E1 _]|[_ E1]]; lia. }
  { exact Nc. }
  { lia. }
  lia.
Qed.

Lemma double_le (r : float) :
  (r <=? h)%float = true -> (c <? r + r)%float = false.
Proof.
  intros Hr. destruct (c <? r + r)%float eqn:E; [|done].
  apply leb_ord in Hr as (Nr & _ & Hle). apply ltb_ord in E as (Nc & _ & E).
  pose proof huge_big. pose proof big_pos. pose proof half_range.
  destruct (add_le r r c Nr Nr) as [_ Os].
  { intros [[E1 E2]|[E1 E2]]; lia. }
  { exact Nc. }
  { lia. }
  lia.
Qed.

Lemma half_le (r : float) :
  (r <=? h)%float = true -> (r <=? c - r)%float = true.
Proof.
  intros Hr. apply leb_ord in Hr as (Nr & Nh & Hle).
  destruct (pos_finite_facts c c_pos) as (Nc & Rc & Fc & _).
  destruct (sub_ge c r h Nc Nr) as [Ns Os].
  { by apply no_clash_finite_l. }
  { exact Nh. }
  { lia. }
  apply leb_ord. split; [exact Nr|]. split; [exact Ns|]. lia.
Qed.

Lemma leb_refl (a : float) : num a -> (a <=? a)%float = true.
Proof. intros Ha. apply leb_ord. split; [exact Ha|]. split; [exact Ha|]. lia. Qed.

(** The two clamps of one axis: the position they leave, unless it is
    [NaN], is at least [r], and it is at most [c - r] or the overlap test
    [c < position + r] of the code is negative. *)
Lemma clamp_axis (p r v : float) :
  (r <=? h)%float = true ->
  let x' := (clampHigh c (clampLow p r v).1 r (clampLow p r v).2).1 in
  is_nan x' = false ->
  (r <=? x')%float = true /\
  ((x' <=? c - r)%float || (x' + r <=? c)%float) = true.
Proof.
  intros Hr. pose proof (half_le r Hr) as Hhalf.
  assert (Nr : num r) by (apply leb_ord in Hr; tauto).
  destruct (pos_finite_facts c c_pos) as (Nc & Rc & Fc & _).
  unfold clampLow. destruct (p - r <? 0)%float eqn:Elow; cbn [fst snd].
  - unfold clampHigh. rewrite (double_le r Hr). cbn [fst snd]. intros _.
    split; [by apply leb_refl|]. by rewrite Hhalf.
  - unfold clampHigh. destruct (c <? p + r)%float eqn:Ehigh; cbn [fst snd].
    + intros _. split; [exact Hhalf|].
      apply leb_ord in Hhalf as (_ & Ns & _). by rewrite leb_refl.
    + intros Hnan. apply is_nan_num in Hnan.
      rewrite sub_ltb_zero in Elow. apply ltb_false in Elow; [|done..].
      split; [apply leb_ord; by repeat split|].
      apply orb_true_iff.
      destruct (clash_dec p r) as [Hc|Hc].
      * left. apply leb_ord in Hr as (_ & _ & Hle).
        pose proof huge_big. pose proof big_pos. pose proof half_range.
        pose proof (ord_range r).
        assert (E : ord p = huge /\ ord r = - huge).
        { destruct Hc as [E|[E1 E2]]; [exact E|lia]. }
        destruct (sub_ge c r p Nc Nr) as [Ns Os].
        { by apply no_clash_finite_l. }
        { done. }
        { lia. }
        apply leb_ord. split; [done|]. split; [exact Ns|]. exact Os.
      * right. destruct (add_sandwich p r Hnan Nr Hc) as [Ns _].
        fold (num (p + r)) in Ns.
        apply ltb_false in Ehigh; [|done..].
        apply leb_ord. split; [exact Ns|]. split; [exact Nc|]. exact Ehigh.
Qed.

(** The same for a position that is not [NaN] before the clamps: each
    clamp writes [r] or [c - r], which are numbers. *)
Lemma clamp_axis_num (p r v : float) :
  (r <=? h)%float = true -> is_nan p = false ->
  let x' := (clampHigh c (clampLow p r v).1 r (clampLow p r v).2).1 in
  (r <=? x')%float = true /\
  ((x' <=? c - r)%float || (x' + r <=? c)%float) = true.
Proof.
  intros Hr Hp x'. apply (clamp_axis p r v Hr). fold x'.
  pose proof (half_le r Hr) as Hhalf.
  assert (Nr : num r) by (apply leb_ord in Hr; tauto).
  assert (Ns : num (c - r)) by (apply leb_ord in Hhalf; tauto).
  unfold x', clampLow, clampHigh.
  destruct (p - r <? 0)%float; cbn [fst snd].
  - destruct (c <? r + r)%float; cbn [fst snd]; by apply is_nan_num.
  - destruct (c <? p + r)%float; cbn [fst snd]; [by apply is_nan_num|exact Hp].
Qed.

End Clamp.

Lemma widthM_half : pos_finite widthM = true /\ ord widthM = 2 * ord (widthM / 2).
Proof. split; [reflexivity|]. vm_compute. reflexivity. Qed.

Lemma heightM_half : pos_finite heightM = true /\ ord heightM = 2 * ord (heightM / 2).
Proof. split; [reflexivity|]. vm_compute. reflexivity. Qed.

Local Close Scope Z_scope.
(** ** Symmetries of the operations *)

Local Open Scope Z_scope.

Lemma bra_opp (s : bool) (mx ex : Z) (lx : location) :
  bra (negb s) mx ex lx = SFopp (bra s mx ex lx).
Proof.
  unfold binary_round_aux.
  destruct (shr_fexp prec emax mx ex lx) as [r e].
  destruct (shr_fexp prec emax _ e loc_Exact) as [r' e'].
  destruct (shr_m r') as [|m|m]; [reflexivity| |reflexivity].
  destruct (e' <=? emax - prec); reflexivity.
Qed.

Lemma binary_round_opp (s : bool) (m : positive) (e : Z) :
  binary_round prec emax (negb s) m e = SFopp (binary_round prec emax s m e).
Proof.
  unfold binary_round. destruct (shl_align m e _) as [mz ez]. apply bra_opp.
Qed.

Lemma SFopp_involutive (x : spec_float) : SFopp (SFopp x) = x.
Proof. destruct x as [[]|[]| |[] m e]; reflexivity. Qed.

Lemma binary_normalize_opp (N e : Z) :
  N <> 0 ->
  binary_normalize prec emax (- N) e false = SFopp (binary_normalize prec emax N e false).
Proof.
  intros HN. destruct N as [|m|m]; [done| |]; cbn [Z.opp binary_normalize].
  - apply (binary_round_opp false).
  - rewrite (binary_round_opp false). by rewrite SFopp_involutive.
Qed.

(** [y - x] is the opposite of [x - y], or both are [+0]. *)
Lemma SFsub_swap (x y : spec_float) :
  SFsub prec emax y x = SFopp (SFsub prec emax x y) \/
  (SFsub prec emax y x = S754_zero false /\ SFsub prec emax x y = S754_zero false).
Proof.
  destruct x as [sx|sx| |sx mx ex], y as [sy|sy| |sy my ey]; cbn [SFsub SFopp];
    try (left; reflexivity);
    try (left; by rewrite Bool.negb_involutive);
    try (destruct sx, sy; (left; reflexivity) || (right; split; reflexivity)).
  rewrite (Z.min_comm ey ex).
  set (ez := Z.min ex ey).
  set (X := cond_Zopp sx (Z.pos (shl_align mx ex ez).1)).
  set (Y := cond_Zopp sy (Z.pos (shl_align my ey ez).1)).
  destruct (Z.eq_dec (X - Y) 0) as [E|E].
  - right. replace (Y - X) with 0 by lia. rewrite E. split; reflexivity.
  - left. replace (Y - X) with (- (X - Y)) by lia. by apply binary_normalize_opp.
Qed.

Lemma SFmul_opp_opp (x : spec_float) :
  SFmul prec emax (SFopp x) (SFopp x) = SFmul prec emax x x.
Proof. destruct x as [[]|[]| |[] m e]; reflexivity. Qed.

(** The square of a difference does not depend on the order. *)
Lemma sq_sub_swap (a b : float) : ((a - b) * (a - b) = (b - a) * (b - a))%float.
Proof.
  apply Prim2SF_inj. rewrite !mul_spec, !sub_spec. unfold SF64mul, SF64sub.
  destruct (SFsub_swap (Prim2SF a) (Prim2SF b)) as [->|[-> ->]]; [|reflexivity].
  by rewrite SFmul_opp_opp.
Qed.

Lemma SFadd_comm (x y : spec_float) : SFadd prec emax x y = SFadd prec emax y x.
Proof.
  destruct x as [sx|sx| |sx mx ex], y as [sy|sy| |sy my ey]; cbn [SFadd];
    try reflexivity; try (by destruct sx, sy).
  rewrite (Z.min_comm ey ex). f_equal. apply Z.add_comm.
Qed.

Lemma add_comm (a b : float) : (a + b = b + a)%float.
Proof. apply Prim2SF_inj. rewrite !add_spec. apply SFadd_comm. Qed.

Lemma SFmul_comm (x y : spec_float) : SFmul prec emax x y = SFmul prec emax y x.
Proof.
  destruct x as [sx|sx| |sx mx ex], y as [sy|sy| |sy my ey]; cbn [SFmul];
    try reflexivity; try (by rewrite xorb_comm).
  by rewrite xorb_comm, Pos.mul_comm, Z.add_comm.
Qed.

Lemma mul_comm (a b : float) : (a * b = b * a)%float.
Proof. apply Prim2SF_inj. rewrite !mul_spec. apply SFmul_comm. Qed.

(** [Math.sqrt] is never below 0. *)
Lemma sqrt_not_neg (a : float) : (Math.sqrt a <? 0)%float = false.
Proof.
  destruct (Math.sqrt a <? 0)%float eqn:E; [|done].
  apply ltb_ord in E as (Ns & _ & E). rewrite (proj1 ord_zero) in E.
  unfold Math.sqrt, num, ord, not_nan in *. rewrite sqrt_spec in *.
  unfold SF64sqrt, SFsqrt in *.
  destruct (Prim2SF a) as [s|[]| |[] m e]; try done.
  - unfold sval in E. cbn [is_neg absval] in E. destruct s; lia.
  - destruct (SFsqrt_core_binary prec emax (Z.pos m) e) as [[mz ez] lz].
    pose proof (absval_nonneg (bra false mz ez lz)).
    unfold sval in E.
    destruct (is_neg (bra false mz ez lz)) eqn:Hneg; [|lia].
    assert (Hz : is_neg (bra false mz ez lz) = false).
    { clear. unfold binary_round_aux.
      destruct (shr_fexp prec emax mz ez lz) as [r e].
      destruct (shr_fexp prec emax _ e loc_Exact) as [r' e'].
      destruct (shr_m r') as [|m|m]; [reflexivity| |reflexivity].
      destruct (e' <=? emax - prec); reflexivity. }
    congruence.
Qed.

Local Close Scope Z_scope.
(** ** Upper bounds for products and quotients *)

Local Open Scope Z_scope.

Lemma Zdigits2_mul_ge (a b : Z) :
  0 < a -> 0 < b -> Zdigits2 a + Zdigits2 b - 1 <= Zdigits2 (a * b).
Proof.
  intros Ha Hb.
  destruct (Zdigits2_bounds a Ha) as (Da & La & _).
  destruct (Zdigits2_bounds b Hb) as (Db & Lb & _).
  destruct (Zdigits2_bounds (a * b)) as (Dp & _ & Up); [nia|].
  destruct (Z_lt_le_dec (Zdigits2 (a * b)) (Zdigits2 a + Zdigits2 b - 1)) as [Hlt|]; [|done].
  exfalso.
  assert (H1 : 2 ^ Zdigits2 (a * b) <= 2 ^ (Zdigits2 a - 1 + (Zdigits2 b - 1)))
    by (apply Z.pow_le_mono_r; lia).
  rewrite Z.pow_add_r in H1 by lia.
  assert (2 ^ (Zdigits2 a - 1) * 2 ^ (Zdigits2 b - 1) <= a * b).
  { apply Z.mul_le_mono_nonneg; try done; apply Z.pow_nonneg; lia. }
  lia.
Qed.

Lemma valid_pos_tiny (A : spec_float) :
  valid_binary A = true -> 0 < absval A -> tiny <= absval A.
Proof.
  intros Hv Hpos. destruct (sval_multiple A Hv) as [k Hk].
  pose proof tiny_pos.
  assert (Habs : Z.abs (sval A) = absval A).
  { unfold sval. pose proof (absval_nonneg A). destruct (is_neg A); lia. }
  rewrite Hk in Habs. rewrite <- Habs in *.
  rewrite Z.abs_mul, (Z.abs_eq tiny) in * by lia.
  assert (1 <= Z.abs k) by nia. nia.
Qed.

(** The rounding of a truncated value [mx] at exponent [ex], with any
    location, is below every binary64 magnitude that is above the
    value; with an exact location, also below those that equal it. *)
Lemma bra_upper_gen (s : bool) (mx ex : Z) (lx : location) (A : spec_float) :
  0 <= mx -> -3000 < ex -> ex <= fexp64 (Zdigits2 mx + ex) ->
  valid_binary A = true -> not_nan A ->
  mag mx ex <= absval A -> (lx <> loc_Exact -> mag mx ex < absval A) ->
  absval (bra s mx ex lx) <= absval A.
Proof.
  intros Hmx Hex Hcan Hv Hn Hle Hstrict.
  assert (Hdec : lx = loc_Exact \/ lx <> loc_Exact).
  { destruct lx; [by left|by right]. }
  destruct Hdec as [->|Hloc].
  { apply bra_upper; try done. lia. }
  specialize (Hstrict Hloc).
  destruct (bra_value s mx ex lx Hmx) as
    (m2 & m3 & e2 & Hm2 & _ & Hm1 & Hnorm & -> & Hmag & Hm3 & He2); [lia|].
  set (e1 := Z.max ex (fexp64 (Zdigits2 mx + ex))) in *.
  set (m1 := mx / 2 ^ (e1 - ex)) in *.
  assert (He1 : -1074 <= e1 /\ ex <= e1) by (unfold e1; rewrite fexp64_eq; lia).
  assert (HP : 0 < 2 ^ (e1 - ex)) by (apply pow2_pos; lia).
  pose proof huge_big as Hhuge. pose proof big_pos as Hbig.
  pose proof huge_nonneg as Hh0. pose proof tiny_pos as Ht.
  assert (Hfin : absval (finish s m3 e2) <= huge).
  { destruct (finish_absval s m3 e2 Hm3) as [[He ->]|[(_ & _ & ->)|(_ & _ & ->)]];
      try lia; cbn [absval]; try lia.
    assert (mag m3 e2 <= mag (2 ^ 53) e2) by (apply mag_mono; lia).
    rewrite mag_pow in H by lia.
    assert (2 ^ (53 + e2 + 3000) <= big) by (rewrite big_eq; apply Z.pow_le_mono_r; lia).
    lia. }
  assert (Hzero : mx = 0 -> m1 = 0 /\ e1 = -1074).
  { intros Hz. split; [unfold m1; rewrite Hz; apply Z.div_0_l; lia|].
    unfold e1. rewrite Hz in *. cbn [Zdigits2] in *. rewrite fexp64_eq in *. lia. }
  assert (Hnorm' : -1074 < e1 -> 2 ^ 52 <= m1).
  { intros He. apply Hnorm; [|done..].
    destruct (Z.eq_dec mx 0) as [Hz|]; [|lia]. destruct (Hzero Hz). lia. }
  assert (Hres : absval (finish s m3 e2) <= mag m2 e1 \/ big <= mag m2 e1).
  { destruct (finish_absval s m3 e2 Hm3) as [[_ ->]|[(He & Hpos & _)|(He & -> & ->)]];
      try lia.
    - right. destruct He2 as [E|[E ->]].
      + assert (2 ^ 52 <= m1) by (apply Hnorm'; lia).
        eapply Z.le_trans; [|apply (mag_mono (2 ^ 52)); lia].
        rewrite mag_pow, big_eq by lia. apply Z.pow_le_mono_r; lia.
      + rewrite mag_pow, big_eq by lia. apply Z.pow_le_mono_r; lia.
    - left. cbn [absval]. rewrite <- Hmag. unfold mag. lia. }
  assert (Hm2' : mag m2 e1 <= mag (m1 + 1) e1) by (apply mag_mono; lia).
  destruct A as [sA|sA| |sA mA eA]; cbn [absval] in *.
  - assert (0 <= mag mx ex) by (apply mag_nonneg; lia). lia.
  - done.
  - by destruct Hn.
  - cbn [valid_binary] in Hv.
    pose proof (mag_bounded_lt _ _ Hv) as [HA0 HA1].
    assert (H1 : mag (m1 + 1) e1 <= mag (Z.pos mA) eA).
    { destruct (Z.eq_dec mx 0) as [Hz|Hnz].
      - destruct (Hzero Hz) as [Hz1 He].
        rewrite Hz1, He. cbn [Z.add]. rewrite mag_tiny, Z.mul_1_l.
        apply (valid_pos_tiny (S754_finite sA mA eA)); [done|]. cbn [absval]. lia.
      - assert (Hmxpos : 0 < mx) by lia.
        destruct (Z.eq_dec (mx mod 2 ^ (e1 - ex)) 0) as [Hmod|Hmod].
        + assert (E : mag mx ex = m1 * 2 ^ (e1 + 3000)).
          { apply Z.div_exact in Hmod; [|lia].
            rewrite Hmod at 1. fold m1. rewrite Z.mul_comm, mag_shift by lia.
            unfold mag. f_equal. f_equal. lia. }
          assert (HQ : 1 < 2 ^ (e1 + 3000)).
          { change 1 with (2 ^ 0). apply Z.pow_lt_mono_r; lia. }
          apply (repr_ceil mA eA (mag mx ex + 1) e1 m1).
          * done.
          * lia.
          * assert (0 <= mag mx ex) by (apply mag_nonneg; lia). lia.
          * rewrite E. symmetry.
            rewrite Z.div_add_l by lia. rewrite Z.div_small by lia. lia.
          * done.
          * rewrite E. rewrite Z.add_comm, Z.mod_add by lia.
            rewrite Z.mod_small by lia. lia.
          * lia.
        + apply (repr_ceil mA eA (mag mx ex) e1 m1).
          * done.
          * lia.
          * apply mag_nonneg. lia.
          * symmetry. apply mag_div; lia.
          * done.
          * rewrite (proj2 (mag_div mx ex e1 Hmx ltac:(lia) (proj2 He1))). done.
          * lia. }
    destruct Hres as [Hres|Hres]; lia.
Qed.

Lemma mag_mul (mx my : positive) (ex ey : Z) :
  -1500 <= ex -> -1500 <= ey ->
  mag (Zpos mx) ex * mag (Zpos my) ey = mag (Zpos (mx * my)) (ex + ey) * 2 ^ 3000.
Proof.
  intros Hx Hy. unfold mag. rewrite Pos2Z.inj_mul.
  replace (ex + ey + 3000) with ((ex + 3000) + ey) by lia.
  transitivity (Z.pos mx * Z.pos my * (2 ^ (ex + 3000) * 2 ^ (ey + 3000))); [ring|].
  rewrite <- Z.pow_add_r by lia.
  transitivity (Z.pos mx * Z.pos my * (2 ^ (ex + 3000 + ey) * 2 ^ 3000)); [|ring].
  rewrite <- Z.pow_add_r by lia. do 2 f_equal. lia.
Qed.

Lemma SFmul_upper (sx sy : bool) (mx my : positive) (ex ey : Z) (A : spec_float) :
  bounded prec emax mx ex = true -> bounded prec emax my ey = true ->
  valid_binary A = true -> not_nan A ->
  mag (Zpos mx) ex * mag (Zpos my) ey <= absval A * 2 ^ 3000 ->
  absval (SFmul prec emax (S754_finite sx mx ex) (S754_finite sy my ey)) <= absval A.
Proof.
  intros Hx Hy HA NA Hle. cbn [SFmul].
  pose proof (proj1 (bounded_spec _ _) Hx) as (Ex & Dx & Nx).
  pose proof (proj1 (bounded_spec _ _) Hy) as (Ey & Dy & Ny).
  apply bra_upper; try done; try lia.
  - rewrite fexp64_eq.
    pose proof (Zdigits2_mul_ge (Zpos mx) (Zpos my) ltac:(lia) ltac:(lia)) as Hd.
    rewrite <- Pos2Z.inj_mul in Hd. cbn [Zdigits2] in Hd |- *.
    destruct (Z_lt_le_dec (-1074) ex) as [H1|H1]; [specialize (Nx H1); lia|].
    destruct (Z_lt_le_dec (-1074) ey) as [H2|H2]; [specialize (Ny H2); lia|].
    lia.
  - rewrite mag_mul in Hle by lia.
    apply Z.mul_le_mono_pos_r in Hle; [done|]. by apply pow2_pos.
Qed.

Lemma SFdiv_core_full (m1 m2 : positive) (e1 e2 : Z) :
  let e' := Z.min (fexp64 (Zdigits2 (Zpos m1) + e1 - (Zdigits2 (Zpos m2) + e2))) (e1 - e2) in
  let s := e1 - e2 - e' in
  exists l, SFdiv_core_binary prec emax (Zpos m1) e1 (Zpos m2) e2 =
            (Zpos m1 * 2 ^ s / Zpos m2, e', l) /\ 0 <= s /\
            ((Zpos m1 * 2 ^ s) mod Zpos m2 = 0 -> l = loc_Exact).
Proof.
  intros e' s. unfold SFdiv_core_binary.
  fold e'. fold s.
  assert (Hs : 0 <= s) by (unfold s, e'; lia).
  assert (E : match s with
              | 0 => Z.pos m1
              | Z.pos _ => Z.shiftl (Z.pos m1) s
              | Z.neg _ => 0
              end = Z.pos m1 * 2 ^ s).
  { destruct s as [|p|p] eqn:Es; [simpl; lia| |lia].
    rewrite Z.shiftl_mul_pow2 by lia. done. }
  rewrite E.
  unfold Z.div, Z.modulo.
  destruct (Z.div_eucl (Z.pos m1 * 2 ^ s) (Z.pos m2)) as [q r].
  eexists. split; [reflexivity|]. split; [done|].
  intros ->. unfold new_location, new_location_even, new_location_odd.
  by destruct (Z.even (Z.pos m2)).
Qed.

Lemma SFdiv_canonical (m1 m2 : positive) (e1 e2 : Z) :
  bounded prec emax m1 e1 = true -> bounded prec emax m2 e2 = true ->
  let e' := Z.min (fexp64 (Zdigits2 (Zpos m1) + e1 - (Zdigits2 (Zpos m2) + e2))) (e1 - e2) in
  let q := Zpos m1 * 2 ^ (e1 - e2 - e') / Zpos m2 in
  0 <= q /\ -3000 < e' /\ e' <= fexp64 (Zdigits2 q + e').
Proof.
  intros H1 H2 e' q.
  pose proof (proj1 (bounded_spec _ _) H1) as (E1 & D1 & _).
  pose proof (proj1 (bounded_spec _ _) H2) as (E2 & D2 & _).
  cbn [Zdigits2] in e'.
  set (d1 := Z.pos (digits2_pos m1)) in *. set (d2 := Z.pos (digits2_pos m2)) in *.
  assert (Hs : 0 <= e1 - e2 - e') by (unfold e'; lia).
  assert (HP : 0 < 2 ^ (e1 - e2 - e')) by (by apply pow2_pos).
  assert (Hq : 0 <= q) by (apply Z.div_pos; lia).
  split; [exact Hq|].
  assert (He' : -3000 < e') by (unfold e'; rewrite fexp64_eq; lia).
  split; [exact He'|]. rewrite fexp64_eq.
  destruct (Z_le_gt_dec e' (-1074)) as [Hlow|Hhigh]; [lia|].
  assert (Ee : e' = d1 + e1 - (d2 + e2) - 53) by (unfold e' in *; rewrite fexp64_eq in *; lia).
  assert (Hq52 : 2 ^ 52 <= q).
  { apply Z.div_le_lower_bound; [lia|].
    pose proof (digits2_pos_bounds m1) as [L1 _].
    pose proof (digits2_pos_bounds m2) as [_ U2]. fold d1 in L1. fold d2 in U2.
    assert (Z.pos m2 * 2 ^ 52 <= 2 ^ d2 * 2 ^ 52) by (apply Z.mul_le_mono_nonneg_r; lia).
    assert (2 ^ (d1 - 1) * 2 ^ (e1 - e2 - e') <= Z.pos m1 * 2 ^ (e1 - e2 - e'))
      by (apply Z.mul_le_mono_nonneg_r; lia).
    rewrite <- Z.pow_add_r in * by lia.
    replace (d1 - 1 + (e1 - e2 - e')) with (d2 + 52) in * by lia. lia. }
  assert (53 <= Zdigits2 q); [|lia].
  destruct (Zdigits2_bounds q) as (_ & _ & Uq); [lia|].
  destruct (Z_lt_le_dec (Zdigits2 q) 53) as [Hlt|]; [|done].
  assert (2 ^ Zdigits2 q <= 2 ^ 52) by (apply Z.pow_le_mono_r; lia). lia.
Qed.

Lemma SFdiv_upper (sx sy : bool) (mx my : positive) (ex ey : Z) (A : spec_float) :
  bounded prec emax mx ex = true -> bounded prec emax my ey = true ->
  valid_binary A = true -> not_nan A ->
  mag (Zpos mx) ex * 2 ^ 3000 <= absval A * mag (Zpos my) ey ->
  absval (SFdiv prec emax (S754_finite sx mx ex) (S754_finite sy my ey)) <= absval A.
Proof.
  intros Hx Hy HA NA Hle. cbn [SFdiv].
  destruct (SFdiv_core_full mx my ex ey) as (l & -> & Hs & Hl).
  destruct (SFdiv_canonical mx my ex ey Hx Hy) as (Hq & He' & Hcan).
  set (e' := Z.min (fexp64 (Zdigits2 (Z.pos mx) + ex - (Zdigits2 (Z.pos my) + ey))) (ex - ey)) in *.
  set (s := ex - ey - e') in *.
  set (q := Z.pos mx * 2 ^ s / Z.pos my) in *.
  pose proof (bounded_exp _ _ Hx) as Ex. pose proof (bounded_exp _ _ Hy) as Ey.
  assert (HY : 0 < mag (Z.pos my) ey) by (apply mag_pos; lia).
  assert (HP : 0 < 2 ^ s) by (by apply pow2_pos).
  assert (Hdm : Z.pos mx * 2 ^ s = Z.pos my * q + (Z.pos mx * 2 ^ s) mod Z.pos my).
  { apply Z.div_mod. lia. }
  pose proof (Z.mod_pos_bound (Z.pos mx * 2 ^ s) (Z.pos my) ltac:(lia)) as Hr.
  assert (Hid : mag (Z.pos mx) ex * 2 ^ 3000 =
                mag q e' * mag (Z.pos my) ey +
                ((Z.pos mx * 2 ^ s) mod Z.pos my) * (2 ^ (e' + 3000) * 2 ^ (ey + 3000))).
  { unfold mag. rewrite <- Z.mul_assoc, <- (Z.pow_add_r 2 (ex + 3000) 3000) by lia.
    replace (ex + 3000 + 3000) with (s + ((e' + 3000) + (ey + 3000))) by (unfold s; lia).
    rewrite (Z.pow_add_r 2 s) by lia.
    rewrite (Z.pow_add_r 2 (e' + 3000)) by lia.
    rewrite Z.mul_assoc, Hdm at 1. ring. }
  assert (HQ : 0 < 2 ^ (e' + 3000) * 2 ^ (ey + 3000)).
  { apply Z.mul_pos_pos; apply pow2_pos; lia. }
  apply bra_upper_gen; try done.
  - apply (Z.mul_le_mono_pos_r _ _ (mag (Z.pos my) ey)); [done|]. nia.
  - intros Hloc.
    assert (Hne : (Z.pos mx * 2 ^ s) mod Z.pos my <> 0) by (intros E; by apply Hloc, Hl).
    apply (Z.mul_lt_mono_pos_r (mag (Z.pos my) ey)); [done|]. nia.
Qed.

(** Products and quotients of numbers that are not negative. *)
Lemma ord_absval (a : float) : 0 <= ord a -> absval (Prim2SF a) = ord a.
Proof.
  unfold ord, sval. pose proof (absval_nonneg (Prim2SF a)).
  destruct (is_neg (Prim2SF a)); lia.
Qed.

Lemma nonneg_shape (a : float) :
  num a -> 0 <= ord a -> finf a = false ->
  (exists s, Prim2SF a = S754_zero s) \/
  (exists m e, Prim2SF a = S754_finite false m e /\ bounded prec emax m e = true).
Proof.
  intros Na Pa Fa. pose proof (Prim2SF_valid a) as Va.
  unfold num, not_nan, ord, finf, sval in *.
  destruct (Prim2SF a) as [s|s| |s m e]; try done.
  - left. by exists s.
  - right. exists m, e. cbn [valid_binary is_neg absval] in *.
    destruct s; [|done].
    pose proof (mag_bounded_lt _ _ Va). lia.
Qed.

Theorem mul_le (a b c : float) :
  num a -> num b -> 0 <= ord a -> 0 <= ord b -> finf a = false -> finf b = false ->
  num c -> 0 <= ord c -> ord a * ord b <= ord c * 2 ^ 3000 ->
  num (a * b) /\ 0 <= ord (a * b) <= ord c.
Proof.
  intros Na Nb Pa Pb Fa Fb Nc Pc Hle.
  destruct (mul_ord_sign a b Na Nb) as (Nm & Pm & _); [by left|by left|].
  split; [exact Nm|].
  assert (P0 : 0 <= ord (a * b)) by (apply Pm; by apply Z.mul_nonneg_nonneg).
  split; [exact P0|].
  rewrite <- (ord_absval _ P0), <- (ord_absval c Pc).
  rewrite <- (ord_absval a Pa), <- (ord_absval b Pb), <- (ord_absval c Pc) in Hle.
  rewrite mul_spec. unfold SF64mul.
  pose proof (absval_nonneg (Prim2SF c)) as Hc0.
  destruct (nonneg_shape a Na Pa Fa) as [[sa Ea]|(ma & ea & Ea & Ba)];
    destruct (nonneg_shape b Nb Pb Fb) as [[sb Eb]|(mb & eb & Eb & Bb)];
    rewrite Ea, Eb in *; cbn [SFmul absval]; try done.
  apply SFmul_upper; try done. apply Prim2SF_valid.
Qed.

Theorem mul_ge (a b c : float) :
  num a -> num b -> 0 <= ord a -> 0 <= ord b -> finf a = false -> finf b = false ->
  num c -> 0 <= ord c -> finf c = false -> ord c * 2 ^ 3000 <= ord a * ord b ->
  num (a * b) /\ ord c <= ord (a * b).
Proof.
  intros Na Nb Pa Pb Fa Fb Nc Pc Fc Hle.
  destruct (mul_ord_sign a b Na Nb) as (Nm & Pm & _); [by left|by left|].
  split; [exact Nm|].
  assert (P0 : 0 <= ord (a * b)) by (apply Pm; by apply Z.mul_nonneg_nonneg).
  destruct (nonneg_shape c Nc Pc Fc) as [[sc Ec]|(mc & ec & Ec & Bc)].
  { assert (ord c = 0); [|lia]. unfold ord, sval. rewrite Ec. by destruct sc. }
  assert (P2 : 0 < 2 ^ 3000) by (by apply pow2_pos).
  assert (Hc : 0 < ord c).
  { unfold ord, sval. rewrite Ec. cbn [is_neg absval].
    pose proof (mag_bounded_lt _ _ Bc). lia. }
  rewrite <- (ord_absval _ P0), <- (ord_absval c Pc).
  rewrite <- (ord_absval a Pa), <- (ord_absval b Pb), <- (ord_absval c Pc) in Hle.
  rewrite mul_spec. unfold SF64mul.
  destruct (nonneg_shape a Na Pa Fa) as [[sa Ea]|(ma & ea & Ea & Ba)];
    destruct (nonneg_shape b Nb Pb Fb) as [[sb Eb]|(mb & eb & Eb & Bb)];
    rewrite Ea, Eb, Ec in *; cbn [SFmul absval] in *; try nia.
  by apply SFmul_lower.
Qed.

Theorem div_le (a b c : float) :
  num a -> num b -> 0 <= ord a -> 0 < ord b -> finf a = false -> finf b = false ->
  num c -> 0 <= ord c -> ord a * 2 ^ 3000 <= ord c * ord b ->
  num (a / b) /\ 0 <= ord (a / b) <= ord c.
Proof.
  intros Na Nb Pa Pb Fa Fb Nc Pc Hle.
  destruct (div_ord_sign a b Na Nb) as (Nm & Pm & _); [lia|done|].
  split; [exact Nm|].
  assert (P0 : 0 <= ord (a / b)) by (apply Pm; apply Z.mul_nonneg_nonneg; lia).
  split; [exact P0|].
  rewrite <- (ord_absval _ P0), <- (ord_absval c Pc).
  rewrite <- (ord_absval a Pa), <- (ord_absval b ltac:(lia)), <- (ord_absval c Pc) in Hle.
  rewrite div_spec. unfold SF64div.
  pose proof (absval_nonneg (Prim2SF c)) as Hc0.
  assert (Hb : 0 < absval (Prim2SF b)) by (rewrite ord_absval; lia).
  destruct (nonneg_shape a Na Pa Fa) as [[sa Ea]|(ma & ea & Ea & Ba)];
    destruct (nonneg_shape b Nb ltac:(lia) Fb) as [[sb Eb]|(mb & eb & Eb & Bb)];
    rewrite Ea, Eb in *; cbn [SFdiv absval] in *; try done; try lia.
  apply SFdiv_upper; try done. apply Prim2SF_valid.
Qed.

(** [a < infinity] for a number below a finite one. *)
Lemma below_finite (a c : float) :
  num a -> ord a <= ord c -> num c -> finf c = false -> (a <? infinity)%float = true.
Proof.
  intros Na Hle Nc Fc. pose proof (finf_range c Nc Fc).
  apply ltb_ord. split; [exact Na|]. split; [done|]. rewrite ord_infinity. lia.
Qed.

Local Close Scope Z_scope.
(** ** The running maximum of a sweep *)

Lemma Math_abs_ord (l : float) :
  num l -> num (Math.abs l) /\ ord (Math.abs l) = Z.abs (ord l).
Proof.
  unfold Math.abs, num, ord, not_nan. rewrite abs_spec. intros Hl.
  pose proof (absval_nonneg (Prim2SF l)) as Hn.
  destruct (Prim2SF l) as [[]|[]| |[] m e]; try done;
    (split; [done|]); unfold sval; cbn [SFabs is_neg absval] in *; lia.
Qed.

Lemma Math_max_ord (a b : float) :
  num a -> num b ->
  num (Math.max a b) /\ ord (Math.max a b) = Z.max (ord a) (ord b) /\
  (Math.max a b = a \/ Math.max a b = b).
Proof.
  intros Ha Hb. unfold Math.max.
  rewrite (proj2 (is_nan_num a) Ha), (proj2 (is_nan_num b) Hb). cbn [orb].
  destruct (a <? b)%float eqn:E1.
  { apply ltb_ord in E1 as (_ & _ & E1).
    split; [exact Hb|]. split; [lia|by right]. }
  apply ltb_false in E1; [|done..].
  destruct (b <? a)%float eqn:E2.
  { apply ltb_ord in E2 as (_ & _ & E2).
    split; [exact Ha|]. split; [lia|by left]. }
  apply ltb_false in E2; [|done..].
  destruct (get_sign a).
  - split; [exact Hb|]. split; [lia|by right].
  - split; [exact Ha|]. split; [lia|by left].
Qed.

Lemma foldl_max_spec (ls : list float) (m : float) :
  num m -> Forall num ls ->
  let e := foldl (fun m l => Math.max m (Math.abs l)) m ls in
  num e /\ (ord m <= ord e)%Z /\
  Forall (fun l => (Math.abs l <=? e)%float = true) ls /\
  (e = m \/ exists l, l ∈ ls /\ e = Math.abs l).
Proof.
  intros Hm Hls. revert m Hm.
  induction Hls as [|l ls Hl _ IH]; intros m Hm; cbn [foldl].
  - split; [exact Hm|]. split; [lia|]. split; [constructor|by left].
  - destruct (Math_abs_ord l Hl) as [Nl Ol].
    destruct (Math_max_ord m (Math.abs l) Hm Nl) as (Nx & Ox & Ex).
    destruct (IH _ Nx) as (Ne & Oe & Fe & Ee).
    split; [exact Ne|]. split; [lia|]. split.
    + constructor; [|exact Fe].
      apply leb_ord. split; [exact Nl|]. split; [exact Ne|]. lia.
    + destruct Ee as [Ee|(l' & Hl' & Ee)].
      * destruct Ex as [Ex|Ex].
        -- left. by rewrite Ee, Ex.
        -- right. exists l. split; [left|by rewrite Ee, Ex].
      * right. exists l'. split; [by right|exact Ee].
Qed.

(** Without a [NaN] among the lambdas, [maxAbs] is their greatest absolute
    value, and 0 for no contact. *)
Lemma maxAbs_spec (ls : list float) :
  Forall (fun l => is_nan l = false) ls ->
  Forall (fun l => (Math.abs l <=? maxAbs ls)%float = true) ls /\
  (maxAbs ls = 0%float \/ exists l, l ∈ ls /\ maxAbs ls = Math.abs l).
Proof.
  intros Hls.
  assert (Hn : Forall num ls).
  { eapply Forall_impl; [exact Hls|]. intros l. apply is_nan_num. }
  destruct (foldl_max_spec ls 0 (proj2 ord_zero) Hn) as (_ & _ & H1 & H2).
  split; [exact H1|exact H2].
Qed.
(** ** Structure of the pipeline *)

Lemma stepPhysics_phases (state : SimState) (params : Params) (hp : Heap) :
  stepPhysics state params hp =
  let '(cs, h, errs) :=
    solve (p_restitution params) (Z.to_nat (iterations params))
          (constructed state params hp) (beforeSolve state params hp) [] in
  (mkSimState (bodies state) cs (totalEnergy state) errs,
   mkHeap (integrate (bodiesOf state hp) h) (arrs hp)).
Proof. reflexivity. Qed.

Lemma sweep_fold (rest : float) (cs : list Contact) (s : Sweep) :
  let r := foldl (sweepStep rest) s cs in
  sw_done r = sw_done s ++ (sweepOnce rest (cs, sw_heap s)).1 /\
  sw_heap r = (sweepOnce rest (cs, sw_heap s)).2 /\
  sw_maxError r =
    foldl (fun m l => Math.max m (Math.abs l)) (sw_maxError s)
          (sweepLambdas rest cs (sw_heap s)).
Proof.
  revert s. induction cs as [|c cs IH]; intros s; simpl.
  - unfold sweepOnce, sweep; simpl. by rewrite app_nil_r.
  - destruct (IH (sweepStep rest s c)) as (Hd & Hh & He).
    unfold sweepOnce, sweep in *; simpl in *.
    destruct (IH (sweepStep rest (mkSweep [] (sw_heap s) 0) c)) as (Hd' & Hh' & _).
    rewrite Hd, Hh, He, Hd', Hh'.
    unfold sweepStep; simpl.
    destruct (solveContact rest (sw_heap s) c) as [c' h'] eqn:E; simpl.
    by rewrite <- app_assoc.
Qed.

Lemma sweep_maxError (rest : float) (cs : list Contact) (h : list Body) :
  sw_maxError (sweep rest cs h) = maxAbs (sweepLambdas rest cs h).
Proof. apply (sweep_fold rest cs (mkSweep [] h 0)). Qed.

Lemma sweepLambdas_length (rest : float) (cs : list Contact) (h : list Body) :
  length (sweepLambdas rest cs h) = length cs.
Proof. revert h; induction cs as [|c cs IH]; intros h; simpl; [done|by rewrite IH]. Qed.

Lemma sweep_done_length (rest : float) (cs : list Contact) (s : Sweep) :
  length (sw_done (foldl (sweepStep rest) s cs)) = (length (sw_done s) + length cs)%nat.
Proof.
  revert s. induction cs as [|c cs IH]; intros s; simpl; [lia|].
  rewrite IH. unfold sweepStep.
  destruct (solveContact rest (sw_heap s) c) as [c' h']; simpl.
  rewrite length_app; simpl. lia.
Qed.

Lemma sweepOnce_length (rest : float) (cs : list Contact) (h : list Body) :
  length (sweepOnce rest (cs, h)).1 = length cs.
Proof. unfold sweepOnce, sweep; simpl. by rewrite sweep_done_length. Qed.

Lemma solve_iter (rest : float) (n : nat) (cs : list Contact) (h : list Body)
    (errs : list float) :
  solve rest n cs h errs =
  ((Nat.iter n (sweepOnce rest) (cs, h)).1,
   (Nat.iter n (sweepOnce rest) (cs, h)).2,
   errs ++ map (fun k => let st := Nat.iter k (sweepOnce rest) (cs, h) in
                         maxAbs (sweepLambdas rest st.1 st.2)) (seq 0 n)).
Proof.
  revert cs h errs. induction n as [|n IH]; intros cs h errs.
  - simpl. by rewrite app_nil_r.
  - cbn [solve]. rewrite IH, sweep_maxError.
    rewrite !Nat.iter_succ_r. change (sweepOnce rest (cs, h)) with
      (sw_done (sweep rest cs h), sw_heap (sweep rest cs h)).
    f_equal. rewrite <- app_assoc. f_equal. cbn [seq map app].
    f_equal. rewrite <- seq_shift, map_map. apply map_ext. intros k.
    by rewrite Nat.iter_succ_r.
Qed.

(** ** Contact construction *)

Lemma wallContactsOf_spec (rest : float) (h : list Body) (r : ref) (c : Contact) :
  c ∈ wallContactsOf rest h r ->
  bodyA c = r /\ bodyB c = None /\ impulseAcc c = 0%float /\
  effectiveMass c = (1 / invMass (h !!! r))%float /\
  bias c = baumgarte (penetration c).
Proof.
  unfold wallContactsOf. rewrite !elem_of_app.
  intros [H|[H|[H|H]]];
    match type of H with context [if ?b then _ else _] => destruct b end;
    try (by apply elem_of_nil in H);
    apply list_elem_of_singleton in H; subst c; done.
Qed.

Lemma pairContact_spec (warm : bool) (prev : list Contact) (h : list Body)
    (ra rb : ref) (c : Contact) :
  c ∈ pairContact warm prev h ra rb ->
  bodyA c = ra /\ bodyB c = Some rb /\
  impulseAcc c = initialImpulse warm prev h (idThrough h ra) (idThrough h rb) /\
  bias c = baumgarte (penetration c) /\
  (isStatic (h !!! ra) && isStatic (h !!! rb) = false).
Proof.
  unfold pairContact.
  destruct (isStatic (h !!! ra) && isStatic (h !!! rb)) eqn:Hs;
    [by intros ?%elem_of_nil|].
  destruct (_ <? _)%float; [|by intros ?%elem_of_nil].
  intros ->%list_elem_of_singleton. done.
Qed.

Lemma pairContacts_spec (warm : bool) (prev : list Contact) (h : list Body)
    (bs : list ref) (c : Contact) :
  c ∈ pairContacts warm prev h bs ->
  exists ra rb, ra ∈ bs /\ rb ∈ bs /\ c ∈ pairContact warm prev h ra rb.
Proof.
  induction bs as [|r bs IH]; simpl; [by intros ?%elem_of_nil|].
  rewrite elem_of_app, list_elem_of_In, in_flat_map.
  intros [(rb & Hrb & Hc)|Hc].
  - exists r, rb. rewrite <- !list_elem_of_In in *.
    split; [left|split; [by right|done]].
  - destruct (IH Hc) as (ra & rb & Ha & Hb & Hc').
    exists ra, rb. split; [by right|split; [by right|done]].
Qed.

Lemma detect_spec (p : Params) (prev : list Contact) (bs : list ref)
    (h : list Body) (c : Contact) :
  c ∈ detect p prev bs h ->
  (exists r, r ∈ bs /\ c ∈ wallContactsOf (p_restitution p) h r) \/
  (exists ra rb, ra ∈ bs /\ rb ∈ bs /\ c ∈ pairContact (warmStarting p) prev h ra rb).
Proof.
  unfold detect, wallContacts. rewrite elem_of_app, list_elem_of_In, in_flat_map.
  intros [(r & Hr & Hc)|Hc].
  - left. exists r. by rewrite <- !list_elem_of_In in *.
  - right. by apply pairContacts_spec.
Qed.


Lemma samePair_unordered (h : list Body) (a b : Z) (c : Contact) :
  samePair h a b c = samePair h b a c.
Proof. unfold samePair. destruct (bodyB c); [apply orb_comm|done]. Qed.





#[global] Instance sameConstraint_refl : Reflexive sameConstraint.
Proof. intros c. by repeat split. Qed.

#[global] Instance sameConstraint_trans : Transitive sameConstraint.
Proof.
  unfold sameConstraint. intros c1 c2 c3 (?&?&?&?&?&?&?) (?&?&?&?&?&?&?).
  repeat split; congruence.
Qed.

Lemma sweepOnce_cons (rest : float) (c : Contact) (cs : list Contact) (h : list Body) :
  sweepOnce rest (c :: cs, h) =
  ((solveContact rest h c).1 :: (sweepOnce rest (cs, (solveContact rest h c).2)).1,
   (sweepOnce rest (cs, (solveContact rest h c).2)).2).
Proof.
  unfold sweepOnce, sweep; simpl.
  destruct (sweep_fold rest cs (sweepStep rest (mkSweep [] h 0) c)) as (Hd & Hh & _).
  rewrite Hd, Hh. unfold sweepStep; simpl.
  destruct (solveContact rest h c) as [c' h']; simpl.
  unfold sweepOnce, sweep; simpl. reflexivity.
Qed.

Lemma sweepOnce_sameConstraint (rest : float) (cs : list Contact) (h : list Body) :
  Forall2 sameConstraint cs (sweepOnce rest (cs, h)).1.
Proof.
  revert h. induction cs as [|c cs IH]; intros h.
  - constructor.
  - rewrite sweepOnce_cons. simpl. constructor; [|apply IH].
    unfold solveContact; simpl. by repeat split.
Qed.

Lemma sweeps_sameConstraint (rest : float) (n : nat) (cs : list Contact) (h : list Body) :
  Forall2 sameConstraint cs (Nat.iter n (sweepOnce rest) (cs, h)).1.
Proof.
  induction n as [|n IH]; simpl; [reflexivity|].
  destruct (Nat.iter n (sweepOnce rest) (cs, h)) as [cs' h'] eqn:E.
  etrans; [exact IH|]. apply sweepOnce_sameConstraint.
Qed.

Lemma stepPhysics_contacts (state : SimState) (params : Params) (hp : Heap) :
  contacts (stepPhysics state params hp).1 =
    (sweepStart state params hp (Z.to_nat (iterations params))).1 /\
  solverErrors (stepPhysics state params hp).1 =
    map (fun k => maxAbs (sweepLambdas (p_restitution params)
                            (sweepStart state params hp k).1
                            (sweepStart state params hp k).2))
        (seq 0 (Z.to_nat (iterations params))).
Proof.
  rewrite stepPhysics_phases, solve_iter. simpl. done.
Qed.

(** ** The store: writes through references *)

Lemma alter_same {A} (f : A -> A) (i : nat) (l : list A) (a : A) :
  l !! i = Some a -> f a = a -> alter f i l = l.
Proof.
  intros Hl Hf. apply list_eq. intros j. destruct (decide (j = i)) as [->|Hne].
  - by rewrite list_lookup_alter_eq, Hl; simpl; rewrite Hf.
  - by rewrite list_lookup_alter_ne.
Qed.

Lemma foldl_alter_notin {A} (f : A -> A) (bs : list nat) (h : list A) (r : nat) :
  r ∉ bs -> foldl (fun h r => alter f r h) h bs !! r = h !! r.
Proof.
  revert h. induction bs as [|r' bs IH]; intros h Hr; simpl; [done|].
  apply not_elem_of_cons in Hr as [Hne Hr].
  rewrite IH by done. by rewrite list_lookup_alter_ne.
Qed.

(** A loop [forEach] over an array in which the reference [r] occurs once
    applies the body of the loop once to the object behind [r]. *)
Lemma foldl_alter_once {A} (f : A -> A) (l1 l2 : list nat) (h : list A) (r : nat) :
  r ∉ l1 -> r ∉ l2 ->
  foldl (fun h r => alter f r h) h (l1 ++ r :: l2) !! r = f <$> h !! r.
Proof.
  intros H1 H2. rewrite foldl_app. simpl.
  rewrite foldl_alter_notin by done.
  rewrite list_lookup_alter_eq. by rewrite foldl_alter_notin.
Qed.

Lemma lookup_ref (h : list Body) (r : ref) (b : Body) :
  h !! r = Some b -> h !!! r = b.
Proof. apply list_lookup_total_correct. Qed.

(** ** Phases that write velocities only *)


#[global] Instance sameButVel_refl : Reflexive sameButVel.
Proof. intros []. reflexivity. Qed.

#[global] Instance sameButVel_trans : Transitive sameButVel.
Proof. intros [] [] [] H1 H2. unfold sameButVel, setVel in *; simpl in *. congruence. Qed.

Lemma sameButVel_setVel (v : Vec2) (b : Body) : sameButVel b (setVel v b).
Proof. reflexivity. Qed.

Lemma sameButVel_gravityBody (g : float) (b : Body) : sameButVel b (gravityBody g b).
Proof.
  unfold gravityBody. destruct (_ || _); [reflexivity|apply sameButVel_setVel].
Qed.


#[global] Instance velOnly_refl : Reflexive velOnly.
Proof. intros h. induction h; constructor; [reflexivity|done]. Qed.

#[global] Instance velOnly_trans : Transitive velOnly.
Proof.
  intros h1 h2 h3 H12. revert h3.
  induction H12 as [|b1 b2 h1 h2 Hb _ IH]; intros h3 H23; [done|].
  inversion H23 as [|? b3 ? h3' Hb' H23']; subst.
  constructor; [by etrans|by apply IH].
Qed.

Lemma velOnly_alter (f : Body -> Body) (i : nat) (h : list Body) :
  (forall b, sameButVel b (f b)) -> velOnly h (alter f i h).
Proof.
  intros Hf. revert i. induction h as [|b h IH]; intros i; [constructor|].
  destruct i as [|i]; simpl.
  - constructor; [apply Hf|reflexivity].
  - constructor; [reflexivity|apply IH].
Qed.

Lemma velOnly_assignVel (r : ref) (v : Vec2) (h : list Body) :
  velOnly h (assignVel r v h).
Proof. apply velOnly_alter. intros b. apply sameButVel_setVel. Qed.

Lemma velOnly_foldl {A} (step : list Body -> A -> list Body) (l : list A) (h : list Body) :
  (forall h a, velOnly h (step h a)) -> velOnly h (foldl step h l).
Proof.
  intros Hs. revert h. induction l as [|a l IH]; intros h; simpl; [reflexivity|].
  etrans; [apply Hs|apply IH].
Qed.

Lemma velOnly_applyGravity (g : float) (bs : list ref) (h : list Body) :
  velOnly h (applyGravity g bs h).
Proof.
  apply velOnly_foldl. intros h' r. apply velOnly_alter.
  intros b. apply sameButVel_gravityBody.
Qed.

Lemma velOnly_warmApply (h : list Body) (c : Contact) : velOnly h (warmApply h c).
Proof.
  unfold warmApply. destruct (bodyB c).
  - etrans; apply velOnly_assignVel.
  - apply velOnly_assignVel.
Qed.

Lemma velOnly_warmStart (warm : bool) (cs : list Contact) (h : list Body) :
  velOnly h (warmStart warm cs h).
Proof.
  unfold warmStart. destruct warm; [|reflexivity].
  apply velOnly_foldl. apply velOnly_warmApply.
Qed.

Lemma velOnly_solveContact (rest : float) (h : list Body) (c : Contact) :
  velOnly h (solveContact rest h c).2.
Proof.
  unfold solveContact. cbn [snd]. destruct (bodyB c).
  - etrans; apply velOnly_assignVel.
  - apply velOnly_assignVel.
Qed.

Lemma velOnly_sweepOnce (rest : float) (cs : list Contact) (h : list Body) :
  velOnly h (sweepOnce rest (cs, h)).2.
Proof.
  revert h. induction cs as [|c cs IH]; intros h.
  - reflexivity.
  - rewrite sweepOnce_cons. cbn [snd].
    etrans; [apply velOnly_solveContact|apply IH].
Qed.

Lemma velOnly_sweeps (rest : float) (n : nat) (cs : list Contact) (h : list Body) :
  velOnly h (Nat.iter n (sweepOnce rest) (cs, h)).2.
Proof.
  induction n as [|n IH]; simpl; [reflexivity|].
  destruct (Nat.iter n (sweepOnce rest) (cs, h)) as [cs' h'] eqn:E.
  etrans; [exact IH|]. apply velOnly_sweepOnce.
Qed.


Lemma stepPhysics_store (state : SimState) (params : Params) (hp : Heap) :
  objs (stepPhysics state params hp).2 =
  integrate (bodiesOf state hp) (afterSolve state params hp).
Proof. rewrite stepPhysics_phases, solve_iter. reflexivity. Qed.

Lemma velOnly_afterSolve (state : SimState) (params : Params) (hp : Heap) :
  velOnly (objs hp) (afterSolve state params hp).
Proof.
  unfold afterSolve, sweepStart.
  etrans; [apply velOnly_applyGravity|].
  etrans; [apply velOnly_warmStart|]. apply velOnly_sweeps.
Qed.

Lemma velOnly_lookup (h h' : list Body) (r : ref) (b : Body) :
  velOnly h h' -> h !! r = Some b ->
  exists b', h' !! r = Some b' /\ sameButVel b b'.
Proof. intros Hv Hb. by apply (Forall2_lookup_l _ _ _ _ _ Hv Hb). Qed.

(** ** The integrator on one body *)

Lemma integrateBody_clamps (b : Body) :
  isStatic b = false -> (invMass b =? 0)%float = false ->
  let p := vAdd (pos b) (vScale (vel b) TIMESTEP) in
  let lx := clampLow (x p) (radius b) (x (vel b)) in
  let ly := clampLow (y p) (radius b) (y (vel b)) in
  radius (integrateBody b) = radius b /\
  x (pos (integrateBody b)) = (clampHigh widthM lx.1 (radius b) lx.2).1 /\
  x (vel (integrateBody b)) = (clampHigh widthM lx.1 (radius b) lx.2).2 /\
  y (pos (integrateBody b)) = (clampHigh heightM ly.1 (radius b) ly.2).1 /\
  y (vel (integrateBody b)) = (clampHigh heightM ly.1 (radius b) ly.2).2.
Proof.
  intros Hs Hm p lx ly. unfold integrateBody. rewrite Hs, Hm. cbn [orb].
  fold p. fold lx. fold ly.
  destruct lx as [px vx]. destruct (clampHigh widthM px (radius b) vx) as [px' vx'] eqn:Ex.
  destruct ly as [py vy]. destruct (clampHigh heightM py (radius b) vy) as [py' vy'] eqn:Ey.
  cbn [fst snd]. rewrite Ex, Ey. done.
Qed.

(** The body behind a reference that occurs once in the bodies array, at
    the end of the tick. *)
Lemma stepPhysics_body (state : SimState) (params : Params) (hp : Heap)
    (r : ref) (l1 l2 : list ref) :
  bodiesOf state hp = l1 ++ r :: l2 -> r ∉ l1 -> r ∉ l2 ->
  objs (stepPhysics state params hp).2 !! r =
    integrateBody <$> afterSolve state params hp !! r.
Proof.
  intros Hbs H1 H2. rewrite stepPhysics_store, Hbs.
  by apply foldl_alter_once.
Qed.

Lemma afterGravity_body (state : SimState) (params : Params) (hp : Heap)
    (r : ref) (l1 l2 : list ref) :
  bodiesOf state hp = l1 ++ r :: l2 -> r ∉ l1 -> r ∉ l2 ->
  afterGravity state params hp !! r = gravityBody (gravity params) <$> objs hp !! r.
Proof.
  intros Hbs H1 H2. unfold afterGravity, applyGravity. rewrite Hbs.
  by apply foldl_alter_once.
Qed.

(** A loop [forEach] over an array of references, for a property [P] of
    objects that the body of the loop preserves: the object behind [r]
    keeps [P], and when [r] occurs in the array the loop leaves behind it
    the result of the body on an object with [P]. *)
Lemma foldl_alter_inv {A} (P : A -> Prop) (f : A -> A) (bs : list nat)
    (h : list A) (r : nat) (a : A) :
  (forall a, P a -> P (f a)) -> h !! r = Some a -> P a ->
  exists a', foldl (fun h r => alter f r h) h bs !! r = Some a' /\ P a'.
Proof.
  intros Hf. revert h a. induction bs as [|r' bs IH]; intros h a Hh Ha; simpl.
  - by exists a.
  - destruct (decide (r = r')) as [<-|Hne].
    + apply (IH _ (f a)); [|by apply Hf]. by rewrite list_lookup_alter_eq, Hh.
    + apply (IH _ a); [|done]. by rewrite list_lookup_alter_ne.
Qed.

Lemma foldl_alter_last {A} (P : A -> Prop) (f : A -> A) (bs : list nat)
    (h : list A) (r : nat) (a : A) :
  (forall a, P a -> P (f a)) -> h !! r = Some a -> P a -> r ∈ bs ->
  exists a', P a' /\ foldl (fun h r => alter f r h) h bs !! r = Some (f a').
Proof.
  intros Hf. revert h a. induction bs as [|r' bs IH]; intros h a Hh Ha Hr; simpl.
  - by apply elem_of_nil in Hr.
  - destruct (decide (r ∈ bs)) as [Hin|Hout].
    + destruct (decide (r = r')) as [<-|Hne].
      * apply (IH _ (f a)); [|by apply Hf|done].
        by rewrite list_lookup_alter_eq, Hh.
      * apply (IH _ a); [|done..]. by rewrite list_lookup_alter_ne.
    + apply elem_of_cons in Hr as [<-|Hr]; [|done].
      exists a. split; [done|].
      by rewrite foldl_alter_notin, list_lookup_alter_eq, Hh.
Qed.


Lemma sameShape_integrateBody (b a : Body) :
  sameShape b a -> sameShape b (integrateBody a).
Proof.
  intros (Hr & Hs & Hm). unfold integrateBody.
  destruct (isStatic a || (invMass a =? 0)%float); [done|].
  destruct (clampLow _ _ _) as [px vx]. destruct (clampHigh _ _ _ _) as [px' vx'].
  destruct (clampLow _ _ _) as [py vy]. destruct (clampHigh _ _ _ _) as [py' vy'].
  done.
Qed.

Lemma sameButVel_sameShape (b b' : Body) : sameButVel b b' -> sameShape b b'.
Proof. intros ->. done. Qed.

(** The body behind a reference of the bodies array, at the end of the
    tick: the integrator's result on a body of the same shape. *)
Lemma stepPhysics_integrated (state : SimState) (params : Params) (hp : Heap)
    (r : ref) (b : Body) :
  r ∈ bodiesOf state hp -> objs hp !! r = Some b ->
  exists a, sameShape b a /\
    objs (stepPhysics state params hp).2 !! r = Some (integrateBody a).
Proof.
  intros Hr Hb. rewrite stepPhysics_store.
  destruct (velOnly_lookup _ _ r b (velOnly_afterSolve state params hp) Hb)
    as (bs & Hbs & Hsame).
  apply (foldl_alter_last (sameShape b) integrateBody _ _ r bs).
  - apply sameShape_integrateBody.
  - exact Hbs.
  - by apply sameButVel_sameShape.
  - exact Hr.
Qed.
(** ** A contact that asks for no impulse *)


Lemma invMass_facts (im : float) :
  (0 <? im)%float = true -> (im <? infinity)%float = true ->
  num im /\ (0 < ord im < huge)%Z /\ (im =? 0)%float = false /\
  num (1 / im) /\ (0 < ord (1 / im))%Z /\ (0 * im)%float = 0%float.
Proof.
  intros H0 H1. apply ltb_ord in H0 as (_ & Nim & Pim).
  apply ltb_ord in H1 as (_ & _ & Fim).
  rewrite (proj1 ord_zero) in Pim. rewrite ord_infinity in Fim.
  destruct (inv_pos im Nim (conj Pim Fim)) as [Ne Pe].
  split; [exact Nim|]. split; [by split|]. split.
  { destruct (im =? 0)%float eqn:E; [|done].
    apply eqb_ord in E as (_ & _ & E). rewrite (proj1 ord_zero) in E. lia. }
  split; [exact Ne|]. split; [exact Pe|].
  apply mul_zero_pos; [exact Nim|by split].
Qed.

(** The solver update of such a contact: the projection keeps the
    accumulated impulse at 0 and the velocity is rewritten with itself. *)
Lemma resting_update (v : Vec2) (im bs : float) :
  (x v <? 0)%float = true -> is_finite (y v) = true ->
  (0 <? im)%float = true -> (im <? infinity)%float = true ->
  (0 <=? bs)%float = true ->
  let cv := vDot (vSub (mkVec2 0 0) v) (mkVec2 1 0) in
  (cv <? -1.0)%float = false /\
  Math.max 0 (0 + - (1 / im) * (cv + bs + 0))%float = 0%float.
Proof.
  intros Hvx Hvy H0 H1 Hbs cv. destruct v as [vx vy]. cbn [x y] in Hvx, Hvy.
  apply is_finite_spec in Hvy as [Nvy Fvy].
  destruct (invMass_facts im H0 H1) as (Nim & Rim & _ & Ne & Pe & _).
  destruct (approach_left vx vy Hvx Nvy Fvy) as [Ncv Pcv]. fold cv in Ncv, Pcv.
  apply leb_ord in Hbs as (_ & Nbs & Pbs). rewrite (proj1 ord_zero) in Pbs.
  split.
  - destruct (cv <? -1.0)%float eqn:E; [|done].
    apply ltb_ord in E as (_ & _ & E).
    change (-1.0)%float with (PrimFloat.opp 1) in E. rewrite ord_opp, ord_one in E.
    assert (0 < 2 ^ 3000)%Z by (by apply pow2_pos). lia.
  - apply (lambda_nonpos (1 / im) cv bs); done.
Qed.

Lemma no_impulse (v : Vec2) (im d : float) :
  (0 <? im)%float = true -> (im <? infinity)%float = true -> d = 0%float ->
  vSub v (vScale (vScale (mkVec2 1 0) d) im) = v.
Proof.
  intros H0 H1 ->. destruct (invMass_facts im H0 H1) as (_ & _ & _ & _ & _ & Hz).
  destruct v as [vx vy]. unfold vSub, vScale. cbn [x y].
  change (1 * 0)%float with 0%float. change (0 * 0)%float with 0%float.
  by rewrite Hz, !sub_zero_r.
Qed.

Lemma setVel_same (b : Body) : setVel (vel b) b = b.
Proof. by destruct b. Qed.

Lemma assignVel_same (h : list Body) (r : ref) (b : Body) :
  h !! r = Some b -> assignVel r (vel b) h = h.
Proof. intros Hh. apply (alter_same _ _ _ _ Hh (setVel_same b)). Qed.

Lemma setImpulseAcc_same (c : Contact) : setImpulseAcc (impulseAcc c) c = c.
Proof. by destruct c. Qed.

Lemma solveContact_resting (rest : float) (h : list Body) (r : ref) (b : Body)
    (c : Contact) :
  h !! r = Some b -> movesLeft b -> restingLeft r b c ->
  solveContact rest h c = (c, h).
Proof.
  intros Hh (Hvx & Hvy & H0 & H1) (HA & HB & Hn & Hi & Hem & Hbs).
  pose proof (lookup_ref _ _ _ Hh) as Ht.
  destruct (resting_update (vel b) (invMass b) (bias c) Hvx Hvy H0 H1 Hbs)
    as [Hcv Hmax].
  unfold solveContact, contactLambda.
  rewrite HB, HA, Ht, Hn, Hi, Hem.
  rewrite Hcv, Hmax.
  cbn [impulseAcc setImpulseAcc].
  change (0 - 0)%float with 0%float.
  rewrite (no_impulse _ _ 0 H0 H1 eq_refl).
  rewrite (assignVel_same _ _ _ Hh).
  f_equal. rewrite <- Hi at 1. apply setImpulseAcc_same.
Qed.

Lemma solveContact_untouched (rest : float) (h : list Body) (r : ref) (c : Contact) :
  untouched r c ->
  (solveContact rest h c).2 !! r = h !! r /\ untouched r (solveContact rest h c).1.
Proof.
  intros [HA HB]. unfold solveContact, assignVel. cbn [fst snd]. split; [|done].
  destruct (bodyB c) as [rb|].
  - rewrite !list_lookup_alter_ne; [done|done|congruence].
  - by rewrite list_lookup_alter_ne.
Qed.

Lemma warmApply_untouched (h : list Body) (r : ref) (c : Contact) :
  untouched r c -> warmApply h c !! r = h !! r.
Proof.
  intros [HA HB]. unfold warmApply, assignVel.
  destruct (bodyB c) as [rb|].
  - rewrite !list_lookup_alter_ne; [done|done|congruence].
  - by rewrite list_lookup_alter_ne.
Qed.
(** ** More on the phases of a tick *)

Lemma Forall2_alter_rel {A} (R : A -> A -> Prop) `{!Reflexive R}
    (f : A -> A) (i : nat) (h : list A) :
  (forall a, R a (f a)) -> Forall2 R h (alter f i h).
Proof.
  intros Hf. revert i. induction h as [|a h IH]; intros i; [constructor|].
  destruct i as [|i]; simpl.
  - constructor; [apply Hf|reflexivity].
  - constructor; [reflexivity|apply IH].
Qed.

Lemma Forall2_foldl_alter {A} (R : A -> A -> Prop) `{!Reflexive R} `{!Transitive R}
    (f : A -> A) (bs : list nat) (h : list A) :
  (forall a, R a (f a)) -> Forall2 R h (foldl (fun h r => alter f r h) h bs).
Proof.
  intros Hf. revert h. induction bs as [|r bs IH]; intros h; simpl.
  - reflexivity.
  - eapply Forall2_trans; [|by apply Forall2_alter_rel|apply IH].
    intros a b c. apply transitivity.
Qed.

Lemma Forall_foldl_alter {A} (P : A -> Prop) (f : A -> A) (bs : list nat) (h : list A) :
  (forall a, P a -> P (f a)) -> Forall P h ->
  Forall P (foldl (fun h r => alter f r h) h bs).
Proof.
  intros Hf. revert h. induction bs as [|r bs IH]; intros h Hh; simpl; [done|].
  apply IH. apply Forall_alter; [done|]. intros a _. apply Hf.
Qed.

#[global] Instance sameIdentity_refl : Reflexive sameIdentity.
Proof. intros b. by repeat split. Qed.

#[global] Instance sameIdentity_trans : Transitive sameIdentity.
Proof.
  unfold sameIdentity. intros b1 b2 b3 (?&?&?&?&?&?&?) (?&?&?&?&?&?&?).
  repeat split; congruence.
Qed.

Lemma sameButVel_sameIdentity (b b' : Body) : sameButVel b b' -> sameIdentity b b'.
Proof. intros ->. by repeat split. Qed.

Lemma sameIdentity_integrateBody (b : Body) : sameIdentity b (integrateBody b).
Proof.
  unfold integrateBody.
  destruct (isStatic b || (invMass b =? 0)%float); [reflexivity|].
  destruct (clampLow _ _ _) as [px vx]. destruct (clampHigh _ _ _ _) as [px' vx'].
  destruct (clampLow _ _ _) as [py vy]. destruct (clampHigh _ _ _ _) as [py' vy'].
  by repeat split.
Qed.

Lemma removelast_length {A} (l : list A) :
  length (removelast l) = Nat.pred (length l).
Proof.
  induction l as [|a [|b l] IH]; [done..|].
  change (removelast (a :: b :: l)) with (a :: removelast (b :: l)).
  cbn [length] in *. by rewrite IH.
Qed.

(** The trail after the integrator's update is no longer than
    [TRAIL_LENGTH] if it was not before. *)
Lemma updateTrail_length (b : Body) :
  (length (trail b) <= TRAIL_LENGTH)%nat -> (length (updateTrail b) <= TRAIL_LENGTH)%nat.
Proof.
  intros Hb. unfold updateTrail. destruct (0.1 <? vLen (vel b))%float.
  - destruct (TRAIL_LENGTH <? length (pos b :: trail b))%nat eqn:E.
    + rewrite removelast_length. simpl. lia.
    + apply Nat.ltb_ge in E. exact E.
  - destruct (0 <? length (trail b))%nat.
    + rewrite removelast_length. lia.
    + exact Hb.
Qed.

Lemma integrateBody_trail (b : Body) :
  (length (trail b) <= TRAIL_LENGTH)%nat ->
  (length (trail (integrateBody b)) <= TRAIL_LENGTH)%nat.
Proof.
  intros Hb. unfold integrateBody.
  destruct (isStatic b || (invMass b =? 0)%float); [done|].
  destruct (clampLow _ _ _) as [px vx]. destruct (clampHigh _ _ _ _) as [px' vx'].
  destruct (clampLow _ _ _) as [py vy]. destruct (clampHigh _ _ _ _) as [py' vy'].
  cbn [trail setTrail]. by apply updateTrail_length.
Qed.

(** The references of the constructed contacts. *)
Lemma constructed_refs (state : SimState) (params : Params) (hp : Heap) (c : Contact) :
  c ∈ constructed state params hp ->
  bodyA c ∈ bodiesOf state hp /\
  (forall rb, bodyB c = Some rb ->
     rb ∈ bodiesOf state hp /\
     isStatic (afterGravity state params hp !!! bodyA c)
       && isStatic (afterGravity state params hp !!! rb) = false).
Proof.
  intros Hc. apply detect_spec in Hc as [(r & Hr & Hw)|(ra & rb & Ha & Hb & Hp)].
  - apply wallContactsOf_spec in Hw as (-> & HB & _).
    split; [done|]. intros rb. by rewrite HB.
  - apply pairContact_spec in Hp as (-> & HB & _ & _ & Hs).
    split; [done|]. intros rb'. rewrite HB. by intros [= <-].
Qed.

Lemma untouched_outside (state : SimState) (params : Params) (hp : Heap) (r : ref) :
  r ∉ bodiesOf state hp -> Forall (untouched r) (constructed state params hp).
Proof.
  intros Hr. apply Forall_forall. intros c Hc.
  destruct (constructed_refs _ _ _ _ Hc) as [HA HB]. split.
  - intros E. by rewrite E in HA.
  - intros E. by destruct (HB _ E).
Qed.

Lemma warmStart_untouched (warm : bool) (cs : list Contact) (h : list Body) (r : ref) :
  Forall (untouched r) cs -> warmStart warm cs h !! r = h !! r.
Proof.
  intros Hcs. unfold warmStart. destruct warm; [|done].
  revert h. induction Hcs as [|c cs Hc _ IH]; intros h; simpl; [done|].
  by rewrite IH, warmApply_untouched.
Qed.

Lemma sweepOnce_untouched (rest : float) (cs : list Contact) (h : list Body) (r : ref) :
  Forall (untouched r) cs ->
  Forall (untouched r) (sweepOnce rest (cs, h)).1 /\
  (sweepOnce rest (cs, h)).2 !! r = h !! r.
Proof.
  intros Hcs. revert h. induction Hcs as [|c cs Hc _ IH]; intros h.
  - split; [constructor|done].
  - rewrite sweepOnce_cons. cbn [fst snd].
    destruct (solveContact_untouched rest h r c Hc) as [Hl Hu].
    destruct (IH (solveContact rest h c).2) as [Hq Hr].
    split; [by constructor|]. etrans; [exact Hr|exact Hl].
Qed.

Lemma sweeps_untouched (rest : float) (n : nat) (cs : list Contact) (h : list Body)
    (r : ref) :
  Forall (untouched r) cs ->
  Forall (untouched r) (Nat.iter n (sweepOnce rest) (cs, h)).1 /\
  (Nat.iter n (sweepOnce rest) (cs, h)).2 !! r = h !! r.
Proof.
  intros Hcs. induction n as [|n [IH1 IH2]]; simpl; [done|].
  destruct (Nat.iter n (sweepOnce rest) (cs, h)) as [cs' h'] eqn:E.
  destruct (sweepOnce_untouched rest cs' h' r IH1) as [H1 H2].
  split; [exact H1|]. etrans; [exact H2|exact IH2].
Qed.

(** The projection: [Math.max 0 v] is never below 0. *)
Lemma Math_max_zero_not_neg (v : float) : (Math.max 0 v <? 0)%float = false.
Proof.
  destruct (Math.max 0 v <? 0)%float eqn:E; [|done].
  apply ltb_ord in E as (Nm & _ & E). rewrite (proj1 ord_zero) in E.
  unfold Math.max in *. change (is_nan 0) with false in *. cbn [orb] in *.
  destruct (is_nan v) eqn:Hn; [by destruct Nm|].
  apply is_nan_num in Hn.
  destruct (Math_max_ord 0 v (proj2 ord_zero) Hn) as (_ & Ho & _).
  unfold Math.max in Ho. change (is_nan 0) with false in Ho.
  rewrite (proj2 (is_nan_num v) Hn) in Ho. cbn [orb] in Ho.
  rewrite (proj1 ord_zero) in Ho. lia.
Qed.

Lemma sweepOnce_projected (rest : float) (cs : list Contact) (h : list Body) :
  Forall (fun c => (impulseAcc c <? 0)%float = false) (sweepOnce rest (cs, h)).1.
Proof.
  revert h. induction cs as [|c cs IH]; intros h.
  - constructor.
  - rewrite sweepOnce_cons. cbn [fst]. constructor; [|apply IH].
    unfold solveContact. cbn [fst impulseAcc setImpulseAcc].
    apply Math_max_zero_not_neg.
Qed.

(** A sweep over no contact. *)
Lemma sweeps_nil (rest : float) (n : nat) (h : list Body) :
  Nat.iter n (sweepOnce rest) ([], h) = ([], h).
Proof. induction n as [|n IH]; simpl; [done|]. by rewrite IH. Qed.

Lemma bias_of_constructed (state : SimState) (params : Params) (hp : Heap) (c : Contact) :
  c ∈ constructed state params hp -> bias c = baumgarte (penetration c).
Proof.
  intros Hc. apply detect_spec in Hc as [(r & _ & Hw)|(ra & rb & _ & _ & Hp)].
  - by apply wallContactsOf_spec in Hw as (_ & _ & _ & _ & Hw).
  - by apply pairContact_spec in Hp as (_ & _ & _ & Hp & _).
Qed.

(** The guarded reciprocal [k > 0 ? 1 / k : 0] of the body-body path. *)
Lemma guarded_inverse (k : float) :
  let em := if (0 <? k)%float then (1 / k)%float else 0%float in
  (0 <=? em)%float = true /\
  ((0 <? k)%float = true -> (k <? infinity)%float = true -> (0 <? em)%float = true) /\
  ((0 <? k)%float = false -> em = 0%float).
Proof.
  intros em. unfold em. destruct ord_zero as [Z0 N0].
  destruct (0 <? k)%float eqn:E; [|done].
  apply ltb_ord in E as (_ & Nk & Pk). rewrite Z0 in Pk.
  pose proof (ord_range k) as Rk.
  destruct (Z.eq_dec (ord k) huge) as [Eh|Nh].
  - assert (Ek : Prim2SF k = S754_infinity false).
    { destruct (sval_cases _ (Prim2SF_valid k) Nk) as [[_ F]|[[F _]|[F _]]].
      - exact F.
      - fold (ord k) in F. lia.
      - fold (ord k) in F. pose proof huge_big. pose proof big_pos. lia. }
    assert (Ez : (1 / k)%float = 0%float).
    { apply Prim2SF_inj. rewrite div_spec, Ek. reflexivity. }
    rewrite Ez. split; [reflexivity|]. split; [|done].
    intros _ Hf. apply ltb_ord in Hf as (_ & _ & Hf).
    rewrite ord_infinity in Hf. lia.
  - destruct (inv_pos k Nk) as [Ne Pe]; [lia|].
    split; [|split; [|done]].
    + apply leb_ord. split; [exact N0|]. split; [exact Ne|]. lia.
    + intros _ _. apply ltb_ord. split; [exact N0|]. split; [exact Ne|]. lia.
Qed.

Lemma pairContact_mass (warm : bool) (prev : list Contact) (h : list Body)
    (ra rb : ref) (c : Contact) :
  c ∈ pairContact warm prev h ra rb ->
  let k := (invMass (h !!! ra) + invMass (h !!! rb))%float in
  effectiveMass c = if (0 <? k)%float then (1 / k)%float else 0%float.
Proof.
  unfold pairContact.
  destruct (isStatic (h !!! ra) && isStatic (h !!! rb)); [by intros ?%elem_of_nil|].
  destruct (_ <? _)%float; [|by intros ?%elem_of_nil].
  intros ->%list_elem_of_singleton. done.
Qed.

Lemma find_filter {A} (f g : A -> bool) (l : list A) :
  (forall a, f a = true -> g a = true) -> find f (List.filter g l) = find f l.
Proof.
  intros Hfg. induction l as [|a l IH]; [done|]. simpl.
  destruct (f a) eqn:Ef.
  - rewrite (Hfg a Ef). simpl. by rewrite Ef.
  - destruct (g a); simpl; [by rewrite Ef|done].
Qed.

Lemma initialImpulse_pairs (warm : bool) (prev : list Contact) (h : list Body) (a b : Z) :
  initialImpulse warm (List.filter isPair prev) h a b = initialImpulse warm prev h a b.
Proof.
  unfold initialImpulse. destruct warm; [|done].
  rewrite find_filter; [done|].
  intros c. unfold samePair, isPair. by destruct (bodyB c).
Qed.

Lemma pairContacts_ext (warm warm' : bool) (prev prev' : list Contact)
    (h : list Body) (bs : list ref) :
  (forall a b, initialImpulse warm prev h a b = initialImpulse warm' prev' h a b) ->
  pairContacts warm prev h bs = pairContacts warm' prev' h bs.
Proof.
  intros Hi. induction bs as [|ra bs IH]; [done|]. simpl. rewrite IH. f_equal.
  apply flat_map_ext. intros rb. unfold pairContact. by rewrite Hi.
Qed.

(** Lengths. *)
Lemma wallContactsOf_length (rest : float) (h : list Body) (r : ref) :
  (length (wallContactsOf rest h r) <= 4)%nat.
Proof.
  unfold wallContactsOf. rewrite !length_app.
  repeat match goal with |- context [if ?b then _ else _] => destruct b end;
    simpl; lia.
Qed.

Lemma wallContacts_length (rest : float) (bs : list ref) (h : list Body) :
  (length (wallContacts rest bs h) <= 4 * length bs)%nat.
Proof.
  unfold wallContacts. induction bs as [|r bs IH]; simpl; [lia|].
  rewrite length_app. pose proof (wallContactsOf_length rest h r). lia.
Qed.

Lemma pairContact_length (warm : bool) (prev : list Contact) (h : list Body)
    (ra rb : ref) :
  (length (pairContact warm prev h ra rb) <= 1)%nat.
Proof.
  unfold pairContact. destruct (_ && _); [simpl; lia|].
  destruct (_ <? _)%float; simpl; lia.
Qed.

Lemma pairContacts_length (warm : bool) (prev : list Contact) (h : list Body)
    (bs : list ref) :
  (2 * length (pairContacts warm prev h bs) <= length bs * (length bs - 1))%nat.
Proof.
  induction bs as [|ra bs IH]; simpl; [lia|].
  rewrite length_app.
  assert (Hf : (length (flat_map (pairContact warm prev h ra) bs) <= length bs)%nat).
  { clear IH. induction bs as [|rb bs IH]; simpl; [lia|].
    rewrite length_app. pose proof (pairContact_length warm prev h ra rb). lia. }
  rewrite Nat.sub_0_r. nia.
Qed.

Lemma lookup_ref_none (h : list Body) (r : ref) :
  h !! r = None -> h !!! r = inhabitant.
Proof. intros E. rewrite list_lookup_total_alt. unfold ref in *. by rewrite E. Qed.

Lemma velOnly_isStatic (h h' : list Body) (r : ref) :
  velOnly h h' -> isStatic (h' !!! r) = isStatic (h !!! r).
Proof.
  intros Hv. destruct (h !! r) as [b|] eqn:E.
  - destruct (Forall2_lookup_l _ _ _ _ _ Hv E) as (b' & Hb' & Hs).
    rewrite (lookup_ref _ _ _ E), (lookup_ref _ _ _ Hb').
    apply (sameButVel_sameShape _ _ Hs).
  - assert (E' : h' !! r = None).
    { apply lookup_ge_None. rewrite <- (Forall2_length _ _ _ Hv).
      by apply lookup_ge_None. }
    by rewrite (lookup_ref_none _ _ E), (lookup_ref_none _ _ E').
Qed.

Lemma velOnly_invMass (h h' : list Body) (r : ref) :
  velOnly h h' -> invMass (h' !!! r) = invMass (h !!! r).
Proof.
  intros Hv. destruct (h !! r) as [b|] eqn:E.
  - destruct (Forall2_lookup_l _ _ _ _ _ Hv E) as (b' & Hb' & Hs).
    rewrite (lookup_ref _ _ _ E), (lookup_ref _ _ _ Hb').
    apply (sameButVel_sameShape _ _ Hs).
  - assert (E' : h' !! r = None).
    { apply lookup_ge_None. rewrite <- (Forall2_length _ _ _ Hv).
      by apply lookup_ge_None. }
    by rewrite (lookup_ref_none _ _ E), (lookup_ref_none _ _ E').
Qed.

(** ** Vector helpers *)

Lemma vLen_vSub_swap (a b : Vec2) : vLen (vSub a b) = vLen (vSub b a).
Proof.
  unfold vLen, vSub. cbn [x y].
  by rewrite (sq_sub_swap (x a) (x b)), (sq_sub_swap (y a) (y b)).
Qed.

Lemma find_ext {A} (f g : A -> bool) (l : list A) :
  (forall a, f a = g a) -> find f l = find g l.
Proof. intros Hfg. induction l as [|a l IH]; [done|]. simpl. by rewrite Hfg, IH. Qed.

Lemma initialImpulse_unordered (warm : bool) (prev : list Contact) (h : list Body) (a b : Z) :
  initialImpulse warm prev h a b = initialImpulse warm prev h b a.
Proof.
  unfold initialImpulse. destruct warm; [|done].
  by rewrite (find_ext (samePair h a b) (samePair h b a));
    [|intros c; apply samePair_unordered].
Qed.

(** [x - x] of a finite [x] is [+0]. *)
Lemma sub_diag (a : float) : is_finite a = true -> (a - a)%float = 0%float.
Proof.
  intros Hf. apply is_finite_spec in Hf as [Na Fa].
  apply Prim2SF_inj. rewrite sub_spec. unfold SF64sub.
  unfold num, not_nan, finf in *.
  destruct (Prim2SF a) as [[]| | |s m e]; try done.
  cbn [SFsub]. rewrite Z.sub_diag. reflexivity.
Qed.
(** *** Contacts that push along y only *)

Local Open Scope Z_scope.

Lemma nan_mul (a b : float) : ~ (num a /\ num b) -> ~ num (a * b).
Proof.
  intros H Hn. apply H. unfold num, not_nan in *. rewrite mul_spec in Hn.
  split; intros E; rewrite E in Hn; apply Hn; [reflexivity|].
  by destruct (Prim2SF a).
Qed.

Lemma not_num_nan (a : float) : ~ num a -> is_nan a = true.
Proof.
  intros H. destruct (is_nan a) eqn:E; [done|]. by apply is_nan_num in E.
Qed.

(** Subtracting a zero of either sign from a number that is not zero. *)
Lemma sub_zero_any (v z : float) :
  fzero z = true -> fzero v = false -> (v - z)%float = v.
Proof.
  intros Hz Hv. apply fzero_spec in Hz as [s Hz]. unfold fzero in Hv.
  apply Prim2SF_inj. rewrite sub_spec, Hz. unfold SF64sub.
  destruct (Prim2SF v) as [sv|sv| |sv m e]; try done; by destruct s.
Qed.

(** The difference of two finite numbers from 0 up is finite. *)
Lemma diff_finite (a b : float) :
  (0 <=? a)%float = true -> (a <? infinity)%float = true ->
  (0 <=? b)%float = true -> (b <? infinity)%float = true ->
  is_finite (a - b) = true.
Proof.
  intros A0 A1 B0 B1. destruct ord_zero as [Z0 _].
  apply leb_ord in A0 as (_ & Na & Pa). apply ltb_ord in A1 as (_ & _ & Fa).
  apply leb_ord in B0 as (_ & Nb & Pb). apply ltb_ord in B1 as (_ & _ & Fb).
  rewrite Z0 in Pa, Pb. rewrite ord_infinity in Fa, Fb.
  pose proof huge_nonneg as Hh.
  assert (Fb' : finf b = false) by (apply finf_false_ord; [exact Nb|lia]).
  assert (Nob : num (- b)) by (by apply num_opp).
  assert (Hc : ~ clash a (- (- b))).
  { apply no_clash_finite_l; [exact Na|]. apply finf_false_ord; [exact Na|lia]. }
  assert (Hc' : ~ clash a (- b)).
  { apply no_clash_finite_l; [exact Na|]. apply finf_false_ord; [exact Na|lia]. }
  destruct (sub_le a b a Na Nb Hc' Na) as [Ns Hle]; [lia|].
  destruct (sub_ge a b (- b) Na Nb Hc' Nob) as [_ Hge]; [rewrite ord_opp; lia|].
  rewrite ord_opp in Hge.
  apply is_finite_spec. split; [exact Ns|]. apply finf_false_ord; [exact Ns|lia].
Qed.

(** With a vertical speed that is not finite the left-wall contact
    computes [NaN]. *)
Lemma approach_left_nan (vx vy : float) :
  is_finite vy = false ->
  ~ num (vDot (vSub (mkVec2 0 0) (mkVec2 vx vy)) (mkVec2 1 0)).
Proof.
  intros Hvy. unfold vDot, vSub. cbn [x y]. apply nan_add. intros [_ Hn].
  revert Hn. unfold num, not_nan. rewrite mul_spec, sub_spec.
  change (Prim2SF 0) with (S754_zero false).
  assert (Hs : is_finite vy = true <-> num vy /\ finf vy = false) by apply is_finite_spec.
  unfold num, not_nan, finf in Hs.
  destruct (Prim2SF vy) as [s|s| |s m e].
  - exfalso. assert (is_finite vy = true) by (by apply Hs). congruence.
  - intros H. by apply H.
  - intros H. by apply H.
  - exfalso. assert (is_finite vy = true) by (by apply Hs). congruence.
Qed.

Lemma resting_needs_finite (v : Vec2) (em bs rb : float) :
  let cv := vDot (vSub (mkVec2 0 0) v) (mkVec2 1 0) in
  is_finite (Math.max 0 (0 + - em * (cv + bs + rb))) = true ->
  is_finite (y v) = true.
Proof.
  intros cv Hf. destruct (is_finite (y v)) eqn:E; [done|]. exfalso.
  destruct v as [vx vy]. cbn [y] in E.
  pose proof (approach_left_nan vx vy E) as Hcv. fold cv in Hcv.
  assert (H1 : ~ num (cv + bs)) by (apply nan_add; tauto).
  assert (H2 : ~ num (cv + bs + rb)) by (apply nan_add; tauto).
  assert (H3 : ~ num (- em * (cv + bs + rb))) by (apply nan_mul; tauto).
  assert (H4 : ~ num (0 + - em * (cv + bs + rb))) by (apply nan_add; tauto).
  apply not_num_nan in H4. unfold Math.max in Hf. rewrite H4 in Hf.
  rewrite orb_true_r in Hf. discriminate Hf.
Qed.

(** Adding a zero of either sign to a number that is not zero. *)
Lemma add_zero_any (v z : float) :
  fzero z = true -> fzero v = false -> (v + z)%float = v.
Proof.
  intros Hz Hv. apply fzero_spec in Hz as [s Hz]. unfold fzero in Hv.
  apply Prim2SF_inj. rewrite add_spec, Hz. unfold SF64add.
  destruct (Prim2SF v) as [sv|sv| |sv m e]; try done; by destruct s.
Qed.

Lemma sub_zeros (a b : float) :
  fzero a = true -> fzero b = true -> fzero (a - b) = true.
Proof.
  intros Ha Hb. apply fzero_spec in Ha as [sa Ha]. apply fzero_spec in Hb as [sb Hb].
  unfold fzero. rewrite sub_spec, Ha, Hb. by destruct sa, sb.
Qed.

Lemma eqb_zero (a : float) :
  (a =? 0)%float = true -> fzero a = true /\ is_finite a = true.
Proof.
  intros H. apply eqb_ord in H as (Na & _ & Oa). rewrite (proj1 ord_zero) in Oa.
  assert (Z : fzero a = true) by (by apply fzero_ord).
  split; [exact Z|]. apply is_finite_spec. split; [exact Na|by apply fzero_not_inf].
Qed.

Lemma range_finite (a : float) :
  (0 <=? a)%float = true -> (a <? infinity)%float = true -> is_finite a = true.
Proof.
  intros A0 A1. apply leb_ord in A0 as (_ & Na & Pa).
  apply ltb_ord in A1 as (_ & _ & Fa).
  rewrite (proj1 ord_zero) in Pa. rewrite ord_infinity in Fa.
  apply is_finite_spec. split; [exact Na|].
  apply finf_false_ord; [exact Na|]. pose proof huge_nonneg. lia.
Qed.

Lemma fzero_finite (a : float) : fzero a = true -> is_finite a = true.
Proof.
  intros Z. apply is_finite_spec. split; [|by apply fzero_not_inf].
  apply fzero_spec in Z as [s E]. unfold num, not_nan. by rewrite E.
Qed.

(** A product with a zero factor and a finite factor is a zero. *)
Lemma prod_zero (a b : float) :
  is_finite a = true -> is_finite b = true ->
  fzero a = true \/ fzero b = true -> fzero (a * b) = true.
Proof.
  intros Fa Fb Hz. apply is_finite_spec in Fa as [Na Fa].
  apply is_finite_spec in Fb as [Nb Fb]. by apply mul_zero.
Qed.

(** An impulse without x component leaves a negative [vel.x] as it is,
    subtracted or added. *)
Lemma x_kept_zero (vx im z : float) :
  (vx <? 0)%float = true ->
  (0 <? im)%float = true -> (im <? infinity)%float = true ->
  fzero z = true ->
  (vx - z * im)%float = vx /\ (vx + z * im)%float = vx.
Proof.
  intros Hvx H0 H1 Hz. destruct ord_zero as [Z0 N0].
  assert (Fim : is_finite im = true).
  { apply range_finite; [|exact H1]. apply ltb_ord in H0 as (? & ? & ?).
    apply leb_ord. split; [done|]. split; [done|]. lia. }
  assert (Z2 : fzero (z * im) = true).
  { apply prod_zero; [by apply fzero_finite|exact Fim|by left]. }
  assert (Hv : fzero vx = false).
  { apply ltb_ord in Hvx as (Nv & _ & Ov). rewrite Z0 in Ov.
    destruct (fzero vx) eqn:E; [|done]. apply (fzero_ord vx Nv) in E. lia. }
  split; [by apply sub_zero_any|by apply add_zero_any].
Qed.

Local Close Scope Z_scope.

Lemma keepsVelX_fields (b b' : Body) :
  keepsVelX b b' ->
  invMass b' = invMass b /\ isStatic b' = isStatic b /\ radius b' = radius b /\
  pos b' = pos b.
Proof. intros [-> _]. done. Qed.

Lemma keepsVelX_setVel (b b1 : Body) (v : Vec2) :
  keepsVelX b b1 -> x v = x (vel b) -> keepsVelX b (setVel v b1).
Proof.
  intros [Hs _] Hx. split; [|exact Hx].
  unfold sameButVel in *. rewrite Hs. done.
Qed.

Lemma solveContact_impulse (rest : float) (h : list Body) (c : Contact) :
  (solveContact rest h c).1 =
    setImpulseAcc (Math.max 0 (impulseAcc c + contactLambda rest h c)) c.
Proof. reflexivity. Qed.

(** What [gentle] says of a contact that refers to the body. *)
Lemma gentle_finite (r : ref) (c : Contact) :
  gentle r c -> refersTo c r -> is_finite (impulseAcc c) = true.
Proof. intros H Hr. destruct (H Hr) as (A0 & A1 & _). by apply range_finite. Qed.

(** The impulse a contact applies along x between two of its states. *)
Lemma gentle_step (r : ref) (c c' : Contact) :
  gentle r c -> gentle r c' -> refersTo c r -> refersTo c' r ->
  normal c' = normal c -> bodyB c' = bodyB c ->
  (bodyB c = None -> x (normal c) = 0%float) ->
  fzero (x (normal c) * (impulseAcc c' - impulseAcc c)) = true.
Proof.
  intros G G' R R' En Eb Hwall.
  destruct (G R) as (A0 & A1 & GB). destruct (G' R') as (B0 & B1 & GB').
  rewrite En, Eb in GB'.
  pose proof (diff_finite _ _ B0 B1 A0 A1) as Fd.
  destruct (bodyB c) as [rb|] eqn:EB.
  - destruct GB as [Fn [Zn|Za]]; [done| |].
    + apply prod_zero; [exact Fn|exact Fd|]. left. by apply eqb_zero.
    + destruct GB' as [_ [Zn|Za']]; [done| |].
      * apply prod_zero; [exact Fn|exact Fd|]. left. by apply eqb_zero.
      * apply prod_zero; [exact Fn|exact Fd|]. right.
        apply sub_zeros; by apply eqb_zero.
  - rewrite (Hwall eq_refl). apply prod_zero; [reflexivity|exact Fd|by left].
Qed.

Lemma gentle_seed (r : ref) (c : Contact) :
  gentle r c -> refersTo c r ->
  (bodyB c = None -> x (normal c) = 0%float) ->
  fzero (x (normal c) * impulseAcc c) = true.
Proof.
  intros G R Hwall. destruct (G R) as (A0 & A1 & GB).
  pose proof (range_finite _ A0 A1) as Fa.
  destruct (bodyB c) as [rb|] eqn:EB.
  - destruct GB as [Fn [Zn|Za]]; [done| |].
    + apply prod_zero; [exact Fn|exact Fa|]. left. by apply eqb_zero.
    + apply prod_zero; [exact Fn|exact Fa|]. right. by apply eqb_zero.
  - rewrite (Hwall eq_refl). apply prod_zero; [reflexivity|exact Fa|by left].
Qed.

(** Writing the velocity of the body as [bodyA] and as [bodyB]. *)
Lemma assign_A (h : list Body) (r : ref) (b b1 : Body) (n : Vec2) (d : float) :
  h !! r = Some b1 -> keepsVelX b b1 ->
  (x (vel b) <? 0)%float = true ->
  (0 <? invMass b)%float = true -> (invMass b <? infinity)%float = true ->
  fzero (x n * d) = true ->
  exists b2,
    assignVel r (vSub (vel b1) (vScale (vScale n d) (invMass b1))) h !! r = Some b2 /\
    keepsVelX b b2.
Proof.
  intros Hh Hk Hvx H0 H1 Hz. destruct (keepsVelX_fields _ _ Hk) as (Him & _).
  unfold assignVel, ref in *. rewrite list_lookup_alter_eq, Hh.
  cbn [fmap option_fmap option_map]. eexists. split; [reflexivity|].
  apply keepsVelX_setVel; [exact Hk|].
  unfold vSub, vScale. cbn [x y]. rewrite Him. destruct Hk as [_ Hx]. rewrite Hx.
  by apply x_kept_zero.
Qed.

Lemma assign_B (h : list Body) (r : ref) (b b1 : Body) (n : Vec2) (d : float) :
  h !! r = Some b1 -> keepsVelX b b1 ->
  (x (vel b) <? 0)%float = true ->
  (0 <? invMass b)%float = true -> (invMass b <? infinity)%float = true ->
  fzero (x n * d) = true ->
  exists b2,
    assignVel r (vAdd (vel b1) (vScale (vScale n d) (invMass b1))) h !! r = Some b2 /\
    keepsVelX b b2.
Proof.
  intros Hh Hk Hvx H0 H1 Hz. destruct (keepsVelX_fields _ _ Hk) as (Him & _).
  unfold assignVel, ref in *. rewrite list_lookup_alter_eq, Hh.
  cbn [fmap option_fmap option_map]. eexists. split; [reflexivity|].
  apply keepsVelX_setVel; [exact Hk|].
  unfold vAdd, vScale. cbn [x y]. rewrite Him. destruct Hk as [_ Hx]. rewrite Hx.
  by apply x_kept_zero.
Qed.

Lemma assign_other (h : list Body) (r r' : ref) (v : Vec2) :
  r' <> r -> assignVel r' v h !! r = h !! r.
Proof. intros Hne. unfold assignVel, ref in *. by rewrite list_lookup_alter_ne. Qed.

(** The left-wall contact stays as it is while its impulse stays finite. *)
Lemma solveContact_left (rest : float) (h : list Body) (r : ref) (b b1 : Body)
    (c : Contact) :
  h !! r = Some b1 -> keepsVelX b b1 ->
  (x (vel b) <? 0)%float = true ->
  (0 <? invMass b)%float = true -> (invMass b <? infinity)%float = true ->
  restingLeft r b c ->
  is_finite (impulseAcc (solveContact rest h c).1) = true ->
  solveContact rest h c = (c, h).
Proof.
  intros Hh Hk Hvx H0 H1 Hc Hf.
  destruct (keepsVelX_fields _ _ Hk) as (Him & _).
  destruct Hk as [_ Hx]. destruct Hc as (HA & HB & Hn & Hi & Hem & Hbs).
  apply (solveContact_resting rest h r b1 c Hh).
  - split; [by rewrite Hx|]. split; [|by rewrite Him].
    rewrite solveContact_impulse in Hf. cbn [impulseAcc setImpulseAcc] in Hf.
    unfold contactLambda in Hf. rewrite HB, HA, (lookup_ref _ _ _ Hh), Hn, Hi in Hf.
    exact (resting_needs_finite _ _ _ _ Hf).
  - unfold restingLeft. by rewrite Him.
Qed.

(** One solver update of a contact that gives no impulse along x. *)
Lemma solveContact_alongside (rest : float) (h : list Body) (r : ref) (b b1 : Body)
    (c : Contact) :
  h !! r = Some b1 -> keepsVelX b b1 ->
  (x (vel b) <? 0)%float = true ->
  (0 <? invMass b)%float = true -> (invMass b <? infinity)%float = true ->
  alongside r b c -> gentle r c -> gentle r (solveContact rest h c).1 ->
  alongside r b (solveContact rest h c).1 /\
  exists b2, (solveContact rest h c).2 !! r = Some b2 /\ keepsVelX b b2.
Proof.
  intros Hh Hk Hvx H0 H1 Hc G G'.
  destruct Hc as [Hc|[Hc|[Hc|[Hc|Hc]]]].
  - destruct (solveContact_untouched rest h r c Hc) as [Hl Hu].
    split; [by left|]. exists b1. by rewrite Hl.
  - assert (E : solveContact rest h c = (c, h)).
    { apply (solveContact_left rest h r b b1 c Hh Hk Hvx H0 H1 Hc).
      apply (gentle_finite r); [exact G'|]. left.
      rewrite solveContact_impulse. cbn [bodyA setImpulseAcc]. by destruct Hc. }
    rewrite E. split; [right; by left|]. by exists b1.
  - destruct Hc as (HA & HB & Hn).
    split; [right; right; left; by rewrite solveContact_impulse|].
    assert (Hz : fzero (x (normal c) *
                        (impulseAcc (solveContact rest h c).1 - impulseAcc c)) = true).
    { apply (gentle_step r c _ G G'); try (by left); try done. }
    unfold solveContact in *. cbn [fst snd impulseAcc setImpulseAcc] in *.
    rewrite HB, HA, (lookup_ref _ _ _ Hh).
    by apply (assign_A h r b b1).
  - destruct Hc as (HA & rb & HB & Hne).
    split.
    { right; right; right; left. rewrite solveContact_impulse.
      cbn [bodyA bodyB setImpulseAcc]. split; [done|]. by exists rb. }
    assert (Hz : fzero (x (normal c) *
                        (impulseAcc (solveContact rest h c).1 - impulseAcc c)) = true).
    { apply (gentle_step r c _ G G'); try (by left); try done.
      intros E. by rewrite HB in E. }
    unfold solveContact in *. cbn [fst snd impulseAcc setImpulseAcc] in *.
    rewrite HB, HA, (lookup_ref _ _ _ Hh).
    destruct (assign_A h r b b1 (normal c) _ Hh Hk Hvx H0 H1 Hz) as (b2 & Hh2 & Hk2).
    exists b2. split; [|exact Hk2]. by rewrite assign_other.
  - destruct Hc as (HA & HB).
    split.
    { right; right; right; right. rewrite solveContact_impulse.
      cbn [bodyA bodyB setImpulseAcc]. done. }
    assert (Hz : fzero (x (normal c) *
                        (impulseAcc (solveContact rest h c).1 - impulseAcc c)) = true).
    { apply (gentle_step r c _ G G'); try (by right); try done.
      intros E. by rewrite HB in E. }
    unfold solveContact in *. cbn [fst snd impulseAcc setImpulseAcc] in *.
    rewrite HB.
    set (h1 := assignVel (bodyA c) _ h).
    assert (Hh1 : h1 !! r = Some b1) by (unfold h1; by rewrite assign_other).
    rewrite (lookup_ref _ _ _ Hh1).
    by apply (assign_B h1 r b b1).
Qed.

(** The warm start of such a contact. *)
Lemma warmApply_alongside (h : list Body) (r : ref) (b b1 : Body) (c : Contact) :
  h !! r = Some b1 -> keepsVelX b b1 ->
  (x (vel b) <? 0)%float = true ->
  (0 <? invMass b)%float = true -> (invMass b <? infinity)%float = true ->
  alongside r b c -> gentle r c ->
  exists b2, warmApply h c !! r = Some b2 /\ keepsVelX b b2.
Proof.
  intros Hh Hk Hvx H0 H1 Hc G.
  destruct Hc as [Hc|[Hc|[Hc|[Hc|Hc]]]].
  - exists b1. by rewrite warmApply_untouched.
  - destruct Hc as (HA & HB & Hn & Hi & _).
    destruct (keepsVelX_fields _ _ Hk) as (Him & _).
    exists b1. split; [|exact Hk].
    unfold warmApply. rewrite HB, HA, (lookup_ref _ _ _ Hh), Hn, Hi, Him.
    rewrite (no_impulse _ _ 0 H0 H1 eq_refl).
    by rewrite (assignVel_same _ _ _ Hh).
  - destruct Hc as (HA & HB & Hn).
    assert (Hz : fzero (x (normal c) * impulseAcc c) = true).
    { apply (gentle_seed r c G); [by left|done]. }
    unfold warmApply. rewrite HB, HA, (lookup_ref _ _ _ Hh).
    by apply (assign_A h r b b1).
  - destruct Hc as (HA & rb & HB & Hne).
    assert (Hz : fzero (x (normal c) * impulseAcc c) = true).
    { apply (gentle_seed r c G); [by left|]. intros E. by rewrite HB in E. }
    unfold warmApply. rewrite HB, HA, (lookup_ref _ _ _ Hh).
    destruct (assign_A h r b b1 (normal c) _ Hh Hk Hvx H0 H1 Hz) as (b2 & Hh2 & Hk2).
    exists b2. split; [|exact Hk2]. by rewrite assign_other.
  - destruct Hc as (HA & HB).
    assert (Hz : fzero (x (normal c) * impulseAcc c) = true).
    { apply (gentle_seed r c G); [by right|]. intros E. by rewrite HB in E. }
    unfold warmApply. rewrite HB.
    set (h1 := assignVel (bodyA c) _ h).
    assert (Hh1 : h1 !! r = Some b1) by (unfold h1; by rewrite assign_other).
    rewrite (lookup_ref _ _ _ Hh1).
    by apply (assign_B h1 r b b1).
Qed.

Lemma warmStart_alongside (warm : bool) (cs : list Contact) (h : list Body)
    (r : ref) (b b1 : Body) :
  (x (vel b) <? 0)%float = true ->
  (0 <? invMass b)%float = true -> (invMass b <? infinity)%float = true ->
  Forall (alongside r b) cs -> Forall (gentle r) cs ->
  h !! r = Some b1 -> keepsVelX b b1 ->
  exists b2, warmStart warm cs h !! r = Some b2 /\ keepsVelX b b2.
Proof.
  intros Hvx H0 H1 Hcs Hg. unfold warmStart. destruct warm; [|by exists b1].
  revert h b1 Hg. induction Hcs as [|c cs Hc _ IH]; intros h b1 Hg Hh Hk; simpl.
  - by exists b1.
  - apply Forall_cons in Hg as [G Hg].
    destruct (warmApply_alongside h r b b1 c Hh Hk Hvx H0 H1 Hc G) as (b2 & Hh2 & Hk2).
    by apply (IH _ b2).
Qed.

(** One sweep that leaves gentle contacts. *)
Lemma sweepOnce_alongside (rest : float) (cs : list Contact) (h : list Body)
    (r : ref) (b b1 : Body) :
  (x (vel b) <? 0)%float = true ->
  (0 <? invMass b)%float = true -> (invMass b <? infinity)%float = true ->
  Forall (alongside r b) cs -> Forall (gentle r) cs ->
  h !! r = Some b1 -> keepsVelX b b1 ->
  Forall (gentle r) (sweepOnce rest (cs, h)).1 ->
  Forall (alongside r b) (sweepOnce rest (cs, h)).1 /\
  exists b2, (sweepOnce rest (cs, h)).2 !! r = Some b2 /\ keepsVelX b b2.
Proof.
  intros Hvx H0 H1 Hcs. revert h b1.
  induction Hcs as [|c cs Hc _ IH]; intros h b1 Hg Hh Hk Hout.
  - split; [constructor|]. by exists b1.
  - rewrite sweepOnce_cons in Hout |- *. cbn [fst snd] in Hout |- *.
    apply Forall_cons in Hout as [G' Hout]. apply Forall_cons in Hg as [G Hg].
    destruct (solveContact_alongside rest h r b b1 c Hh Hk Hvx H0 H1 Hc G G')
      as (Ha & b2 & Hh2 & Hk2).
    destruct (IH _ b2 Hg Hh2 Hk2 Hout) as [Hq Hr].
    split; [by constructor|exact Hr].
Qed.

Lemma sweeps_alongside (rest : float) (n : nat) (cs : list Contact) (h : list Body)
    (r : ref) (b b1 : Body) :
  (x (vel b) <? 0)%float = true ->
  (0 <? invMass b)%float = true -> (invMass b <? infinity)%float = true ->
  Forall (alongside r b) cs -> h !! r = Some b1 -> keepsVelX b b1 ->
  (forall k, (k <= n)%nat ->
     Forall (gentle r) (Nat.iter k (sweepOnce rest) (cs, h)).1) ->
  Forall (alongside r b) (Nat.iter n (sweepOnce rest) (cs, h)).1 /\
  exists b2, (Nat.iter n (sweepOnce rest) (cs, h)).2 !! r = Some b2 /\ keepsVelX b b2.
Proof.
  intros Hvx H0 H1 Hcs Hh Hk. induction n as [|n IH]; intros Hfin.
  - split; [exact Hcs|]. by exists b1.
  - destruct IH as (IH1 & b2 & IH2 & IH3).
    { intros k Hk'. apply Hfin. lia. }
    pose proof (Hfin n ltac:(lia)) as Gn.
    pose proof (Hfin (S n) ltac:(lia)) as Gs. rewrite Nat.iter_succ in Gs |- *.
    destruct (Nat.iter n (sweepOnce rest) (cs, h)) as [cs' h'] eqn:E.
    by apply (sweepOnce_alongside rest cs' h' r b b2).
Qed.

(** *** The contacts of a body that occurs once in the array *)

Lemma once_not_later (l1 l2 pre post : list ref) (r : ref) :
  l1 ++ r :: l2 = pre ++ r :: post -> r ∉ l1 -> r ∉ l2 -> r ∉ post.
Proof.
  revert pre. induction l1 as [|a l1 IH]; intros pre E H1 H2.
  - destruct pre as [|a pre]; simplify_eq/=; [done|].
    intros Hin. apply H2. apply elem_of_app. right. by left.
  - destruct pre as [|a' pre]; simplify_eq/=.
    + destruct H1. by left.
    + apply (IH pre); [done| |done]. intros Hin. apply H1. by right.
Qed.

Lemma pairContacts_split (warm : bool) (prev : list Contact) (h : list Body)
    (bs : list ref) (c : Contact) :
  c ∈ pairContacts warm prev h bs ->
  exists pre ra post rb,
    bs = pre ++ ra :: post /\ rb ∈ post /\ c ∈ pairContact warm prev h ra rb.
Proof.
  induction bs as [|r bs IH]; simpl; [by intros ?%elem_of_nil|].
  rewrite elem_of_app, list_elem_of_In, in_flat_map.
  intros [(rb & Hrb & Hc)|Hc].
  - exists [], r, bs, rb. rewrite <- !list_elem_of_In in *. done.
  - destruct (IH Hc) as (pre & ra & post & rb & -> & Hb & Hc').
    by exists (r :: pre), ra, post, rb.
Qed.

Lemma detect_alongside (p : Params) (prev : list Contact) (l1 l2 : list ref)
    (h : list Body) (r : ref) (b b1 : Body) :
  r ∉ l1 -> r ∉ l2 ->
  h !! r = Some b1 -> keepsVelX b b1 ->
  (x (pos b) - radius b <? 0)%float = true ->
  (radius b <=? widthM / 2)%float = true ->
  Forall (alongside r b) (detect p prev (l1 ++ r :: l2) h).
Proof.
  intros Hl1 Hl2 Hh Hk Hleft Hrad. apply Forall_forall. intros c Hc.
  destruct (keepsVelX_fields _ _ Hk) as (Him & _ & Hr & Hp).
  unfold detect in Hc. apply elem_of_app in Hc as [Hc|Hc].
  - unfold wallContacts in Hc. apply list_elem_of_In, in_flat_map in Hc as (r' & _ & Hw).
    apply list_elem_of_In in Hw.
    destruct (decide (r' = r)) as [->|Hne].
    + unfold wallContactsOf in Hw.
      rewrite (lookup_ref _ _ _ Hh), Hp, Hr, Hleft in Hw.
      destruct widthM_half as [Wp Wh].
      rewrite (no_overlap_high widthM (widthM / 2) Wp Wh) in Hw;
        [|by rewrite <- sub_ltb_zero|exact Hrad].
      rewrite app_nil_r in Hw.
      rewrite !elem_of_app in Hw. destruct Hw as [Hw|[Hw|Hw]].
      * right; right; left.
        match type of Hw with context [if ?t then _ else _] => destruct t end;
          [|by apply elem_of_nil in Hw].
        apply list_elem_of_singleton in Hw. subst c.
        split; [reflexivity|]. split; reflexivity.
      * right; right; left.
        match type of Hw with context [if ?t then _ else _] => destruct t end;
          [|by apply elem_of_nil in Hw].
        apply list_elem_of_singleton in Hw. subst c.
        split; [reflexivity|]. split; reflexivity.
      * right; left. apply list_elem_of_singleton in Hw. subst c.
        unfold restingLeft, createWallContact.
        cbn [bodyA bodyB normal impulseAcc effectiveMass bias].
        split; [done|]. split; [done|]. split; [done|]. split; [done|].
        split; [by rewrite Him|]. rewrite sub_zero_r.
        apply ltb_ord in Hleft as (Np & _ & _).
        destruct (baumgarte_steps _ Np) as (_ & _ & _ & _ & _ & Nb & Pb).
        apply leb_ord. split; [apply ord_zero|]. split; [exact Nb|].
        by rewrite (proj1 ord_zero).
    + left. apply wallContactsOf_spec in Hw as (HA & HB & _).
      split; [congruence|]. by rewrite HB.
  - apply pairContacts_split in Hc as (pre & ra & post & rb & E & Hb & Hpc).
    apply pairContact_spec in Hpc as (HA & HB & _).
    destruct (decide (ra = r)) as [->|Ha].
    + right; right; right; left. split; [exact HA|]. exists rb. split; [exact HB|].
      intros ->. by apply (once_not_later l1 l2 pre post r E).
    + destruct (decide (rb = r)) as [->|Hb'].
      * right; right; right; right. split; [congruence|exact HB].
      * left. split; [congruence|]. rewrite HB. congruence.
Qed.
(** *** A body at the left wall alone *)






(** ** The tick in two stores that hold the same world *)

Section Rename.

Variable f : ref -> ref.
Variable D : list ref.
Hypothesis f_inj : oneToOne f D.

Lemma refsWithin_spec (c : Contact) :
  refsWithin D c <-> bodyA c ∈ D /\ forall rb, bodyB c = Some rb -> rb ∈ D.
Proof.
  unfold refsWithin, contactRefs. rewrite Forall_cons. destruct (bodyB c) as [rb|].
  - rewrite Forall_singleton. split.
    + intros [H1 H2]. split; [done|]. by intros ? [= <-].
    + intros [H1 H2]. split; [done|]. by apply H2.
  - split; [intros [H1 _]; by split|]. intros [H1 _]. split; [done|constructor].
Qed.

Lemma same_total (h1 h2 : list Body) (r : ref) :
  sameObjects f D h1 h2 -> r ∈ D -> h2 !!! f r = h1 !!! r.
Proof. intros H Hr. unfold ref in *. by rewrite !list_lookup_total_alt, H. Qed.

Lemma same_alter (g : Body -> Body) (h1 h2 : list Body) (r : ref) :
  sameObjects f D h1 h2 -> r ∈ D ->
  sameObjects f D (alter g r h1) (alter g (f r) h2).
Proof.
  intros H Hr r' Hr'. unfold ref in *. destruct (decide (r' = r)) as [->|Hne].
  - by rewrite !list_lookup_alter_eq, H.
  - rewrite !list_lookup_alter_ne; [by apply H|done|].
    intros E. apply Hne. by apply f_inj.
Qed.

Lemma same_foldl_alter (g : Body -> Body) (bs : list ref) (h1 h2 : list Body) :
  Forall (fun r => r ∈ D) bs -> sameObjects f D h1 h2 ->
  sameObjects f D (foldl (fun h r => alter g r h) h1 bs)
                  (foldl (fun h r => alter g r h) h2 (map f bs)).
Proof.
  intros Hbs. revert h1 h2. induction Hbs as [|r bs Hr _ IH]; intros h1 h2 H; [done|].
  cbn [map foldl]. apply IH. by apply same_alter.
Qed.

(** *** Detection *)

Lemma wallContactsOf_rename (rest : float) (h1 h2 : list Body) (r : ref) :
  sameObjects f D h1 h2 -> r ∈ D ->
  wallContactsOf rest h2 (f r) = map (renameContact f) (wallContactsOf rest h1 r).
Proof.
  intros H Hr. unfold wallContactsOf. rewrite (same_total _ _ _ H Hr).
  rewrite !map_app.
  repeat match goal with |- context [if ?t then _ else _] => destruct t end;
    reflexivity.
Qed.

Lemma wallContacts_rename (rest : float) (bs : list ref) (h1 h2 : list Body) :
  sameObjects f D h1 h2 -> Forall (fun r => r ∈ D) bs ->
  wallContacts rest (map f bs) h2 = map (renameContact f) (wallContacts rest bs h1).
Proof.
  intros H Hbs. unfold wallContacts.
  induction Hbs as [|r bs Hr _ IH]; [done|].
  cbn [map flat_map]. by rewrite map_app, IH, (wallContactsOf_rename _ _ _ _ H Hr).
Qed.

Lemma samePair_rename (h1 h2 : list Body) (a b : Z) (c : Contact) :
  sameObjects f D h1 h2 -> refsWithin D c ->
  samePair h2 a b (renameContact f c) = samePair h1 a b c.
Proof.
  intros H Hc. apply refsWithin_spec in Hc as [HA HB].
  unfold samePair, idThrough, renameContact. cbn [bodyA bodyB].
  destruct (bodyB c) as [rb|]; [|done]. cbn [fmap option_fmap option_map].
  by rewrite (same_total _ _ _ H HA), (same_total _ _ _ H (HB rb eq_refl)).
Qed.

Lemma initialImpulse_rename (warm : bool) (prev : list Contact) (h1 h2 : list Body)
    (a b : Z) :
  sameObjects f D h1 h2 -> Forall (refsWithin D) prev ->
  initialImpulse warm (map (renameContact f) prev) h2 a b =
  initialImpulse warm prev h1 a b.
Proof.
  intros H Hprev. unfold initialImpulse. destruct warm; [|done].
  induction Hprev as [|c prev Hc _ IH]; [done|].
  cbn [map find]. rewrite (samePair_rename _ _ _ _ _ H Hc).
  destruct (samePair h1 a b c); [done|exact IH].
Qed.

Lemma pairContact_rename (warm : bool) (prev : list Contact) (h1 h2 : list Body)
    (ra rb : ref) :
  sameObjects f D h1 h2 -> Forall (refsWithin D) prev -> ra ∈ D -> rb ∈ D ->
  pairContact warm (map (renameContact f) prev) h2 (f ra) (f rb) =
  map (renameContact f) (pairContact warm prev h1 ra rb).
Proof.
  intros H Hprev Ha Hb. unfold pairContact.
  rewrite (same_total _ _ _ H Ha), (same_total _ _ _ H Hb).
  rewrite (initialImpulse_rename _ _ _ _ _ _ H Hprev).
  repeat match goal with |- context [if ?t then _ else _] => destruct t eqn:? end;
    reflexivity.
Qed.

Lemma pairContacts_rename (warm : bool) (prev : list Contact) (h1 h2 : list Body)
    (bs : list ref) :
  sameObjects f D h1 h2 -> Forall (refsWithin D) prev -> Forall (fun r => r ∈ D) bs ->
  pairContacts warm (map (renameContact f) prev) h2 (map f bs) =
  map (renameContact f) (pairContacts warm prev h1 bs).
Proof.
  intros H Hprev Hbs. induction Hbs as [|ra bs Ha Hbs IH]; [done|].
  cbn [map pairContacts]. rewrite map_app, IH. f_equal.
  clear IH. induction Hbs as [|rb bs Hb _ IH]; [done|].
  cbn [map flat_map]. by rewrite map_app, IH, (pairContact_rename _ _ _ _ _ _ H Hprev Ha Hb).
Qed.

Lemma detect_rename (p : Params) (prev : list Contact) (bs : list ref)
    (h1 h2 : list Body) :
  sameObjects f D h1 h2 -> Forall (refsWithin D) prev -> Forall (fun r => r ∈ D) bs ->
  detect p (map (renameContact f) prev) (map f bs) h2 =
  map (renameContact f) (detect p prev bs h1).
Proof.
  intros H Hprev Hbs. unfold detect.
  by rewrite map_app, (wallContacts_rename _ _ _ _ H Hbs),
    (pairContacts_rename _ _ _ _ _ H Hprev Hbs).
Qed.

Lemma detect_within (p : Params) (prev : list Contact) (bs : list ref)
    (h : list Body) :
  Forall (fun r => r ∈ D) bs -> Forall (refsWithin D) (detect p prev bs h).
Proof.
  intros Hbs. rewrite Forall_forall in Hbs. apply Forall_forall. intros c Hc.
  apply refsWithin_spec.
  destruct (detect_spec _ _ _ _ _ Hc) as [(r & Hr & Hw)|(ra & rb & Ha & Hb & Hp)].
  - apply wallContactsOf_spec in Hw as (HA & HB & _). rewrite HA, HB.
    split; [by apply Hbs|done].
  - apply pairContact_spec in Hp as (HA & HB & _). rewrite HA, HB.
    split; [by apply Hbs|]. intros ? [= <-]. by apply Hbs.
Qed.

(** *** Warm start and solver *)

Lemma warmApply_rename (h1 h2 : list Body) (c : Contact) :
  sameObjects f D h1 h2 -> refsWithin D c ->
  sameObjects f D (warmApply h1 c) (warmApply h2 (renameContact f c)).
Proof.
  intros H Hc. apply refsWithin_spec in Hc as [HA HB].
  unfold warmApply, assignVel, renameContact. cbn [bodyA bodyB normal impulseAcc].
  rewrite (same_total _ _ _ H HA).
  pose proof (same_alter
    (setVel (vSub (vel (h1 !!! bodyA c))
       (vScale (vScale (normal c) (impulseAcc c)) (invMass (h1 !!! bodyA c)))))
    _ _ _ H HA) as H1.
  destruct (bodyB c) as [rb|]; [|exact H1]. cbn [fmap option_fmap option_map].
  rewrite (same_total _ _ _ H1 (HB rb eq_refl)).
  apply same_alter; [exact H1|by apply HB].
Qed.

Lemma warmStart_rename (warm : bool) (cs : list Contact) (h1 h2 : list Body) :
  sameObjects f D h1 h2 -> Forall (refsWithin D) cs ->
  sameObjects f D (warmStart warm cs h1)
                  (warmStart warm (map (renameContact f) cs) h2).
Proof.
  intros H Hcs. unfold warmStart. destruct warm; [|exact H].
  revert h1 h2 H. induction Hcs as [|c cs Hc _ IH]; intros h1 h2 H; [done|].
  cbn [map foldl]. apply IH. by apply warmApply_rename.
Qed.

Lemma contactLambda_rename (rest : float) (h1 h2 : list Body) (c : Contact) :
  sameObjects f D h1 h2 -> refsWithin D c ->
  contactLambda rest h2 (renameContact f c) = contactLambda rest h1 c.
Proof.
  intros H Hc. apply refsWithin_spec in Hc as [HA HB].
  unfold contactLambda, renameContact. cbn [bodyA bodyB normal effectiveMass bias].
  rewrite (same_total _ _ _ H HA).
  destruct (bodyB c) as [rb|]; [|done]. cbn [fmap option_fmap option_map].
  by rewrite (same_total _ _ _ H (HB rb eq_refl)).
Qed.

Lemma solveContact_rename (rest : float) (h1 h2 : list Body) (c : Contact) :
  sameObjects f D h1 h2 -> refsWithin D c ->
  (solveContact rest h2 (renameContact f c)).1 =
    renameContact f (solveContact rest h1 c).1 /\
  sameObjects f D (solveContact rest h1 c).2 (solveContact rest h2 (renameContact f c)).2 /\
  refsWithin D (solveContact rest h1 c).1.
Proof.
  intros H Hc. pose proof (contactLambda_rename rest _ _ _ H Hc) as Hl.
  pose proof Hc as Hc'. apply refsWithin_spec in Hc as [HA HB].
  unfold solveContact. rewrite Hl. cbn [fst snd].
  split; [reflexivity|]. split.
  - unfold assignVel, renameContact.
    cbn [bodyA bodyB normal impulseAcc setImpulseAcc].
    rewrite (same_total _ _ _ H HA).
    set (d := (Math.max 0 (impulseAcc c + contactLambda rest h1 c) - impulseAcc c)%float).
    pose proof (same_alter
      (setVel (vSub (vel (h1 !!! bodyA c))
         (vScale (vScale (normal c) d) (invMass (h1 !!! bodyA c)))))
      _ _ _ H HA) as H1.
    destruct (bodyB c) as [rb|]; [|exact H1]. cbn [fmap option_fmap option_map].
    rewrite (same_total _ _ _ H1 (HB rb eq_refl)).
    apply same_alter; [exact H1|by apply HB].
  - exact Hc'.
Qed.

Lemma sweepOnce_rename (rest : float) (cs : list Contact) (h1 h2 : list Body) :
  sameObjects f D h1 h2 -> Forall (refsWithin D) cs ->
  (sweepOnce rest (map (renameContact f) cs, h2)).1 =
    map (renameContact f) (sweepOnce rest (cs, h1)).1 /\
  sameObjects f D (sweepOnce rest (cs, h1)).2
                  (sweepOnce rest (map (renameContact f) cs, h2)).2 /\
  Forall (refsWithin D) (sweepOnce rest (cs, h1)).1 /\
  sweepLambdas rest (map (renameContact f) cs) h2 = sweepLambdas rest cs h1.
Proof.
  intros H Hcs. revert h1 h2 H. induction Hcs as [|c cs Hc _ IH]; intros h1 h2 H.
  - split; [done|]. split; [exact H|]. split; [constructor|done].
  - cbn [map]. rewrite !sweepOnce_cons. cbn [fst snd sweepLambdas].
    destruct (solveContact_rename rest _ _ _ H Hc) as (E1 & E2 & E3).
    destruct (IH _ _ E2) as (I1 & I2 & I3 & I4).
    rewrite E1, I1, I4, (contactLambda_rename rest _ _ _ H Hc).
    split; [done|]. split; [exact I2|]. split; [by constructor|done].
Qed.

Lemma sweeps_rename (rest : float) (n : nat) (cs : list Contact) (h1 h2 : list Body) :
  sameObjects f D h1 h2 -> Forall (refsWithin D) cs ->
  let s1 := Nat.iter n (sweepOnce rest) (cs, h1) in
  let s2 := Nat.iter n (sweepOnce rest) (map (renameContact f) cs, h2) in
  s2.1 = map (renameContact f) s1.1 /\ sameObjects f D s1.2 s2.2 /\
  Forall (refsWithin D) s1.1.
Proof.
  intros H Hcs. induction n as [|n IH]; [done|].
  cbv zeta in *. rewrite !Nat.iter_succ.
  destruct (Nat.iter n (sweepOnce rest) (cs, h1)) as [cs1 g1].
  destruct (Nat.iter n (sweepOnce rest) (map (renameContact f) cs, h2)) as [cs2 g2].
  cbn [fst snd] in IH. destruct IH as (-> & I2 & I3).
  destruct (sweepOnce_rename rest cs1 g1 g2 I2 I3) as (S1 & S2 & S3 & _).
  done.
Qed.

(** *** The tick *)

Lemma stepPhysics_rename (s1 s2 : SimState) (params : Params) (hp1 hp2 : Heap) :
  Forall (fun r => r ∈ D) (bodiesOf s1 hp1) ->
  Forall (refsWithin D) (contacts s1) ->
  sameObjects f D (objs hp1) (objs hp2) ->
  bodiesOf s2 hp2 = map f (bodiesOf s1 hp1) ->
  contacts s2 = map (renameContact f) (contacts s1) ->
  sameObjects f D (objs (stepPhysics s1 params hp1).2)
                  (objs (stepPhysics s2 params hp2).2) /\
  contacts (stepPhysics s2 params hp2).1 =
    map (renameContact f) (contacts (stepPhysics s1 params hp1).1) /\
  solverErrors (stepPhysics s2 params hp2).1 =
    solverErrors (stepPhysics s1 params hp1).1.
Proof.
  intros Hbs Hprev H Eb Ec.
  assert (Hg : sameObjects f D (afterGravity s1 params hp1) (afterGravity s2 params hp2)).
  { unfold afterGravity, applyGravity. rewrite Eb. by apply same_foldl_alter. }
  assert (Hc : constructed s2 params hp2 =
               map (renameContact f) (constructed s1 params hp1)).
  { unfold constructed. rewrite Eb, Ec. by apply detect_rename. }
  assert (Hcw : Forall (refsWithin D) (constructed s1 params hp1)).
  { by apply detect_within. }
  assert (Hw : sameObjects f D (beforeSolve s1 params hp1) (beforeSolve s2 params hp2)).
  { unfold beforeSolve. rewrite Hc. by apply warmStart_rename. }
  assert (Hk : forall k,
    (sweepStart s2 params hp2 k).1 = map (renameContact f) (sweepStart s1 params hp1 k).1 /\
    sameObjects f D (sweepStart s1 params hp1 k).2 (sweepStart s2 params hp2 k).2 /\
    Forall (refsWithin D) (sweepStart s1 params hp1 k).1).
  { intros k. unfold sweepStart. rewrite Hc. by apply sweeps_rename. }
  destruct (stepPhysics_contacts s1 params hp1) as [C1 E1].
  destruct (stepPhysics_contacts s2 params hp2) as [C2 E2].
  rewrite !stepPhysics_store, C1, C2, E1, E2.
  split; [|split].
  - unfold integrate, afterSolve. rewrite Eb.
    apply same_foldl_alter; [exact Hbs|]. apply Hk.
  - apply Hk.
  - apply map_ext. intros k. destruct (Hk k) as (K1 & K2 & K3).
    rewrite K1. f_equal.
    by destruct (sweepOnce_rename (p_restitution params) _ _ _ K2 K3) as (_ & _ & _ & ->).
Qed.

End Rename.

Lemma stepPhysics_array (state : SimState) (params : Params) (hp : Heap) :
  bodiesOf (stepPhysics state params hp).1 (stepPhysics state params hp).2 =
    bodiesOf state hp /\
  totalEnergy (stepPhysics state params hp).1 = totalEnergy state.
Proof.
  unfold bodiesOf, stepPhysics.
  destruct (solve _ _ _ _ _) as [[cs h] errs]. done.
Qed.

Lemma stateRefs_spec (state : SimState) (hp : Heap) :
  Forall (fun r => r ∈ stateRefs state hp) (bodiesOf state hp) /\
  Forall (refsWithin (stateRefs state hp)) (contacts state).
Proof.
  unfold stateRefs. split.
  - apply Forall_forall. intros r Hr. apply elem_of_app. by left.
  - apply Forall_forall. intros c Hc. apply Forall_forall. intros r Hr.
    apply elem_of_app. right. apply list_elem_of_In, in_flat_map.
    exists c. by rewrite <- !list_elem_of_In.
Qed.
(** ** The arithmetic of the body factory *)

Local Open Scope Z_scope.

Lemma abs_ord_absval (a : float) : Z.abs (ord a) = absval (Prim2SF a).
Proof.
  unfold ord, sval. pose proof (absval_nonneg (Prim2SF a)).
  destruct (is_neg (Prim2SF a)); lia.
Qed.

Lemma finite_shape (a : float) :
  num a -> finf a = false ->
  (exists s, Prim2SF a = S754_zero s) \/
  (exists s m e, Prim2SF a = S754_finite s m e /\ bounded prec emax m e = true).
Proof.
  intros Na Fa. pose proof (Prim2SF_valid a) as Va.
  unfold num, not_nan, finf in *.
  destruct (Prim2SF a) as [s|s| |s m e]; try done.
  - left. by exists s.
  - right. by exists s, m, e.
Qed.

(** The magnitude of a product of finite numbers. *)
Theorem mul_abs_le (a b c : float) :
  num a -> num b -> finf a = false -> finf b = false -> num c ->
  Z.abs (ord a) * Z.abs (ord b) <= Z.abs (ord c) * 2 ^ 3000 ->
  num (a * b) /\ Z.abs (ord (a * b)) <= Z.abs (ord c).
Proof.
  intros Na Nb Fa Fb Nc Hle.
  destruct (mul_ord_sign a b Na Nb) as (Nm & _); [by left|by left|].
  split; [exact Nm|]. rewrite !abs_ord_absval in *.
  rewrite mul_spec. unfold SF64mul.
  pose proof (absval_nonneg (Prim2SF c)) as Hc0.
  destruct (finite_shape a Na Fa) as [[sa Ea]|(sa & ma & ea & Ea & Ba)];
    destruct (finite_shape b Nb Fb) as [[sb Eb]|(sb & mb & eb & Eb & Bb)];
    rewrite Ea, Eb in *; cbn [SFmul absval]; try done.
  apply SFmul_upper; try done. apply Prim2SF_valid.
Qed.

(** A draw: a number in [0, 1). *)
Lemma draw_facts (u : float) :
  (0 <=? u)%float = true -> (u <? 1)%float = true ->
  num u /\ 0 <= ord u < 2 ^ 3000 /\ finf u = false.
Proof.
  intros H0 H1. apply leb_ord in H0 as (_ & Nu & P0). apply ltb_ord in H1 as (_ & _ & P1).
  rewrite (proj1 ord_zero) in P0. rewrite ord_one in P1.
  destruct (pos_finite_facts 1 eq_refl) as (_ & R1 & _). rewrite ord_one in R1.
  pose proof huge_big. pose proof (finf_false_ord u Nu) as G.
  set (U := 2 ^ 3000) in *. clearbody U.
  split; [exact Nu|]. split; [lia|]. apply G. lia.
Qed.

(** [u * c] for a draw [u] and a positive constant [c]. *)
Lemma draw_scaled (u c : float) :
  (0 <=? u)%float = true -> (u <? 1)%float = true -> pos_finite c = true ->
  num (u * c) /\ 0 <= ord (u * c) <= ord c /\ finf (u * c) = false.
Proof.
  intros H0 H1 Hc. destruct (draw_facts u H0 H1) as (Nu & Ru & Fu).
  destruct (pos_finite_facts c Hc) as (Nc & Rc & Fc & _).
  pose proof (mul_le u c c Nu Nc) as G. pose proof huge_big.
  set (U := 2 ^ 3000) in *. clearbody U.
  destruct G as (Nm & Rm); [lia|lia|exact Fu|exact Fc|exact Nc|lia| |].
  { rewrite (Z.mul_comm (ord c)). apply Z.mul_le_mono_nonneg_r; lia. }
  split; [exact Nm|]. split; [exact Rm|].
  apply finf_false_ord; [exact Nm|lia].
Qed.

(** [u * c + d] lies between [d] and [top] when [c + d <= top]. *)
Lemma draw_affine (u c d top : float) :
  (0 <=? u)%float = true -> (u <? 1)%float = true ->
  pos_finite c = true -> pos_finite d = true -> num top ->
  ord c + ord d <= ord top ->
  (d <=? u * c + d)%float = true /\ (u * c + d <=? top)%float = true.
Proof.
  intros H0 H1 Hc Hd Nt Hle.
  destruct (draw_scaled u c H0 H1 Hc) as (Nm & Rm & Fm).
  destruct (pos_finite_facts d Hd) as (Nd & Rd & Fd & _).
  destruct (add_ge (u * c) d d Nm Nd) as [Ns Hs]; [by apply no_clash_finite_r|done|lia|].
  destruct (add_le (u * c) d top Nm Nd) as [_ Ht]; [by apply no_clash_finite_r|done|lia|].
  split; apply leb_ord; by repeat split.
Qed.

Lemma radius_range (u : float) :
  (0 <=? u)%float = true -> (u <? 1)%float = true ->
  (0.4 <=? 0.4 + u * 0.4)%float = true /\ (0.4 + u * 0.4 <=? 0.8)%float = true.
Proof.
  intros H0 H1. rewrite (add_comm 0.4).
  apply draw_affine; [exact H0|exact H1|reflexivity|reflexivity|done|].
  vm_compute. discriminate.
Qed.

(** The mass and the inverse mass of a disk of radius between 0.4 and
    0.8. *)
Lemma mass_range (r : float) :
  (0.4 <=? r)%float = true -> (r <=? 0.8)%float = true ->
  let m := (r * r * Math_PI)%float in
  (0.25 <=? m)%float = true /\ (m <=? 4)%float = true /\
  (0 <? 1 / m)%float = true /\ (1 / m <=? 4)%float = true.
Proof.
  intros Hl Hu m.
  apply leb_ord in Hl as (_ & Nr & Hl). apply leb_ord in Hu as (_ & _ & Hu).
  destruct (pos_finite_facts 0.4 eq_refl) as (_ & [P4 _] & _).
  destruct (pos_finite_facts 0.8 eq_refl) as (_ & [_ R8] & _).
  destruct (pos_finite_facts Math_PI eq_refl) as (Np & [Pp Rp] & Fp & _).
  destruct (pos_finite_facts 0.125 eq_refl) as (Ne & [Pe Re] & Fe & _).
  destruct (pos_finite_facts 0.25 eq_refl) as (Nq & [Pq Rq] & Fq & _).
  destruct (pos_finite_facts 1 eq_refl) as (N1 & [P1 R1] & F1 & _).
  destruct (pos_finite_facts 4 eq_refl) as (Nf & [Pf Rf] & Ff & _).
  destruct ord_zero as [Z0 N0].
  pose proof huge_big as Hh. pose proof big_pos as Hb.
  assert (C1 : ord 0.125 * 2 ^ 3000 <= ord 0.4 * ord 0.4) by (vm_compute; discriminate).
  assert (C2 : ord 0.8 * ord 0.8 <= ord 1 * 2 ^ 3000) by (vm_compute; discriminate).
  assert (C3 : ord 0.25 * 2 ^ 3000 <= ord 0.125 * ord Math_PI) by (vm_compute; discriminate).
  assert (C4 : ord 1 * ord Math_PI <= ord 4 * 2 ^ 3000) by (vm_compute; discriminate).
  assert (C5 : ord 1 * 2 ^ 3000 <= ord 4 * ord 0.25) by (vm_compute; discriminate).
  pose proof (mul_ge r r 0.125 Nr Nr) as G1.
  pose proof (mul_le r r 1 Nr Nr) as G2.
  pose proof (fun N => mul_ge (r * r) Math_PI 0.25 N Np) as G3.
  pose proof (fun N => mul_le (r * r) Math_PI 4 N Np) as G4.
  pose proof (div_le 1 (r * r * Math_PI) 4 N1) as G5.
  pose proof (inv_pos (r * r * Math_PI)) as G6.
  pose proof (finf_false_ord r Nr) as G7.
  pose proof (finf_false_ord (r * r)) as G8.
  pose proof (finf_false_ord (r * r * Math_PI)) as G9.
  fold m in G5, G6, G9.
  set (U := 2 ^ 3000) in *. clearbody U.
  remember (ord 0.4) as oa eqn:Ea. remember (ord 0.8) as ob eqn:Eb.
  remember (ord Math_PI) as op eqn:Ep. remember (ord 0.125) as oe eqn:Ee.
  remember (ord 0.25) as oq eqn:Eq. remember (ord 1) as o1 eqn:E1.
  remember (ord 4) as o4 eqn:E4.
  assert (Fr : finf r = false) by (apply G7; lia).
  assert (Hrr1 : oa * oa <= ord r * ord r) by (apply Z.mul_le_mono_nonneg; lia).
  assert (Hrr2 : ord r * ord r <= ob * ob) by (apply Z.mul_le_mono_nonneg; lia).
  destruct G1 as (Ns & Ls); [lia|lia|exact Fr|exact Fr|exact Ne|lia|exact Fe|lia|].
  destruct G2 as (_ & _ & Us); [lia|lia|exact Fr|exact Fr|exact N1|lia|lia|].
  assert (Fs : finf (r * r) = false) by (apply G8; [exact Ns|lia]).
  assert (Hm1 : oe * op <= ord (r * r) * op) by (apply Z.mul_le_mono_nonneg_r; lia).
  assert (Hm2 : ord (r * r) * op <= o1 * op) by (apply Z.mul_le_mono_nonneg_r; lia).
  destruct (G3 Ns) as (Nm & Lm); [lia|lia|exact Fs|exact Fp|exact Nq|lia|exact Fq|lia|].
  destruct (G4 Ns) as (_ & _ & Um); [lia|lia|exact Fs|exact Fp|exact Nf|lia|lia|].
  fold m in Nm, Lm, Um.
  assert (Fm : finf m = false) by (apply G9; [exact Nm|lia]).
  destruct (G6 Nm) as [Ni Pi]; [lia|].
  assert (Hq : o4 * oq <= o4 * ord m) by (apply Z.mul_le_mono_nonneg_l; lia).
  destruct (G5 Nm) as (_ & _ & Ui); [lia|lia|exact F1|exact Fm|exact Nf|lia|lia|].
  subst oq o4.
  split; [apply leb_ord; split; [exact Nq|split; [exact Nm|exact Lm]]|].
  split; [apply leb_ord; split; [exact Nm|split; [exact Nf|exact Um]]|].
  split; [apply ltb_ord; split; [exact N0|split; [exact Ni|]]|].
  - by rewrite Z0.
  - apply leb_ord. split; [exact Ni|split; [exact Nf|exact Ui]].
Qed.

(** A velocity component [(u - 0.5) * 8]. *)
Lemma velocity_range (u : float) :
  (0 <=? u)%float = true -> (u <? 1)%float = true ->
  (-4 <=? (u - 0.5) * 8)%float = true /\ ((u - 0.5) * 8 <=? 4)%float = true.
Proof.
  intros H0 H1. destruct (draw_facts u H0 H1) as (Nu & Ru & Fu).
  destruct (pos_finite_facts 0.5 eq_refl) as (Nh & Rh & Fh & _).
  destruct (pos_finite_facts 8 eq_refl) as (N8 & R8 & F8 & _).
  destruct (pos_finite_facts 4 eq_refl) as (N4 & R4 & F4 & _).
  pose proof huge_big as Hh. pose proof big_pos as Hb.
  assert (Nn : num (-0.5)%float) by (intros E; discriminate E).
  assert (Nm : num (-4)%float) by (intros E; discriminate E).
  assert (On : ord (-0.5)%float = - ord 0.5) by (vm_compute; reflexivity).
  assert (C1 : 2 ^ 3000 = 2 * ord 0.5) by (vm_compute; reflexivity).
  assert (C2 : ord 0.5 * ord 8 = ord 4 * 2 ^ 3000) by (vm_compute; reflexivity).
  assert (O4 : ord (-4)%float = - ord 4) by (vm_compute; reflexivity).
  pose proof (sub_ge u 0.5 (-0.5) Nu Nh) as G1.
  pose proof (sub_le u 0.5 0.5 Nu Nh) as G2.
  pose proof (fun N F => mul_abs_le (u - 0.5) 8 4 N N8 F F8 N4) as G3.
  pose proof (finf_false_ord (u - 0.5)) as G4.
  set (U := 2 ^ 3000) in *. clearbody U.
  destruct G1 as [Na La]; [by apply no_clash_finite_l|exact Nn|lia|].
  destruct G2 as [_ Ua]; [by apply no_clash_finite_l|exact Nh|lia|].
  assert (Fa : finf (u - 0.5) = false) by (apply G4; [exact Na|lia]).
  destruct (G3 Na Fa) as [Nv Hv].
  { rewrite (Z.abs_eq (ord 8)), (Z.abs_eq (ord 4)), <- C2 by lia.
    apply Z.mul_le_mono_nonneg_r; lia. }
  rewrite (Z.abs_eq (ord 4)) in Hv by lia.
  split; apply leb_ord.
  - split; [exact Nm|]. split; [exact Nv|]. rewrite O4. lia.
  - split; [exact Nv|]. split; [exact N4|]. lia.
Qed.

Local Close Scope Z_scope.

Local Open Scope Z_scope.

(** A centre at least 1 from two opposite walls and a radius of at most
    0.8: no overlap with either wall. *)
Lemma inside_no_overlap (p r top side : float) :
  (1 <=? p)%float = true -> (p <=? top)%float = true ->
  (r <=? 0.8)%float = true ->
  num side -> ord top + ord 0.8 <= ord side ->
  (p - r <? 0)%float = false /\ (side <? p + r)%float = false.
Proof.
  intros H1 H2 H3 Ns Hle.
  apply leb_ord in H1 as (_ & Np & L1). apply leb_ord in H2 as (_ & Nt & L2).
  apply leb_ord in H3 as (Nr & N8 & L3).
  assert (C : ord 0.8 < ord 1) by (vm_compute; reflexivity).
  split.
  - rewrite sub_ltb_zero. destruct (p <? r)%float eqn:E; [|done].
    apply ltb_ord in E as (_ & _ & E). lia.
  - destruct (side <? p + r)%float eqn:E; [|done].
    apply ltb_ord in E as (_ & _ & E).
    pose proof (ord_range side). pose proof (ord_range p). pose proof (ord_range r).
    destruct (pos_finite_facts 0.8 eq_refl) as (_ & R8 & _).
    destruct (pos_finite_facts 1 eq_refl) as (_ & R1 & _).
    pose proof huge_big. pose proof big_pos.
    destruct (add_le p r side Np Nr) as [_ Hs]; [|exact Ns|lia|lia].
    intros [[E1 E2]|[E1 E2]]; lia.
Qed.

Local Close Scope Z_scope.
(** ** Integers as binary64 numbers *)

Local Open Scope Z_scope.

Lemma small_lt_huge : 2 ^ 53 * 2 ^ 3000 < huge.
Proof.
  pose proof huge_big. pose proof big_pos.
  assert (2 ^ 53 * 2 ^ 3000 < big); [|lia].
  rewrite big_eq, <- Z.pow_add_r by lia. apply Z.pow_lt_mono_r; lia.
Qed.

(** An integer below 2^53 is a binary64 number. *)
Lemma binary_round_small (s : bool) (p : positive) :
  Zpos p < 2 ^ 53 ->
  exists m e,
    binary_round prec emax s p 0 = S754_finite s m e /\
    bounded prec emax m e = true /\
    mag (Zpos m) e = Zpos p * 2 ^ 3000.
Proof.
  intros Hp. unfold binary_round.
  destruct (shl_align_spec p 0 (fexp64 (Z.pos (digits2_pos p) + 0))) as [He Hm].
  destruct (shl_align p 0 _) as [mz ez] eqn:E. cbn [fst snd] in *.
  destruct (Zdigits2_bounds (Zpos p)) as [Hd0 [Hd1 Hd2]]; [lia|].
  change (Zdigits2 (Zpos p)) with (Zpos (digits2_pos p)) in *.
  set (d := Zpos (digits2_pos p)) in *.
  assert (Hd : d <= 53).
  { destruct (Z_le_gt_dec d 53) as [H|H]; [exact H|].
    assert (2 ^ 53 <= 2 ^ (d - 1)) by (apply Z.pow_le_mono_r; lia). lia. }
  assert (Hf : fexp64 (d + 0) = d - 53) by (rewrite fexp64_eq; lia).
  rewrite Hf in He, Hm.
  replace (Z.min 0 (d - 53)) with (d - 53) in He, Hm by lia.
  subst ez. replace (0 - (d - 53)) with (53 - d) in Hm by lia.
  assert (Hdig : Zdigits2 (Zpos mz) = 53).
  { rewrite Hm, Zdigits2_shift by lia.
    change (Zdigits2 (Zpos p)) with d. lia. }
  destruct (bra_spec s (Zpos mz) (d - 53) loc_Exact) as (m2 & _ & Hex & Hbra); [lia|].
  cbv zeta in Hex, Hbra. rewrite Hdig, !fexp64_eq in *.
  replace (Z.max (d - 53) (Z.max (53 + (d - 53) - 53) (-1074))) with (d - 53) in * by lia.
  replace (d - 53 - (d - 53)) with 0 in * by lia.
  change (2 ^ 0) with 1 in *. rewrite Z.div_1_r in *.
  specialize (Hex eq_refl (Z.mod_1_r _)). subst m2.
  rewrite Hdig in Hbra.
  replace (Z.max (d - 53) (Z.max (53 + (d - 53) - 53) (-1074))) with (d - 53) in Hbra by lia.
  replace (d - 53 - (d - 53)) with 0 in Hbra by lia.
  change (2 ^ 0) with 1 in Hbra. rewrite Z.div_1_r in Hbra.
  exists mz, (d - 53). split.
  - rewrite Hbra. unfold finish.
    destruct (d - 53 <=? 971) eqn:E'; [done|]. apply Z.leb_gt in E'. lia.
  - split.
    + apply bounded_spec. split; [lia|].
      change (Zpos (digits2_pos mz)) with (Zdigits2 (Zpos mz)). rewrite Hdig. lia.
    + unfold mag. rewrite Hm, <- Z.mul_assoc, <- Z.pow_add_r by lia.
      f_equal. f_equal. lia.
Qed.

Lemma toNumber_spec (z : Z) :
  Z.abs z < 2 ^ 53 -> num (toNumber z) /\ ord (toNumber z) = z * 2 ^ 3000.
Proof.
  intros Hz. unfold toNumber, num, ord, binary_normalize.
  destruct z as [|p|p].
  - rewrite Prim2SF_SF2Prim by done. done.
  - destruct (binary_round_small false p) as (m & e & -> & Hb & Hmag); [lia|].
    rewrite Prim2SF_SF2Prim by done. split; [done|].
    unfold sval. cbn [is_neg absval]. exact Hmag.
  - destruct (binary_round_small true p) as (m & e & -> & Hb & Hmag); [lia|].
    rewrite Prim2SF_SF2Prim by done. split; [done|].
    unfold sval. cbn [is_neg absval]. rewrite Hmag. lia.
Qed.

(** The integer of a binary64 number whose value is an integer. *)
Lemma toInteger_spec (a : float) (z : Z) :
  num a -> ord a = z * 2 ^ 3000 -> Z.abs z <= 2 ^ 53 -> toInteger a = z.
Proof.
  intros Na Ha Hz. unfold toInteger, ord, num, not_nan in *.
  pose proof (Prim2SF_valid a) as Va. pose proof small_lt_huge as Hh.
  assert (HU : 0 < 2 ^ 3000) by (by apply pow2_pos).
  destruct (Prim2SF a) as [s|s| |s m e].
  - unfold sval in Ha. cbn [is_neg absval] in Ha.
    set (U := 2 ^ 3000) in *. clearbody U. destruct s; nia.
  - exfalso. unfold sval in Ha. cbn [is_neg absval] in Ha.
    set (U := 2 ^ 3000) in *. clearbody U. destruct s; nia.
  - by destruct Na.
  - cbn [valid_binary] in Va. apply bounded_spec in Va as (He & _).
    unfold sval in Ha. cbn [is_neg absval] in Ha. unfold mag in Ha. cbv zeta.
    destruct (0 <=? e) eqn:E.
    + apply Z.leb_le in E. rewrite Z.pow_add_r in Ha by lia.
      set (U := 2 ^ 3000) in *. set (P := 2 ^ e) in *. clearbody U P.
      apply (Z.mul_reg_r _ _ U); [lia|]. destruct s; lia.
    + apply Z.leb_gt in E.
      assert (E3 : 2 ^ 3000 = 2 ^ (e + 3000) * 2 ^ (- e)).
      { rewrite <- Z.pow_add_r by lia. f_equal. lia. }
      assert (HV : 0 < 2 ^ (e + 3000)) by (apply pow2_pos; lia).
      assert (HW : 0 < 2 ^ (- e)) by (apply pow2_pos; lia).
      rewrite E3 in Ha. clear E3 HU Hh.
      set (V := 2 ^ (e + 3000)) in *. set (W := 2 ^ (- e)) in *. clearbody V W.
      assert (Hm : Zpos m = (if s then - z else z) * W).
      { apply (Z.mul_reg_r _ _ V); [lia|]. destruct s; lia. }
      rewrite Hm, Z.div_mul by lia. destruct s; lia.
Qed.

Lemma ord_2p53 : num 9007199254740992 /\ ord 9007199254740992 = 2 ^ 53 * 2 ^ 3000.
Proof. split; [done|]. vm_compute. reflexivity. Qed.

(** Adding 1 to an integer below 2^53 is exact. *)
Lemma succ_exact (a : float) (z : Z) :
  num a -> ord a = z * 2 ^ 3000 -> Z.abs z < 2 ^ 53 ->
  num (a + 1) /\ ord (a + 1) = (z + 1) * 2 ^ 3000.
Proof.
  intros Na Ha Hz. pose proof small_lt_huge as Hh. pose proof huge_nonneg as Hn.
  assert (HU : 0 < 2 ^ 3000) by (by apply pow2_pos).
  assert (N1 : num 1%float) by done. pose proof ord_one as O1.
  assert (Hex : exists c, num c /\ ord c = (z + 1) * 2 ^ 3000).
  { destruct (Z_lt_le_dec (z + 1) (2 ^ 53)) as [Hlt|Hge].
    - exists (toNumber (z + 1)). apply toNumber_spec. lia.
    - exists 9007199254740992%float. replace (z + 1) with (2 ^ 53) by lia.
      apply ord_2p53. }
  destruct Hex as (c & Nc & Hcv).
  assert (Hc : ~ clash a 1).
  { unfold clash. rewrite O1, Ha. set (U := 2 ^ 3000) in *. clearbody U.
    intros [[E1 E2]|[E1 E2]]; nia. }
  destruct (add_sandwich a 1 Na N1 Hc) as [Ns Hs].
  fold (num (a + 1)) in Ns. split; [exact Ns|].
  destruct (Hs (Prim2SF c) (Prim2SF_valid c) Nc) as [H1 H2].
  fold (ord c) in H1, H2. fold (ord (a + 1)) in H1, H2.
  rewrite O1, Ha, Hcv in *. set (U := 2 ^ 3000) in *. clearbody U. lia.
Qed.

Lemma Math_maxOf_ord (l : list Z) (a : float) :
  num a -> Forall (fun z => Z.abs z < 2 ^ 53) l ->
  num (foldl Math.max a (map toNumber l)) /\
  ord (foldl Math.max a (map toNumber l)) =
    foldl Z.max (ord a) (map (fun z => z * 2 ^ 3000) l).
Proof.
  intros Na Hl. revert a Na. induction Hl as [|z l Hz _ IH]; intros a Na; [done|].
  cbn [map foldl]. destruct (toNumber_spec z Hz) as [Nz Oz].
  destruct (Math_max_ord a (toNumber z) Na Nz) as (Nm & Om & _).
  destruct (IH _ Nm) as [N2 O2]. split; [exact N2|].
  by rewrite O2, Om, Oz.
Qed.

Lemma foldl_max_scale (l : list Z) (a u : Z) :
  0 < u -> foldl Z.max (a * u) (map (fun z => z * u) l) = foldl Z.max a l * u.
Proof.
  intros Hu. revert a. induction l as [|z l IH]; intros a; [done|].
  cbn [map foldl]. rewrite <- IH. f_equal. nia.
Qed.

Lemma foldl_max_bound (l : list Z) (a B : Z) :
  Z.abs a < B -> Forall (fun z => Z.abs z < B) l -> Z.abs (foldl Z.max a l) < B.
Proof.
  intros Ha Hl. revert a Ha. induction Hl as [|z l Hz _ IH]; intros a Ha; [done|].
  cbn [foldl]. apply IH. lia.
Qed.

(** Below 2^53 the new id is the greatest id plus one. *)
Lemma newId_small (h : list Body) (r : ref) (rest : list ref) :
  Forall (fun r => Z.abs (id (h !!! r)) < 2 ^ 53) (r :: rest) ->
  newId h (r :: rest) = foldl Z.max (id (h !!! r)) (map (fun r => id (h !!! r)) rest) + 1.
Proof.
  intros Hall. unfold newId, Math_maxOf.
  assert (HU : 0 < 2 ^ 3000) by (by apply pow2_pos).
  assert (Hl : Forall (fun z => Z.abs z < 2 ^ 53) (map (fun r => id (h !!! r)) (r :: rest))).
  { apply Forall_fmap. exact Hall. }
  rewrite <- (map_map (fun r => id (h !!! r)) toNumber).
  cbn [map foldl] in *. apply Forall_cons in Hl as [Hr Hrest].
  destruct (toNumber_spec _ Hr) as [Nr Or].
  assert (Ninf : num neg_infinity) by done.
  destruct (Math_max_ord neg_infinity (toNumber (id (h !!! r))) Ninf Nr) as (Nm & Om & _).
  assert (Om' : ord (Math.max neg_infinity (toNumber (id (h !!! r)))) = id (h !!! r) * 2 ^ 3000).
  { rewrite Om, Or. change (ord neg_infinity) with (- huge).
    pose proof small_lt_huge. clear Or Om.
    set (U := 2 ^ 3000) in *. clearbody U. nia. }
  destruct (Math_maxOf_ord _ _ Nm Hrest) as [N2 O2].
  rewrite Om', foldl_max_scale in O2 by exact HU.
  pose proof (foldl_max_bound _ _ _ Hr Hrest) as Hb.
  destruct (succ_exact _ _ N2 O2 Hb) as [N3 O3].
  apply toInteger_spec; [exact N3|exact O3|lia].
Qed.

Local Close Scope Z_scope.
(** ** Frame *)

(** C10: [stepPhysics] returns the input's [totalEnergy] and the input's
    bodies array. *)
Theorem stepPhysics_frame (state : SimState) (params : Params) (hp : Heap) :
  totalEnergy (stepPhysics state params hp).1 = totalEnergy state /\
  bodies (stepPhysics state params hp).1 = bodies state /\
  arrs (stepPhysics state params hp).2 = arrs hp.
Proof.
  unfold stepPhysics.
  destruct (solve _ _ _ _ _) as [[cs h] errs]. done.
Qed.

(** ** Warm starting *)


(** ** The solver loop *)

(** C6: with [iterations = n >= 0] the solver makes exactly [n] sweeps.
    [solverErrors] has [n] entries; entry [k] is the running [Math.max],
    started at 0, of [Math.abs(lambda)] over the lambdas of sweep [k], one
    per constructed contact and in contact order; the returned contacts
    are the constructed ones after [n] sweeps, the same constraints with
    only [impulseAcc] rewritten.  With [iterations = 0] the constructed
    contacts are returned as they are and [solverErrors] is empty. *)
Theorem solver_sweeps (state : SimState) (params : Params) (hp : Heap) :
  (0 <= iterations params)%Z ->
  let n := Z.to_nat (iterations params) in
  let out := (stepPhysics state params hp).1 in
  let lambdas k := sweepLambdas (p_restitution params)
                     (sweepStart state params hp k).1
                     (sweepStart state params hp k).2 in
  Z.of_nat (length (solverErrors out)) = iterations params /\
  (forall k, (k < n)%nat ->
     solverErrors out !! k = Some (maxAbs (lambdas k)) /\
     length (lambdas k) = length (constructed state params hp)) /\
  contacts out = (sweepStart state params hp n).1 /\
  Forall2 sameConstraint (constructed state params hp) (contacts out) /\
  (iterations params = 0%Z ->
     contacts out = constructed state params hp /\ solverErrors out = []).
Proof.
  intros Hn n out lambdas.
  destruct (stepPhysics_contacts state params hp) as [Hc He].
  fold n out in Hc, He. repeat split.
  - rewrite He, length_map, length_seq. unfold n. lia.
  - rewrite He, list_lookup_fmap, lookup_seq_lt by done. done.
  - unfold lambdas. rewrite sweepLambdas_length.
    symmetry. eapply Forall2_length, sweeps_sameConstraint.
  - done.
  - rewrite Hc. apply sweeps_sameConstraint.
  - rewrite Hc. unfold n. by rewrite H.
  - rewrite He. unfold n. by rewrite H.
Qed.

Lemma solver_sweeps_witness :
  let out := (stepPhysics freshState defaultParams aloneAtWall).1 in
  Z.of_nat (length (solverErrors out)) = 10%Z /\
  Forall2 sameConstraint (constructed freshState defaultParams aloneAtWall)
          (contacts out).
Proof.
  destruct (solver_sweeps freshState defaultParams aloneAtWall)
    as (H1 & _ & _ & H4 & _); [discriminate|].
  split; [exact H1|exact H4].
Defined.

(** ** Determinism *)

(** C8: two calls with equal states and equal parameters return equal
    states.  The two states may live in different stores: they are equal
    when a one-to-one correspondence [f] of the objects they refer to
    takes each object of the first to an equal object of the second, the
    bodies array of the first to that of the second and the previous
    contacts of the first to those of the second, field by field (for one
    store and the same objects [f] is the identity).  Then the bodies
    after the tick are equal in every field under the same
    correspondence, the bodies arrays and the returned contacts
    correspond, and [solverErrors] and [totalEnergy] are equal: the
    result depends on nothing but the state and the parameters, neither
    on where the objects live, nor on other objects of the store, nor on
    the previous [solverErrors]. *)
Theorem stepPhysics_deterministic (f : ref -> ref) (s1 s2 : SimState)
    (params : Params) (hp1 hp2 : Heap) :
  oneToOne f (stateRefs s1 hp1) ->
  sameObjects f (stateRefs s1 hp1) (objs hp1) (objs hp2) ->
  bodiesOf s2 hp2 = map f (bodiesOf s1 hp1) ->
  contacts s2 = map (renameContact f) (contacts s1) ->
  totalEnergy s2 = totalEnergy s1 ->
  let o1 := stepPhysics s1 params hp1 in
  let o2 := stepPhysics s2 params hp2 in
  sameObjects f (stateRefs s1 hp1) (objs o1.2) (objs o2.2) /\
  bodiesOf o2.1 o2.2 = map f (bodiesOf o1.1 o1.2) /\
  contacts o2.1 = map (renameContact f) (contacts o1.1) /\
  solverErrors o2.1 = solverErrors o1.1 /\
  totalEnergy o2.1 = totalEnergy o1.1.
Proof.
  intros Hinj Hobj Hb Hc He o1 o2. unfold o1, o2.
  destruct (stateRefs_spec s1 hp1) as [Hbs Hprev].
  destruct (stepPhysics_rename f _ Hinj s1 s2 params hp1 hp2 Hbs Hprev Hobj Hb Hc)
    as (R1 & R2 & R3).
  destruct (stepPhysics_array s1 params hp1) as [A1 T1].
  destruct (stepPhysics_array s2 params hp2) as [A2 T2].
  split; [exact R1|]. split; [by rewrite A1, A2|]. split; [exact R2|].
  split; [exact R3|]. by rewrite T1, T2.
Qed.

Lemma stepPhysics_deterministic_witness :
  let o1 := stepPhysics freshState defaultParams pushedFromLeft in
  let o2 := stepPhysics freshState defaultParams pushedFromLeftMoved in
  objs o2.2 !! 2%nat = objs o1.2 !! 0%nat /\
  objs o2.2 !! 1%nat = objs o1.2 !! 1%nat /\
  contacts o2.1 = map (renameContact movedRef) (contacts o1.1) /\
  solverErrors o2.1 = solverErrors o1.1.
Proof.
  destruct (stepPhysics_deterministic movedRef freshState freshState defaultParams
              pushedFromLeft pushedFromLeftMoved) as (H1 & _ & H2 & H3 & _).
  - intros r r' Hr Hr' E. vm_compute in Hr, Hr'.
    repeat (apply elem_of_cons in Hr as [->|Hr]);
      repeat (apply elem_of_cons in Hr' as [->|Hr']);
      try done; try (by apply elem_of_nil in Hr); by apply elem_of_nil in Hr'.
  - intros r Hr. vm_compute in Hr.
    repeat (apply elem_of_cons in Hr as [->|Hr]); try reflexivity.
    by apply elem_of_nil in Hr.
  - reflexivity.
  - reflexivity.
  - reflexivity.
  - split; [apply (H1 0%nat); vm_compute; left|].
    split; [apply (H1 1%nat); vm_compute; right; left|].
    split; [exact H2|exact H3].
Defined.

(** C1: the static body of [staticAtWall] has [invMass = 0] and velocity
    (0,0) when the tick starts with the application's parameters, and
    velocity (NaN, NaN) when it ends.  Its wall contact has
    [effectiveMass = 1/0 = Infinity], the bias is 0 inside the slop, so
    [lambda = -Infinity * 0] is [NaN] and the impulse applied to the body
    is [NaN * 0]. *)
Theorem static_body_velocity_lost :
  let b := objs staticAtWall !!! 0%nat in
  let b' := objs (stepPhysics freshState defaultParams staticAtWall).2 !!! 0%nat in
  isStatic b = true /\ invMass b = 0%float /\ vel b = mkVec2 0 0 /\
  pos b' = pos b /\ vel b' = mkVec2 nan nan.
Proof. vm_compute. done. Qed.

(** C2: the wall contact constructed for the static body of
    [staticAtWall] has [effectiveMass = Infinity], which is not finite. *)
Theorem static_wall_effectiveMass :
  map effectiveMass (constructed freshState defaultParams staticAtWall) = [infinity] /\
  map bodyB (constructed freshState defaultParams staticAtWall) = [None] /\
  is_finite infinity = false.
Proof. vm_compute. done. Qed.

(** C3: in [staticAtWall] there is no previous contact, and the contact
    the tick returns has [impulseAcc = NaN], for which [0 <= impulseAcc]
    is false; it is [NaN] from the first solver update on. *)
Theorem static_wall_impulse_nan :
  contacts freshState = [] /\
  map impulseAcc (contacts (stepPhysics freshState defaultParams staticAtWall).1) = [nan] /\
  map impulseAcc (sweepStart freshState defaultParams staticAtWall 1).1 = [nan] /\
  (0 <=? nan)%float = false.
Proof. vm_compute. done. Qed.

(** ** The clamp at the left wall *)

(** C7 fails when another body pushes: body 0 of [pushedFromLeft] is not
    static, overlaps the left wall and moves left at -1; the body-body
    contact with body 1 turns its velocity before the clamp, and it ends
    the tick with a negative [vel.x] that is not 0.5.  It also fails when
    an impulse is not finite: with an infinite gravity the body of
    [aloneAtWall], on which only the left wall acts, has an infinite
    vertical speed; its left-wall contact computes [NaN], and so does
    the solver for [vel.x]. *)
Lemma leftBounce_counterexample :
  (let b := objs pushedFromLeft !!! 0%nat in
   let b' := objs (stepPhysics freshState defaultParams pushedFromLeft).2 !!! 0%nat in
   isStatic b = false /\
   (x (pos b) - radius b <? 0)%float = true /\
   (x (vel b) <? 0)%float = true /\
   (x (vel b') <? 0)%float = true /\
   ~ leftBounce freshState defaultParams pushedFromLeft 0) /\
  (let p := mkParams infinity 10 0.8 true in
   map bodyB (constructed freshState p aloneAtWall) = [None] /\
   map impulseAcc (sweepStart freshState p aloneAtWall 1).1 = [nan] /\
   ~ leftBounce freshState p aloneAtWall 0).
Proof.
  split.
  - repeat split; try (vm_compute; reflexivity).
    intros [_ H]. vm_compute in H. discriminate H.
  - repeat split; try (vm_compute; reflexivity).
    intros [_ H]. vm_compute in H. discriminate H.
Qed.

(** ** The clamp to the arena *)

(** C9: the second body of [besideStatic] is not static, has the
    [invMass] and radius [createBody] gives it, a zero velocity, and lies
    inside the arena when the tick starts with the application's
    parameters.  It touches the static body of C1, whose velocity the
    wall contact turns into (NaN, NaN) in the first sweep; the body-body
    contact passes the [NaN] on, the integrator adds it to the position,
    and every overlap test of the clamp is false for [NaN]: the body ends
    the tick at (NaN, NaN), inside no arena. *)
Theorem dynamic_body_position_lost :
  let b := objs besideStatic !!! 1%nat in
  let b' := objs (stepPhysics freshState defaultParams besideStatic).2 !!! 1%nat in
  isStatic b = false /\ invMass b = (1 / mass b)%float /\
  (radius b <=? widthM / 2)%float = true /\
  (radius b <=? heightM / 2)%float = true /\
  vel b = mkVec2 0 0 /\ insideArena b /\
  pos b' = mkVec2 nan nan /\ ~ insideArena b'.
Proof.
  repeat split; try (vm_compute; reflexivity).
  intros [H _]. vm_compute in H. discriminate H.
Qed.

(** ** The Baumgarte term *)

(** C5: every contact constructed in a tick, wall or body-body, has
    [bias = -BAUMGARTE * (Math.min(0, penetration + SLOP) / TIMESTEP)] for
    its own [penetration], and the contacts the tick returns still have
    the bias and the penetration they were constructed with.  The term is
    zero ([bias === 0]) when [penetration >= -SLOP] and positive when
    [penetration < -SLOP]. *)
Theorem bias_is_baumgarte (state : SimState) (params : Params) (hp : Heap) :
  (forall c, c ∈ constructed state params hp ->
     bias c = baumgarte (penetration c) /\
     ((- SLOP <=? penetration c)%float = true -> (bias c =? 0)%float = true) /\
     ((penetration c <? - SLOP)%float = true -> (0 <? bias c)%float = true)) /\
  Forall2 (fun c c' => bias c' = bias c /\ penetration c' = penetration c)
          (constructed state params hp)
          (contacts (stepPhysics state params hp).1) /\
  (forall c, c ∈ contacts (stepPhysics state params hp).1 ->
     bias c = baumgarte (penetration c)).
Proof.
  assert (Hcons : forall c, c ∈ constructed state params hp ->
                    bias c = baumgarte (penetration c)).
  { intros c Hc.
    apply detect_spec in Hc as [(r & _ & Hw)|(ra & rb & _ & _ & Hp)].
    - by apply wallContactsOf_spec in Hw as (_ & _ & _ & _ & Hw).
    - by apply pairContact_spec in Hp as (_ & _ & _ & Hp & _). }
  assert (Hsame : Forall2 sameConstraint (constructed state params hp)
                    (contacts (stepPhysics state params hp).1)).
  { rewrite (proj1 (stepPhysics_contacts state params hp)).
    apply sweeps_sameConstraint. }
  split; [|split].
  - intros c Hc. rewrite (Hcons c Hc).
    split; [done|]. split; [apply baumgarte_zero|apply baumgarte_pos].
  - eapply Forall2_impl; [exact Hsame|].
    intros c c' (_ & _ & _ & _ & Hp & _ & Hb). by split.
  - intros c' Hc'.
    destruct (proj1 (list_elem_of_lookup _ _) Hc') as [i Hi].
    destruct (Forall2_lookup_r _ _ _ _ _ Hsame Hi) as (c & Hci & Hcc).
    destruct Hcc as (_ & _ & _ & _ & Hp & _ & Hb).
    rewrite Hb, Hp. apply Hcons. by eapply list_elem_of_lookup_2.
Qed.

Lemma bias_is_baumgarte_witness :
  Forall (fun c => (0 <? bias c)%float = true)
         (constructed freshState defaultParams aloneAtWall).
Proof.
  apply Forall_forall. intros c Hc.
  destruct (bias_is_baumgarte freshState defaultParams aloneAtWall) as (H & _).
  destruct (H c Hc) as (_ & _ & Hpos). apply Hpos.
  vm_compute in Hc. apply list_elem_of_singleton in Hc. subst c.
  vm_compute. reflexivity.
Defined.
(** C7, for a body that no contact pushes along x.  Let the reference
    [r] occur once in the bodies array, and let the body behind it be not
    static, with a positive finite [invMass], [pos.x - radius < 0] and
    [vel.x < 0] and a radius of at most half the arena width.  Let every
    contact that refers to it be gentle before the first and after every
    sweep: the impulse it has accumulated is finite and not negative,
    and for a body-body contact the normal has a finite x component and
    that component or the accumulated impulse is 0.  After [stepPhysics]
    its [pos.x] is its [radius] and its [vel.x] is the incoming [vel.x]
    times -0.5: the left-wall contact asks for no impulse, and the other
    contacts change [vel.y] only. *)
Theorem left_wall_bounce (state : SimState) (params : Params) (hp : Heap)
    (r : ref) (b : Body) (l1 l2 : list ref) :
  bodiesOf state hp = l1 ++ r :: l2 -> r ∉ l1 -> r ∉ l2 ->
  objs hp !! r = Some b ->
  isStatic b = false ->
  (0 <? invMass b)%float = true -> (invMass b <? infinity)%float = true ->
  (x (pos b) - radius b <? 0)%float = true ->
  (x (vel b) <? 0)%float = true ->
  (radius b <=? widthM / 2)%float = true ->
  (forall k, (k <= Z.to_nat (iterations params))%nat ->
     Forall (gentle r) (sweepStart state params hp k).1) ->
  leftBounce state params hp r.
Proof.
  intros Hbs H1 H2 Hb Hs Him0 Him1 Hleft Hvx Hrad Hfin.
  destruct (invMass_facts _ Him0 Him1) as (_ & _ & Hm & _).
  set (b1 := setVel (mkVec2 (x (vel b)) (y (vel b) + gravity params * TIMESTEP)) b).
  assert (Hg : afterGravity state params hp !! r = Some b1).
  { rewrite (afterGravity_body _ _ _ _ _ _ Hbs H1 H2), Hb.
    change (Some (gravityBody (gravity params) b) = Some b1).
    unfold gravityBody. by rewrite Hm, Hs. }
  assert (Hk1 : keepsVelX b b1) by (split; [by destruct b|done]).
  assert (Hq : Forall (alongside r b) (constructed state params hp)).
  { unfold constructed. rewrite Hbs. by apply (detect_alongside _ _ _ _ _ _ b b1). }
  destruct (warmStart_alongside (warmStarting params) _ _ r b b1 Hvx Him0 Him1 Hq
              (Hfin 0%nat ltac:(lia)) Hg Hk1) as (b2 & Hw & Hk2).
  destruct (sweeps_alongside (p_restitution params) (Z.to_nat (iterations params))
              (constructed state params hp) (beforeSolve state params hp) r b b2
              Hvx Him0 Him1 Hq Hw Hk2 Hfin) as (_ & b3 & Hsolve & Hk3).
  destruct (keepsVelX_fields _ _ Hk3) as (Ei & Es & Er & Ep). destruct Hk3 as [_ Ev].
  unfold leftBounce. cbv zeta.
  rewrite (lookup_ref _ _ _ Hb).
  rewrite (lookup_ref _ r (integrateBody b3)).
  2:{ rewrite (stepPhysics_body _ _ _ _ _ _ Hbs H1 H2).
      change (afterSolve state params hp !! r = Some b3) in Hsolve.
      by rewrite Hsolve. }
  rewrite <- Es in Hs. rewrite <- Ei in Hm.
  destruct (integrateBody_clamps b3 Hs Hm) as (_ & Hx & Hv & _).
  rewrite Hx, Hv. clear Hx Hv.
  unfold clampLow. cbn [x vAdd vScale]. rewrite Ep, Er, Ev.
  rewrite (move_left _ _ _ Hleft Hvx). cbn [fst snd].
  unfold clampHigh. destruct widthM_half as [Wp Wh].
  rewrite (double_le widthM (widthM / 2) Wp Wh _ Hrad). done.
Qed.

Lemma left_wall_bounce_witness :
  leftBounce freshState defaultParams inCorner 0 /\
  leftBounce freshState defaultParams leavingToRight 0.
Proof.
  split.
  - apply (left_wall_bounce freshState defaultParams inCorner 0
             (bodyAt 0 0.4 11.8 (-1) (-20) 0.5 false) [] []).
    + reflexivity.
    + apply not_elem_of_nil.
    + apply not_elem_of_nil.
    + reflexivity.
    + reflexivity.
    + vm_compute. reflexivity.
    + vm_compute. reflexivity.
    + vm_compute. reflexivity.
    + vm_compute. reflexivity.
    + vm_compute. reflexivity.
    + intros k Hk. change (Z.to_nat (iterations defaultParams)) with 10%nat in Hk.
      do 11 (destruct k as [|k];
             [vm_compute;
              repeat (constructor;
                      [intros _; split; [reflexivity|];
                       split; [reflexivity|]; intros E; by destruct E|]);
              constructor|]).
      lia.
  - apply (left_wall_bounce freshState defaultParams leavingToRight 0
             (bodyAt 0 0.4 5 (-1) 0 0.5 false) [] [1%nat]).
    + reflexivity.
    + apply not_elem_of_nil.
    + intros H. apply list_elem_of_singleton in H. discriminate H.
    + reflexivity.
    + reflexivity.
    + vm_compute. reflexivity.
    + vm_compute. reflexivity.
    + vm_compute. reflexivity.
    + vm_compute. reflexivity.
    + vm_compute. reflexivity.
    + intros k Hk. change (Z.to_nat (iterations defaultParams)) with 10%nat in Hk.
      do 11 (destruct k as [|k];
             [vm_compute;
              repeat (constructor;
                      [intros _; split; [reflexivity|];
                       split; [reflexivity|]; intros _;
                       split; [reflexivity|]; right; reflexivity|]);
              constructor|]).
      lia.
Defined.


(** ** The clamp of the integrator *)

(** X24: what the clamp guarantees.  Let a body be not static, with
    [invMass] different from 0 and a radius of at most half the arena
    width and half the arena height, and let the position the integrator
    computes for it, [pos + vel * TIMESTEP], have no [NaN] coordinate.
    Then [integrateBody] leaves it with [radius <= pos.x] and
    [radius <= pos.y], and on each axis [pos <= side - radius] or the
    overlap test of the clamp is negative, [pos + radius <= side], each as
    the code computes it. *)
Theorem integrateBody_inside (b : Body) :
  isStatic b = false -> (invMass b =? 0)%float = false ->
  (radius b <=? widthM / 2)%float = true ->
  (radius b <=? heightM / 2)%float = true ->
  let p := vAdd (pos b) (vScale (vel b) TIMESTEP) in
  is_nan (x p) = false -> is_nan (y p) = false ->
  let b' := integrateBody b in
  radius b' = radius b /\
  (radius b <=? x (pos b'))%float = true /\
  ((x (pos b') <=? widthM - radius b)%float
   || (x (pos b') + radius b <=? widthM)%float) = true /\
  (radius b <=? y (pos b'))%float = true /\
  ((y (pos b') <=? heightM - radius b)%float
   || (y (pos b') + radius b <=? heightM)%float) = true.
Proof.
  intros Hs Hm Hw Hh p Nx Ny b'.
  destruct (integrateBody_clamps b Hs Hm) as (Hr & Hx & _ & Hy & _).
  unfold b'. rewrite Hr, Hx, Hy.
  destruct widthM_half as [Wp Wh]. destruct heightM_half as [Hp Hh'].
  destruct (clamp_axis_num widthM (widthM / 2) Wp Wh (x p) (radius b) (x (vel b)) Hw Nx)
    as [X1 X2].
  destruct (clamp_axis_num heightM (heightM / 2) Hp Hh' (y p) (radius b) (y (vel b)) Hh Ny)
    as [Y1 Y2].
  split; [done|]. split; [exact X1|]. split; [exact X2|]. split; [exact Y1|exact Y2].
Qed.

Lemma integrateBody_inside_witness :
  let b' := integrateBody (bodyAt 0 0.4 5 (-1) 0 0.5 false) in
  (0.5 <=? x (pos b'))%float = true /\
  ((x (pos b') <=? widthM - 0.5)%float || (x (pos b') + 0.5 <=? widthM)%float) = true.
Proof.
  destruct (integrateBody_inside (bodyAt 0 0.4 5 (-1) 0 0.5 false))
    as (_ & H1 & H2 & _).
  - reflexivity.
  - vm_compute. reflexivity.
  - vm_compute. reflexivity.
  - vm_compute. reflexivity.
  - vm_compute. reflexivity.
  - vm_compute. reflexivity.
  - split; [exact H1|exact H2].
Defined.

(** The bound [pos <= side - radius] alone can fail by a rounding: the
    body of [nearRightWall] is not static, has a positive [invMass] and
    rests at [pos.x = 15.500000000000002].  The overlap test computes
    [pos.x + radius = 16], which is not greater than [widthM], so the
    clamp leaves the body where it is, above [widthM - radius = 15.5]. *)
Lemma insideArena_rounding_example :
  let b := objs nearRightWall !!! 0%nat in
  let b' := objs (stepPhysics freshState defaultParams nearRightWall).2 !!! 0%nat in
  isStatic b = false /\ (0 <? invMass b)%float = true /\
  pos b' = pos b /\
  (x (pos b') + radius b' <=? widthM)%float = true /\
  (x (pos b') <=? widthM - radius b')%float = false.
Proof. vm_compute. done. Qed.

(** * Further properties of the tick *)

(** X1: a static body is where it was.  For every state and parameter
    set, the object behind a reference to a static body has after
    [stepPhysics] the position it had before, and is still static: the
    phases before the integrator write velocities only, and the integrator
    skips static bodies. *)
Theorem static_body_stays_put (state : SimState) (params : Params) (hp : Heap)
    (r : ref) (b : Body) :
  objs hp !! r = Some b -> isStatic b = true ->
  exists b', objs (stepPhysics state params hp).2 !! r = Some b' /\
    pos b' = pos b /\ isStatic b' = true.
Proof.
  intros Hb Hs. rewrite stepPhysics_store.
  destruct (velOnly_lookup _ _ r b (velOnly_afterSolve state params hp) Hb)
    as (bs & Hbs & Hsame).
  apply (foldl_alter_inv (fun a => pos a = pos b /\ isStatic a = true)
           integrateBody _ _ r bs).
  - intros a [Hp Ha]. unfold integrateBody. by rewrite Ha.
  - exact Hbs.
  - rewrite Hsame. done.
Qed.

Lemma static_body_stays_put_witness :
  exists b', objs (stepPhysics freshState defaultParams staticAtWall).2 !! 0%nat = Some b' /\
    pos b' = mkVec2 0.48 5 /\ isStatic b' = true.
Proof.
  apply (static_body_stays_put freshState defaultParams staticAtWall 0
           (bodyAt 0 0.48 5 0 0 0.5 true)); reflexivity.
Defined.

(** X2: the tick creates and removes no body object and writes only
    [pos], [vel] and [trail]: object by object, [id], [radius], [mass],
    [invMass], [color], [restitution] and [isStatic] are after
    [stepPhysics] what they were before. *)
Theorem tick_keeps_identity (state : SimState) (params : Params) (hp : Heap) :
  Forall2 sameIdentity (objs hp) (objs (stepPhysics state params hp).2).
Proof.
  rewrite stepPhysics_store.
  eapply Forall2_trans; [intros a b c; apply transitivity| |].
  - eapply Forall2_impl; [apply velOnly_afterSolve|].
    apply sameButVel_sameIdentity.
  - apply Forall2_foldl_alter; [apply _..|]. apply sameIdentity_integrateBody.
Qed.

(** X3: trails stay bounded.  If no body of the store has a trail longer
    than [TRAIL_LENGTH] before the tick, none has after it. *)
Theorem trails_stay_bounded (state : SimState) (params : Params) (hp : Heap) :
  Forall (fun b => (length (trail b) <= TRAIL_LENGTH)%nat) (objs hp) ->
  Forall (fun b => (length (trail b) <= TRAIL_LENGTH)%nat)
         (objs (stepPhysics state params hp).2).
Proof.
  intros Hh. rewrite stepPhysics_store.
  apply Forall_foldl_alter; [apply integrateBody_trail|].
  pose proof (velOnly_afterSolve state params hp) as Hv.
  apply Forall_forall. intros b' Hb'.
  destruct (proj1 (list_elem_of_lookup _ _) Hb') as [i Hi].
  destruct (Forall2_lookup_r _ _ _ _ _ Hv Hi) as (b & Hbi & Hsame).
  rewrite Hsame. cbn [trail setVel].
  eapply Forall_lookup_1 in Hh; [|exact Hbi]. exact Hh.
Qed.

Lemma trails_stay_bounded_witness :
  Forall (fun b => (length (trail b) <= TRAIL_LENGTH)%nat)
         (objs (stepPhysics freshState defaultParams midArena).2).
Proof.
  apply trails_stay_bounded.
  repeat constructor.
Defined.

(** X4: the error of a sweep is its greatest [|lambda|].  When no lambda
    of sweep [k] is [NaN], entry [k] of [solverErrors] is at least
    [Math.abs(lambda)] for every lambda of the sweep, and it is 0 or
    [Math.abs] of one of them. *)
Theorem solverErrors_greatest (state : SimState) (params : Params) (hp : Heap)
    (k : nat) (e : float) :
  let ls := sweepLambdas (p_restitution params)
              (sweepStart state params hp k).1 (sweepStart state params hp k).2 in
  solverErrors (stepPhysics state params hp).1 !! k = Some e ->
  Forall (fun l => is_nan l = false) ls ->
  Forall (fun l => (Math.abs l <=? e)%float = true) ls /\
  (e = 0%float \/ exists l, l ∈ ls /\ e = Math.abs l).
Proof.
  intros ls He Hls.
  rewrite (proj2 (stepPhysics_contacts state params hp)) in He.
  rewrite list_lookup_fmap in He.
  destruct (seq 0 (Z.to_nat (iterations params)) !! k) as [k'|] eqn:Ek; [|done].
  apply lookup_seq in Ek as [-> _]. cbn in He. injection He as <-.
  apply maxAbs_spec. exact Hls.
Qed.

Lemma solverErrors_greatest_witness :
  exists e, solverErrors (stepPhysics freshState defaultParams aloneAtWall).1 !! 0%nat = Some e /\
    Forall (fun l => (Math.abs l <=? e)%float = true)
      (sweepLambdas 0.8 (sweepStart freshState defaultParams aloneAtWall 0).1
         (sweepStart freshState defaultParams aloneAtWall 0).2).
Proof.
  eexists. split; [vm_compute; reflexivity|].
  apply (solverErrors_greatest freshState defaultParams aloneAtWall 0).
  - vm_compute. reflexivity.
  - vm_compute. repeat constructor.
Defined.

(** X5: a tick without contacts.  When no contact is constructed, the
    tick returns no contact, every entry of [solverErrors] is 0, and the
    store is the integrator's result on the store after gravity. *)
Theorem tick_without_contacts (state : SimState) (params : Params) (hp : Heap) :
  constructed state params hp = [] ->
  contacts (stepPhysics state params hp).1 = [] /\
  solverErrors (stepPhysics state params hp).1 =
    replicate (Z.to_nat (iterations params)) 0%float /\
  objs (stepPhysics state params hp).2 =
    integrate (bodiesOf state hp) (afterGravity state params hp).
Proof.
  intros Hc.
  assert (Hw : beforeSolve state params hp = afterGravity state params hp).
  { unfold beforeSolve, warmStart. rewrite Hc. by destruct (warmStarting params). }
  assert (Hk : forall k, sweepStart state params hp k = ([], afterGravity state params hp)).
  { intros k. unfold sweepStart. rewrite Hc, Hw. apply sweeps_nil. }
  destruct (stepPhysics_contacts state params hp) as [H1 H2].
  split; [by rewrite H1, Hk|]. split.
  - rewrite H2. clear H1 H2. generalize 0%nat.
    generalize (Z.to_nat (iterations params)) as n.
    induction n as [|n IH]; intros s; [done|].
    cbn [seq map replicate]. rewrite Hk. f_equal. apply IH.
  - rewrite stepPhysics_store. unfold afterSolve. by rewrite Hk.
Qed.

Lemma tick_without_contacts_witness :
  solverErrors (stepPhysics freshState defaultParams midArena).1 = replicate 10 0%float.
Proof.
  apply (tick_without_contacts freshState defaultParams midArena).
  vm_compute. reflexivity.
Defined.

(** X6: a contact is constructed on overlap only.  Every contact the
    tick constructs, and every contact it returns, has a negative
    [penetration] and a [bias] that is not negative. *)
Theorem contacts_overlap (state : SimState) (params : Params) (hp : Heap) :
  let deep c := (penetration c <? 0)%float = true /\ (0 <=? bias c)%float = true in
  Forall deep (constructed state params hp) /\
  Forall deep (contacts (stepPhysics state params hp).1).
Proof.
  intros deep.
  assert (Hbias : forall p, (p <? 0)%float = true -> (0 <=? baumgarte p)%float = true).
  { intros p Hp. apply ltb_ord in Hp as (Np & _ & _).
    destruct (baumgarte_steps _ Np) as (_ & _ & _ & _ & _ & Nb & Pb).
    apply leb_ord. split; [apply ord_zero|]. split; [exact Nb|].
    by rewrite (proj1 ord_zero). }
  assert (Hcons : Forall deep (constructed state params hp)).
  { apply Forall_forall. intros c Hc.
    assert (Hp : (penetration c <? 0)%float = true).
    { apply detect_spec in Hc as [(r & _ & Hw)|(ra & rb & _ & _ & Hp)].
      - unfold wallContactsOf in Hw. rewrite !elem_of_app in Hw.
        destruct Hw as [H|[H|[H|H]]];
          match type of H with context [if ?b then _ else _] =>
            destruct b eqn:E end;
          try (by apply elem_of_nil in H);
          apply list_elem_of_singleton in H; subst c;
          unfold createWallContact; cbn [penetration];
          rewrite ?sub_zero_r; first [exact E|rewrite sub_ltb_zero; exact E].
      - unfold pairContact in Hp.
        destruct (isStatic _ && isStatic _); [by apply elem_of_nil in Hp|].
        destruct (_ <? _)%float eqn:E; [|by apply elem_of_nil in Hp].
        apply list_elem_of_singleton in Hp. subst c. cbn [penetration].
        by rewrite sub_ltb_zero. }
    split; [exact Hp|].
    rewrite (bias_of_constructed state params hp c Hc). by apply Hbias. }
  split; [exact Hcons|].
  assert (Hsame : Forall2 sameConstraint (constructed state params hp)
                    (contacts (stepPhysics state params hp).1)).
  { rewrite (proj1 (stepPhysics_contacts state params hp)).
    apply sweeps_sameConstraint. }
  apply Forall_forall. intros c' Hc'.
  destruct (proj1 (list_elem_of_lookup _ _) Hc') as [i Hi].
  destruct (Forall2_lookup_r _ _ _ _ _ Hsame Hi) as (c & Hci & Hcc).
  destruct Hcc as (_ & _ & _ & _ & Hp & _ & Hb).
  eapply Forall_lookup_1 in Hcons; [|exact Hci].
  unfold deep in *. by rewrite Hp, Hb.
Qed.

(** X7: the effective mass of a body-body contact.  For every body-body
    contact the tick returns, [effectiveMass] is a number that is not
    negative: it is [1 / k] for the sum [k] of the two [invMass] when
    [k > 0], positive when [k] is also finite, and 0 otherwise. *)
Theorem pair_effectiveMass (state : SimState) (params : Params) (hp : Heap) :
  Forall (fun c => forall rb, bodyB c = Some rb ->
            let k := (invMass (objs hp !!! bodyA c) + invMass (objs hp !!! rb))%float in
            effectiveMass c = (if (0 <? k)%float then (1 / k)%float else 0%float) /\
            (0 <=? effectiveMass c)%float = true /\
            ((0 <? k)%float = true -> (k <? infinity)%float = true ->
               (0 <? effectiveMass c)%float = true))
         (contacts (stepPhysics state params hp).1).
Proof.
  assert (Hsame : Forall2 sameConstraint (constructed state params hp)
                    (contacts (stepPhysics state params hp).1)).
  { rewrite (proj1 (stepPhysics_contacts state params hp)).
    apply sweeps_sameConstraint. }
  apply Forall_forall. intros c' Hc' rb HB.
  destruct (proj1 (list_elem_of_lookup _ _) Hc') as [i Hi].
  destruct (Forall2_lookup_r _ _ _ _ _ Hsame Hi) as (c & Hci & Hcc).
  destruct Hcc as (_ & HA' & HB' & _ & _ & Hem & _).
  rewrite Hem, HA'. rewrite HB' in HB.
  apply list_elem_of_lookup_2 in Hci.
  apply detect_spec in Hci as [(r & _ & Hw)|(ra & rb' & _ & _ & Hp)].
  { apply wallContactsOf_spec in Hw as (_ & Hn & _). congruence. }
  pose proof (pairContact_mass _ _ _ _ _ _ Hp) as Hm.
  apply pairContact_spec in Hp as (HA & HB'' & _).
  assert (rb' = rb) as -> by congruence. subst ra.
  assert (Hinv : forall r, invMass (afterGravity state params hp !!! r) =
                           invMass (objs hp !!! r)).
  { intros r. apply velOnly_invMass. apply velOnly_applyGravity. }
  cbv zeta in Hm. rewrite !Hinv in Hm. cbv zeta. rewrite Hm.
  destruct (guarded_inverse (invMass (objs hp !!! bodyA c) + invMass (objs hp !!! rb)))
    as (G1 & G2 & _).
  split; [done|]. split; [exact G1|exact G2].
Qed.

(** X8: a cold start ignores the previous contacts.  With [warmStarting]
    off, two states with the same bodies array and [totalEnergy] give
    the same tick, whatever contacts and errors they remember. *)
Theorem cold_start_ignores_history (s1 s2 : SimState) (params : Params) (hp : Heap) :
  warmStarting params = false ->
  bodies s1 = bodies s2 -> totalEnergy s1 = totalEnergy s2 ->
  stepPhysics s1 params hp = stepPhysics s2 params hp.
Proof.
  intros Hw Hb He. unfold stepPhysics, detect. rewrite Hb, He.
  by rewrite (pairContacts_ext _ (warmStarting params) (contacts s1) (contacts s2));
    [|intros a b; unfold initialImpulse; rewrite Hw].
Qed.

Lemma cold_start_ignores_history_witness :
  stepPhysics freshState (mkParams 0 10 0.8 false) pushedFromLeft =
  stepPhysics (mkSimState 0 rememberedContacts 0 [1%float])
              (mkParams 0 10 0.8 false) pushedFromLeft.
Proof. apply cold_start_ignores_history; reflexivity. Defined.

(** X9: a warm start reads body-body contacts only.  The tick of a state
    is the tick of the state that remembers only its body-body contacts
    and no errors: the wall contacts and the [solverErrors] of the
    previous tick never reach the next one. *)
Theorem wall_history_ignored (state : SimState) (params : Params) (hp : Heap) :
  stepPhysics state params hp = stepPhysics (forgetWalls state) params hp.
Proof.
  unfold stepPhysics, detect, forgetWalls. cbn [bodies contacts totalEnergy].
  by rewrite (pairContacts_ext (warmStarting params) (warmStarting params)
                (contacts state) (List.filter isPair (contacts state)));
    [|intros a b; by rewrite initialImpulse_pairs].
Qed.

(** X10: the contacts refer to bodies of the array.  For every contact
    the tick returns, [bodyA] is an entry of the bodies array; when the
    contact is a body-body contact, [bodyB] is one too and the two bodies
    are not both static. *)
Theorem contacts_refer_to_bodies (state : SimState) (params : Params) (hp : Heap) :
  Forall (fun c => bodyA c ∈ bodiesOf state hp /\
            forall rb, bodyB c = Some rb ->
              rb ∈ bodiesOf state hp /\
              isStatic (objs hp !!! bodyA c) && isStatic (objs hp !!! rb) = false)
         (contacts (stepPhysics state params hp).1).
Proof.
  assert (Hsame : Forall2 sameConstraint (constructed state params hp)
                    (contacts (stepPhysics state params hp).1)).
  { rewrite (proj1 (stepPhysics_contacts state params hp)).
    apply sweeps_sameConstraint. }
  apply Forall_forall. intros c' Hc'.
  destruct (proj1 (list_elem_of_lookup _ _) Hc') as [i Hi].
  destruct (Forall2_lookup_r _ _ _ _ _ Hsame Hi) as (c & Hci & Hcc).
  destruct Hcc as (_ & HA' & HB' & _).
  apply list_elem_of_lookup_2 in Hci.
  destruct (constructed_refs _ _ _ _ Hci) as [HA HB].
  rewrite HA', HB'. split; [exact HA|].
  intros rb Hrb. destruct (HB rb Hrb) as [Hin Hs]. split; [exact Hin|].
  rewrite <- Hs. f_equal; symmetry; apply velOnly_isStatic, velOnly_applyGravity.
Qed.

(** X11: at most four wall contacts per array entry and one contact per
    pair of entries: for a bodies array of length [n] the tick returns at
    most [4 n + n (n - 1) / 2] contacts. *)
Theorem contacts_count (state : SimState) (params : Params) (hp : Heap) :
  let n := length (bodiesOf state hp) in
  (length (contacts (stepPhysics state params hp).1) <= 4 * n + n * (n - 1) / 2)%nat.
Proof.
  intros n.
  assert (Hsame : Forall2 sameConstraint (constructed state params hp)
                    (contacts (stepPhysics state params hp).1)).
  { rewrite (proj1 (stepPhysics_contacts state params hp)).
    apply sweeps_sameConstraint. }
  rewrite <- (Forall2_length _ _ _ Hsame).
  unfold constructed, detect. rewrite length_app.
  pose proof (wallContacts_length (p_restitution params) (bodiesOf state hp)
                (afterGravity state params hp)) as Hw.
  pose proof (pairContacts_length (warmStarting params) (contacts state)
                (afterGravity state params hp) (bodiesOf state hp)) as Hp.
  fold n in Hw, Hp.
  assert (length (pairContacts (warmStarting params) (contacts state)
                    (afterGravity state params hp) (bodiesOf state hp))
          <= n * (n - 1) / 2)%nat.
  { apply Nat.div_le_lower_bound; lia. }
  lia.
Qed.

(** X12: objects the bodies array does not list are not touched.  The
    object behind a reference that does not occur in the bodies array is
    after the tick what it was before. *)
Theorem outside_array_untouched (state : SimState) (params : Params) (hp : Heap)
    (r : ref) :
  r ∉ bodiesOf state hp ->
  objs (stepPhysics state params hp).2 !! r = objs hp !! r.
Proof.
  intros Hr. rewrite stepPhysics_store.
  pose proof (untouched_outside state params hp r Hr) as Hu.
  unfold integrate. etrans; [by apply foldl_alter_notin|].
  unfold afterSolve, sweepStart.
  etrans; [apply (sweeps_untouched _ _ _ _ r Hu)|].
  unfold beforeSolve. etrans; [by apply warmStart_untouched|].
  unfold afterGravity, applyGravity. by apply foldl_alter_notin.
Qed.

Lemma outside_array_untouched_witness :
  objs (stepPhysics freshState defaultParams spareObject).2 !! 1%nat =
  Some (bodyAt 1 0.2 3 (-1) 0 0.5 false).
Proof.
  apply (outside_array_untouched freshState defaultParams spareObject 1).
  vm_compute. intros H. apply list_elem_of_singleton in H. discriminate H.
Defined.

(** X13: the projection.  After at least one sweep no returned contact
    has a negative accumulated impulse: [impulseAcc < 0] is false for
    every contact ([impulseAcc] is [Math.max(0, ...)], at least 0 or
    [NaN]). *)
Theorem impulse_never_negative (state : SimState) (params : Params) (hp : Heap) :
  (0 < iterations params)%Z ->
  Forall (fun c => (impulseAcc c <? 0)%float = false)
         (contacts (stepPhysics state params hp).1).
Proof.
  intros Hn. rewrite (proj1 (stepPhysics_contacts state params hp)).
  unfold sweepStart.
  destruct (Z.to_nat (iterations params)) as [|n] eqn:En; [lia|].
  rewrite Nat.iter_succ.
  destruct (Nat.iter n _ _) as [cs h]. apply sweepOnce_projected.
Qed.

Lemma impulse_never_negative_witness :
  Forall (fun c => (impulseAcc c <? 0)%float = false)
         (contacts (stepPhysics freshState defaultParams pushedFromLeft).1).
Proof. apply impulse_never_negative. reflexivity. Defined.

(** X18: free flight.  A body that is not static, has an [invMass]
    different from 0, occurs once in the bodies array and to which no
    contact of the tick refers, takes one semi-implicit Euler step:
    gravity is added to [vel.y], then [pos] advances by the new velocity
    times [TIMESTEP]; when the new position passes the four overlap tests
    of the clamp, these are the body's velocity and position after the
    tick. *)
Theorem free_flight (state : SimState) (params : Params) (hp : Heap)
    (r : ref) (b : Body) (l1 l2 : list ref) :
  bodiesOf state hp = l1 ++ r :: l2 -> r ∉ l1 -> r ∉ l2 ->
  objs hp !! r = Some b ->
  isStatic b = false -> (invMass b =? 0)%float = false ->
  Forall (untouched r) (constructed state params hp) ->
  let v := mkVec2 (x (vel b)) (y (vel b) + gravity params * TIMESTEP) in
  let p := vAdd (pos b) (vScale v TIMESTEP) in
  (x p - radius b <? 0)%float = false ->
  (widthM <? x p + radius b)%float = false ->
  (y p - radius b <? 0)%float = false ->
  (heightM <? y p + radius b)%float = false ->
  exists b', objs (stepPhysics state params hp).2 !! r = Some b' /\
    vel b' = v /\ pos b' = p.
Proof.
  intros Hbs H1 H2 Hb Hs Hm Hu v p Hxl Hxh Hyl Hyh.
  assert (Hg : afterGravity state params hp !! r = Some (setVel v b)).
  { rewrite (afterGravity_body _ _ _ _ _ _ Hbs H1 H2), Hb.
    change (Some (gravityBody (gravity params) b) = Some (setVel v b)).
    unfold gravityBody. by rewrite Hm, Hs. }
  assert (Hsolve : afterSolve state params hp !! r = Some (setVel v b)).
  { unfold afterSolve, sweepStart.
    etrans; [apply (sweeps_untouched _ _ _ _ r Hu)|].
    unfold beforeSolve. etrans; [by apply warmStart_untouched|]. exact Hg. }
  exists (integrateBody (setVel v b)). split.
  { by rewrite (stepPhysics_body _ _ _ _ _ _ Hbs H1 H2), Hsolve. }
  unfold integrateBody. cbn [isStatic invMass setVel pos vel radius].
  rewrite Hs, Hm. cbn [orb]. fold p.
  unfold clampLow. rewrite Hxl, Hyl. unfold clampHigh. rewrite Hxh, Hyh.
  cbn [vel pos setTrail setPos setVel]. split; [done|]. by destruct p.
Qed.

Lemma free_flight_witness :
  exists b', objs (stepPhysics freshState (mkParams 9.8 10 0.8 true) midArena).2 !! 0%nat
             = Some b' /\
    vel b' = mkVec2 1 (0 + 9.8 * TIMESTEP) /\
    pos b' = vAdd (mkVec2 8 6) (vScale (mkVec2 1 (0 + 9.8 * TIMESTEP)) TIMESTEP).
Proof.
  apply (free_flight freshState (mkParams 9.8 10 0.8 true) midArena 0
           (bodyAt 0 8 6 1 0 0.5 false) [] []).
  - reflexivity.
  - apply not_elem_of_nil.
  - apply not_elem_of_nil.
  - reflexivity.
  - reflexivity.
  - vm_compute. reflexivity.
  - vm_compute. constructor.
  - vm_compute. reflexivity.
  - vm_compute. reflexivity.
  - vm_compute. reflexivity.
  - vm_compute. reflexivity.
Defined.

(** * The vector helpers and the detection of a pair *)

(** X14: distances are symmetric and never negative.  [vDist a b] is
    [vDist b a], and [vDist a b < 0] is false, for all vectors ([NaN] and
    infinite components included). *)
Theorem vDist_symmetric (a b : Vec2) :
  vDist a b = vDist b a /\ (vDist a b <? 0)%float = false.
Proof.
  split; [apply vLen_vSub_swap|]. unfold vDist, vLen. apply sqrt_not_neg.
Qed.

(** X15: [vAdd] and [vDot] are commutative. *)
Theorem vAdd_vDot_commute (a b : Vec2) :
  vAdd a b = vAdd b a /\ vDot a b = vDot b a.
Proof.
  unfold vAdd, vDot. split.
  - by rewrite (add_comm (x a)), (add_comm (y a)).
  - by rewrite (mul_comm (x a)), (mul_comm (y a)).
Qed.

(** X16: the contact of a pair does not depend on the order of the two
    bodies in the array, up to its id and the direction of its normal:
    taken in either order, two bodies give a contact or none alike, with
    the same penetration, effective mass, bias and seeded impulse. *)
Theorem pairContact_order (warm : bool) (prev : list Contact) (h : list Body)
    (ra rb : ref) :
  let same c c' :=
    penetration c' = penetration c /\ effectiveMass c' = effectiveMass c /\
    bias c' = bias c /\ impulseAcc c' = impulseAcc c /\
    bodyA c' = rb /\ bodyB c' = Some ra /\ bodyA c = ra /\ bodyB c = Some rb in
  Forall2 same (pairContact warm prev h ra rb) (pairContact warm prev h rb ra).
Proof.
  intros same. unfold pairContact.
  rewrite (andb_comm (isStatic (h !!! rb))).
  destruct (isStatic (h !!! ra) && isStatic (h !!! rb)); [constructor|].
  unfold vDist. rewrite (vLen_vSub_swap (pos (h !!! rb))).
  rewrite (add_comm (radius (h !!! rb))).
  destruct (_ <? _)%float; [|constructor].
  constructor; [|constructor]. unfold same. cbn [penetration effectiveMass bias impulseAcc bodyA bodyB].
  rewrite (add_comm (invMass (h !!! rb))).
  rewrite (initialImpulse_unordered _ _ _ (id (h !!! rb))).
  done.
Qed.

(** X17: two bodies at the same place.  Two bodies, not both static,
    with the same finite position and radii whose sum is positive, are in
    contact, and the contact has the normal (0,0). *)
Theorem coincident_bodies (warm : bool) (prev : list Contact) (h : list Body)
    (ra rb : ref) :
  let A := h !!! ra in
  let B := h !!! rb in
  isStatic A && isStatic B = false ->
  pos B = pos A -> is_finite (x (pos A)) = true -> is_finite (y (pos A)) = true ->
  (0 <? radius A + radius B)%float = true ->
  exists c, pairContact warm prev h ra rb = [c] /\
    normal c = mkVec2 0 0 /\
    penetration c = (0 - (radius A + radius B))%float.
Proof.
  intros A B Hs Hp Hx Hy Hr. unfold pairContact. fold A B. rewrite Hs, Hp.
  assert (Hd : vSub (pos A) (pos A) = mkVec2 0 0).
  { unfold vSub. by rewrite (sub_diag _ Hx), (sub_diag _ Hy). }
  unfold vDist. rewrite Hd.
  change (vLen (mkVec2 0 0)) with 0%float. rewrite Hr.
  eexists. split; [reflexivity|]. cbn [normal penetration]. done.
Qed.

Lemma coincident_bodies_witness :
  exists c, pairContact true [] [bodyAt 0 3 3 0 0 0.5 false; bodyAt 1 3 3 1 0 0.5 false] 0 1 = [c] /\
    normal c = mkVec2 0 0.
Proof.
  destruct (coincident_bodies true []
              [bodyAt 0 3 3 0 0 0.5 false; bodyAt 1 3 3 1 0 0.5 false] 0 1)
    as (c & Hc & Hn & _); try reflexivity.
  exists c. by split.
Defined.

(** * The body factory, the initial state, spawning and dragging *)

Lemma createBody_fields (nts : float -> string) (px py : float) (i : Z)
    (static : bool) (src : Source) (n : nat) :
  let b := (createBody nts px py i static src n).1 in
  let r := (0.4 + src n * 0.4)%float in
  id b = i /\ pos b = mkVec2 px py /\ isStatic b = static /\ trail b = [] /\
  restitution b = 0.5%float /\ radius b = r /\
  mass b = (r * r * Math_PI)%float /\
  invMass b = (if static then 0 else 1 / (r * r * Math_PI))%float /\
  vel b = (if static then mkVec2 0 0
           else mkVec2 ((src (S n) - 0.5) * 8) ((src (S (S n)) - 0.5) * 8)) /\
  (createBody nts px py i static src n).2 = (n + if static then 2 else 4)%nat.
Proof.
  destruct static; unfold createBody, bind, random, ret; cbn [fst snd];
    repeat split; try reflexivity; lia.
Qed.

Lemma createBody_wellMade (nts : float -> string) (px py : float) (i : Z)
    (static : bool) (src : Source) (n : nat) :
  unitDraws src ->
  let b := (createBody nts px py i static src n).1 in
  id b = i /\ pos b = mkVec2 px py /\ wellMade static b /\
  (createBody nts px py i static src n).2 = (n + if static then 2 else 4)%nat.
Proof.
  intros Hsrc b.
  destruct (createBody_fields nts px py i static src n)
    as (Hi & Hp & Hs & Ht & Hre & Hr & Hm & Him & Hv & Hn).
  fold b in Hi, Hp, Hs, Ht, Hre, Hr, Hm, Him, Hv.
  destruct (Hsrc n) as [U0 U1].
  destruct (radius_range _ U0 U1) as [R1 R2].
  destruct (mass_range _ R1 R2) as (M1 & M2 & I1 & I2).
  split; [exact Hi|]. split; [exact Hp|]. split; [|exact Hn].
  unfold wellMade. rewrite Hs, Ht, Hre, Hr, Hm, Him, Hv.
  split; [done|]. split; [done|]. split; [done|].
  split; [exact R1|]. split; [exact R2|]. split; [done|].
  split; [exact M1|]. split; [exact M2|].
  destruct static; [done|].
  destruct (Hsrc (S n)) as [X0 X1]. destruct (Hsrc (S (S n))) as [Y0 Y1].
  destruct (velocity_range _ X0 X1) as [VX1 VX2].
  destruct (velocity_range _ Y0 Y1) as [VY1 VY2].
  cbn [x y]. by repeat split.
Qed.

(** X19: what [createBody] returns.  When the draws are numbers in
    [0, 1), the body has the given id and position, an empty trail, a
    radius between 0.4 and 0.8 and a mass [radius * radius * Math.PI]
    between 0.25 and 4.  A static body has [invMass = 0] and velocity
    (0,0), after two draws; a body that is not static has
    [invMass = 1 / mass], positive and at most 4, and velocity components
    between -4 and 4, after four draws. *)
Theorem createBody_sound (nts : float -> string) (px py : float) (i : Z)
    (static : bool) (src : Source) (n : nat) :
  unitDraws src ->
  let b := (createBody nts px py i static src n).1 in
  id b = i /\ pos b = mkVec2 px py /\ wellMade static b /\
  (createBody nts px py i static src n).2 = (n + if static then 2 else 4)%nat.
Proof. exact (createBody_wellMade nts px py i static src n). Qed.

Lemma someDraws_unit : unitDraws someDraws.
Proof.
  intros k. unfold someDraws.
  destruct (k mod 3)%nat as [|[|j]]; split; reflexivity.
Qed.

Lemma createBody_sound_witness :
  wellMade false (createBody plainNumber 3 4 7 false someDraws 0).1.
Proof.
  apply (createBody_sound plainNumber 3 4 7 false someDraws 0 someDraws_unit).
Defined.

Lemma createBodies_succ (nts : float -> string) (n : nat) (i : Z) (src : Source) (k : nat) :
  createBodies nts (S n) i src k =
  let cb := createBody nts (src k * (widthM - 2) + 1) (src (S k) * (heightM - 2) + 1)
                       i false src (S (S k)) in
  let rest := createBodies nts n (i + 1) src cb.2 in
  (cb.1 :: rest.1, rest.2).
Proof.
  cbn [createBodies]. unfold bind at 1 2 3, random. 
  destruct (createBody _ _ _ _ _ _ _) as [b k1]. unfold bind at 1.
  cbn [fst snd]. destruct (createBodies _ _ _ _ _) as [bs k2]. reflexivity.
Qed.

Lemma createBodies_spec (nts : float -> string) (src : Source) (n : nat) (i : Z) (k : nat) :
  unitDraws src ->
  length (createBodies nts n i src k).1 = n /\
  (forall j b, (createBodies nts n i src k).1 !! j = Some b ->
     wellPlaced (i + Z.of_nat j) b).
Proof.
  intros Hsrc. revert i k. induction n as [|n IH]; intros i k.
  - split; [done|]. intros j b H. by destruct j.
  - rewrite createBodies_succ. cbv zeta. cbn [fst].
    destruct (IH (i + 1)%Z
                (createBody nts (src k * (widthM - 2) + 1) (src (S k) * (heightM - 2) + 1)
                   i false src (S (S k))).2) as [Hlen Hall].
    split; [cbn [length]; by rewrite Hlen|].
    intros [|j] b Hb.
    + injection Hb as Hb. subst b. rewrite Z.add_0_r.
      destruct (createBody_wellMade nts (src k * (widthM - 2) + 1)
                  (src (S k) * (heightM - 2) + 1) i false src (S (S k)) Hsrc)
        as (Hi & Hp & Hw & _).
      destruct (Hsrc k) as [X0 X1]. destruct (Hsrc (S k)) as [Y0 Y1].
      destruct (draw_affine (src k) (widthM - 2) 1 15 X0 X1) as [PX1 PX2];
        [reflexivity|reflexivity|intros E; discriminate E|vm_compute; discriminate|].
      destruct (draw_affine (src (S k)) (heightM - 2) 1 11 Y0 Y1) as [PY1 PY2];
        [reflexivity|reflexivity|intros E; discriminate E|vm_compute; discriminate|].
      split; [exact Hi|]. split; [exact Hw|].
      split; [exact PX1|]. split; [exact PX2|]. split; [exact PY1|exact PY2].
    + replace (i + Z.of_nat (S j))%Z with (i + 1 + Z.of_nat j)%Z by lia.
      by apply Hall.
Qed.

Lemma createInitialState_eq (nts : float -> string) (count : Z) (hp : Heap)
    (src : Source) (k : nat) :
  (createInitialState nts count hp src k).1 =
  let bs := (createBodies nts (Z.to_nat count) 0 src k).1 in
  (mkSimState (length (arrs hp)) [] 0 [],
   mkHeap (objs hp ++ bs) (arrs hp ++ [seq (length (objs hp)) (length bs)])).
Proof.
  unfold createInitialState, bind, ret.
  by destruct (createBodies _ _ _ _ _) as [bs k'].
Qed.

(** X20: the initial state.  [createInitialState(count)] leaves the
    objects and arrays of the store as they are and returns a state with
    no contacts, no errors and [totalEnergy = 0] whose bodies array holds
    [count] new, distinct body objects.  When the draws are numbers in
    [0, 1), body number [j] has id [j], is not static, is as [createBody]
    makes it, and has its centre between 1 and 15 across and between 1
    and 11 down. *)
Theorem createInitialState_sound (nts : float -> string) (count : Z) (hp : Heap)
    (src : Source) (k : nat) :
  unitDraws src ->
  let st := (createInitialState nts count hp src k).1.1 in
  let hp' := (createInitialState nts count hp src k).1.2 in
  contacts st = [] /\ totalEnergy st = 0%float /\ solverErrors st = [] /\
  (forall r, r < length (objs hp) -> objs hp' !! r = objs hp !! r)%nat /\
  (forall a, a < length (arrs hp) -> arrs hp' !! a = arrs hp !! a)%nat /\
  bodiesOf st hp' = seq (length (objs hp)) (Z.to_nat count) /\
  (forall j, j < Z.to_nat count ->
     exists b, objs hp' !! (length (objs hp) + j) = Some b /\
               wellPlaced (Z.of_nat j) b)%nat.
Proof.
  intros Hsrc st hp'. unfold st, hp'. rewrite createInitialState_eq. cbv zeta.
  cbn [fst snd contacts totalEnergy solverErrors objs arrs].
  destruct (createBodies_spec nts src (Z.to_nat count) 0 k Hsrc) as [Hlen Hall].
  split; [done|]. split; [done|]. split; [done|].
  split; [intros r Hr; by rewrite lookup_app_l|].
  split; [intros a Ha; by rewrite lookup_app_l|].
  split.
  - unfold bodiesOf. cbn [bodies arrs].
    rewrite list_lookup_total_middle by done. by rewrite Hlen.
  - intros j Hj.
    destruct ((createBodies nts (Z.to_nat count) 0 src k).1 !! j) as [b|] eqn:Eb.
    + exists b. split; [|by apply (Hall j b Eb)].
      rewrite lookup_app_r by lia. by rewrite Nat.add_comm, Nat.add_sub.
    + apply lookup_ge_None in Eb. lia.
Qed.

Lemma createInitialState_sound_witness :
  bodiesOf (createInitialState plainNumber 3 (mkHeap [] []) someDraws 0).1.1
           (createInitialState plainNumber 3 (mkHeap [] []) someDraws 0).1.2
  = [0; 1; 2]%nat.
Proof.
  apply (createInitialState_sound plainNumber 3 (mkHeap [] []) someDraws 0 someDraws_unit).
Defined.

Lemma wellPlaced_no_wall (rest : float) (h : list Body) (r : ref) (i : Z) (b : Body) :
  pos (h !!! r) = pos b -> radius (h !!! r) = radius b -> wellPlaced i b ->
  wallContactsOf rest h r = [].
Proof.
  intros Hp Hr (_ & Hw & X1 & X2 & Y1 & Y2).
  destruct Hw as (_ & _ & _ & _ & R2 & _).
  destruct (inside_no_overlap (x (pos b)) (radius b) 15 widthM X1 X2 R2) as [A1 A2];
    [intros E; discriminate E|vm_compute; discriminate|].
  destruct (inside_no_overlap (y (pos b)) (radius b) 11 heightM Y1 Y2 R2) as [B1 B2];
    [intros E; discriminate E|vm_compute; discriminate|].
  unfold wallContactsOf. rewrite Hp, Hr, A1, A2, B1, B2. reflexivity.
Qed.

Lemma createInitialState_bodies (nts : float -> string) (count : Z) (hp : Heap)
    (src : Source) (k : nat) :
  unitDraws src ->
  let w := (createInitialState nts count hp src k).1 in
  Forall (fun r => exists b i, objs w.2 !! r = Some b /\ wellPlaced i b)
         (bodiesOf w.1 w.2).
Proof.
  intros Hsrc w. unfold w. rewrite createInitialState_eq. cbv zeta.
  destruct (createBodies_spec nts src (Z.to_nat count) 0 k Hsrc) as [Hlen Hall].
  unfold bodiesOf. cbn [fst snd bodies arrs objs].
  rewrite list_lookup_total_middle by done.
  apply Forall_forall. intros r Hr. apply elem_of_seq in Hr as [Hr1 Hr2].
  destruct ((createBodies nts (Z.to_nat count) 0 src k).1 !! (r - length (objs hp))%nat)
    as [b|] eqn:Eb.
  - exists b, (0 + Z.of_nat (r - length (objs hp)))%Z.
    split; [|by apply Hall]. by rewrite lookup_app_r by lia.
  - apply lookup_ge_None in Eb. lia.
Qed.

(** X21: bodies placed like those of the initial state touch no wall.
    When every entry of the bodies array is a body as [createInitialState]
    places it, the tick constructs no wall contact: every contact it
    constructs and returns is a body-body contact. *)
Theorem placed_bodies_touch_no_wall (state : SimState) (params : Params) (hp : Heap) :
  Forall (fun r => exists b i, objs hp !! r = Some b /\ wellPlaced i b)
         (bodiesOf state hp) ->
  Forall (fun c => isPair c = true) (constructed state params hp) /\
  Forall (fun c => isPair c = true) (contacts (stepPhysics state params hp).1).
Proof.
  intros Hall.
  assert (Hw : wallContacts (p_restitution params) (bodiesOf state hp)
                 (afterGravity state params hp) = []).
  { unfold wallContacts. induction Hall as [|r bs (b & i & Hb & Hwp) _ IH]; [done|].
    cbn [flat_map]. rewrite IH, app_nil_r.
    destruct (velOnly_lookup _ _ r b (velOnly_applyGravity (gravity params)
                (bodiesOf state hp) (objs hp)) Hb) as (b' & Hb' & Hsame).
    apply (wellPlaced_no_wall _ _ _ i b); [| |exact Hwp].
    - unfold afterGravity. rewrite (lookup_ref _ _ _ Hb'). by rewrite Hsame.
    - unfold afterGravity. rewrite (lookup_ref _ _ _ Hb'). by rewrite Hsame. }
  assert (Hcons : Forall (fun c => isPair c = true) (constructed state params hp)).
  { unfold constructed, detect. fold (afterGravity state params hp).
    rewrite Hw. cbn [app]. apply Forall_forall. intros c Hc.
    apply pairContacts_spec in Hc as (ra & rb & _ & _ & Hc).
    apply pairContact_spec in Hc as (_ & HB & _). unfold isPair. by rewrite HB. }
  split; [exact Hcons|].
  assert (Hsame : Forall2 sameConstraint (constructed state params hp)
                    (contacts (stepPhysics state params hp).1)).
  { rewrite (proj1 (stepPhysics_contacts state params hp)).
    apply sweeps_sameConstraint. }
  apply Forall_forall. intros c' Hc'.
  destruct (proj1 (list_elem_of_lookup _ _) Hc') as [j Hj].
  destruct (Forall2_lookup_r _ _ _ _ _ Hsame Hj) as (c & Hcj & Hcc).
  destruct Hcc as (_ & _ & HB & _).
  eapply Forall_lookup_1 in Hcons; [|exact Hcj].
  unfold isPair in *. by rewrite HB.
Qed.

Lemma placed_bodies_touch_no_wall_witness :
  let w := (createInitialState plainNumber 3 (mkHeap [] []) someDraws 0).1 in
  Forall (fun c => isPair c = true) (constructed w.1 defaultParams w.2).
Proof.
  intros w.
  pose proof (createInitialState_bodies plainNumber 3 (mkHeap [] []) someDraws 0
                someDraws_unit) as Hall.
  apply (placed_bodies_touch_no_wall w.1 defaultParams w.2 Hall).
Defined.

(** ** Spawning *)

Lemma foldl_max_ge (l : list Z) (a : Z) :
  (a <= foldl Z.max a l)%Z /\ Forall (fun z => (z <= foldl Z.max a l)%Z) l.
Proof.
  revert a. induction l as [|z l IH]; intros a; cbn [foldl].
  - split; [lia|constructor].
  - destruct (IH (Z.max a z)) as [H1 H2]. split; [lia|].
    constructor; [lia|exact H2].
Qed.

Lemma newId_fresh (h : list Body) (bs : list ref) :
  Forall (fun r => (Z.abs (id (h !!! r)) < 2 ^ 53)%Z) bs ->
  Forall (fun r => (id (h !!! r) < newId h bs)%Z) bs.
Proof.
  intros Hsmall. destruct bs as [|r rest]; [constructor|].
  rewrite (newId_small h r rest Hsmall).
  destruct (foldl_max_ge (map (fun r => id (h !!! r)) rest) (id (h !!! r))) as [H1 H2].
  constructor; [lia|].
  apply Forall_forall. intros r' Hr'.
  assert (Hin : id (h !!! r') ∈ map (fun r => id (h !!! r)) rest).
  { apply list_elem_of_fmap. by exists r'. }
  eapply Forall_forall in H2; [|exact Hin]. cbn beta in H2. lia.
Qed.

Lemma spawnBody_eq (nts : float -> string) (state prev : SimState) (hp : Heap)
    (mousePos : Vec2) (static : bool) (src : Source) (n : nat) :
  (spawnBody nts state prev hp mousePos static src n).1 =
  let b := (createBody nts (x mousePos) (y mousePos)
              (newId (objs hp) (arrs hp !!! bodies state)) static src n).1 in
  (mkSimState (length (arrs hp)) (contacts prev) (totalEnergy prev) (solverErrors prev),
   mkHeap (objs hp ++ [b])
          (arrs hp ++ [(arrs hp !!! bodies prev) ++ [length (objs hp)]])).
Proof.
  unfold spawnBody, bind, ret. by destruct (createBody _ _ _ _ _ _ _) as [b k].
Qed.

(** X22: spawning a body.  The spawn branch of [handleMouseDown] leaves
    every object and array of the store as it is and returns a state
    with the contacts, energy and errors of the previous one, whose
    bodies array is a new array: the previous entries followed by one
    new body at the mouse position.  When the rendered state and the
    previous state share their bodies array and every id in it is below
    2^53 in magnitude, where [+ 1] is exact, the id of the new body is
    greater than the id of every body of the array, so distinct ids stay
    distinct. *)
Theorem spawn_keeps_ids_distinct (nts : float -> string) (state prev : SimState)
    (hp : Heap) (mousePos : Vec2) (static : bool) (src : Source) (n : nat) :
  bodies prev = bodies state ->
  Forall (fun r => r < length (objs hp))%nat (bodiesOf prev hp) ->
  Forall (fun r => (Z.abs (id (objs hp !!! r)) < 2 ^ 53)%Z) (bodiesOf prev hp) ->
  let w := (spawnBody nts state prev hp mousePos static src n).1 in
  contacts w.1 = contacts prev /\ totalEnergy w.1 = totalEnergy prev /\
  solverErrors w.1 = solverErrors prev /\
  (forall r, r < length (objs hp) -> objs w.2 !! r = objs hp !! r)%nat /\
  (forall a, a < length (arrs hp) -> arrs w.2 !! a = arrs hp !! a)%nat /\
  bodiesOf w.1 w.2 = bodiesOf prev hp ++ [length (objs hp)] /\
  (exists b, objs w.2 !! length (objs hp) = Some b /\
     pos b = mousePos /\ isStatic b = static /\
     Forall (fun r => (id (objs hp !!! r) < id b)%Z) (bodiesOf prev hp)) /\
  (NoDup (map (idThrough (objs hp)) (bodiesOf prev hp)) ->
   NoDup (map (idThrough (objs w.2)) (bodiesOf w.1 w.2))).
Proof.
  intros Hsame Hvalid Hsmall w. unfold w. rewrite spawnBody_eq. cbv zeta.
  cbn [fst snd contacts totalEnergy solverErrors objs arrs].
  set (b := (createBody nts (x mousePos) (y mousePos)
               (newId (objs hp) (arrs hp !!! bodies state)) static src n).1).
  destruct (createBody_fields nts (x mousePos) (y mousePos)
              (newId (objs hp) (arrs hp !!! bodies state)) static src n)
    as (Hi & Hp & Hs & _). fold b in Hi, Hp, Hs.
  assert (Harr : bodiesOf (mkSimState (length (arrs hp)) (contacts prev)
                   (totalEnergy prev) (solverErrors prev))
                   (mkHeap (objs hp ++ [b])
                      (arrs hp ++ [(arrs hp !!! bodies prev) ++ [length (objs hp)]]))
                 = bodiesOf prev hp ++ [length (objs hp)]).
  { unfold bodiesOf. cbn [bodies arrs]. by rewrite list_lookup_total_middle. }
  assert (Hfresh : Forall (fun r => (id (objs hp !!! r) < id b)%Z) (bodiesOf prev hp)).
  { rewrite Hi. unfold bodiesOf in *. rewrite <- Hsame. by apply newId_fresh. }
  split; [done|]. split; [done|]. split; [done|].
  split; [intros r Hr; by rewrite lookup_app_l|].
  split; [intros a Ha; by rewrite lookup_app_l|].
  split; [exact Harr|]. split.
  - exists b. split; [by rewrite list_lookup_middle|].
    split; [by rewrite Hp; destruct mousePos|]. split; [exact Hs|exact Hfresh].
  - intros Hnd. rewrite Harr, map_app. cbn [map].
    assert (Hold : map (idThrough (objs hp ++ [b])) (bodiesOf prev hp) =
                   map (idThrough (objs hp)) (bodiesOf prev hp)).
    { apply map_ext_in. intros r Hr. apply list_elem_of_In in Hr.
      eapply Forall_forall in Hvalid; [|exact Hr].
      unfold idThrough. f_equal. by apply lookup_total_app_l. }
    rewrite Hold. apply NoDup_app. split; [exact Hnd|]. split; [|apply NoDup_singleton].
    intros z Hz Hz'. apply list_elem_of_singleton in Hz'. subst z.
    apply list_elem_of_fmap in Hz as (r & Hr1 & Hr2).
    eapply Forall_forall in Hfresh; [|exact Hr2].
    unfold idThrough in Hr1. rewrite list_lookup_total_middle in Hr1 by done.
    unfold idThrough in Hfresh. lia.
Qed.

Lemma spawn_keeps_ids_distinct_witness :
  let w := (spawnBody plainNumber freshState freshState pushedFromLeft
              (mkVec2 8 6) false someDraws 0).1 in
  bodiesOf w.1 w.2 = [0; 1; 2]%nat /\
  NoDup (map (idThrough (objs w.2)) (bodiesOf w.1 w.2)).
Proof.
  destruct (spawn_keeps_ids_distinct plainNumber freshState freshState pushedFromLeft
              (mkVec2 8 6) false someDraws 0) as (_ & _ & _ & _ & _ & H1 & _ & H2).
  - reflexivity.
  - repeat constructor.
  - repeat constructor.
  - split; [exact H1|]. apply H2. vm_compute.
    repeat constructor; intros H; repeat (apply elem_of_cons in H as [H|H]; [discriminate H|]);
      by apply elem_of_nil in H.
Defined.

(** At 2^53 the addition rounds: the body spawned into [lastExactId]
    gets the id 2^53 of the body that is there. *)
Lemma newId_repeats_example :
  let w := (spawnBody plainNumber freshState freshState lastExactId
              (mkVec2 3 3) false someDraws 0).1 in
  map (idThrough (objs w.2)) (bodiesOf w.1 w.2) =
    [9007199254740992; 9007199254740992]%Z.
Proof. vm_compute. reflexivity. Qed.

(** ** Dragging *)

Lemma dragStep_fold (i : Z) (mp mv : Vec2) (h : list Body) (bs : list ref) :
  Forall (fun r => r < length h)%nat bs ->
  forall bs0 extra, exists new extra',
    foldl (dragStep i mp mv) (bs0, h ++ extra) bs = (bs0 ++ new, h ++ extra ++ extra') /\
    Forall2 (dragResult i mp mv h (h ++ extra ++ extra')) bs new.
Proof.
  induction 1 as [|r bs Hr _ IH]; intros bs0 extra.
  - exists [], []. rewrite !app_nil_r. split; [done|constructor].
  - cbn [foldl]. unfold dragStep at 2. cbn [fst snd]. unfold ref in *.
    assert (Hb : (h ++ extra) !!! r = h !!! r) by (by apply lookup_total_app_l).
    rewrite Hb. destruct (id (h !!! r) =? i)%Z eqn:E.
    + rewrite <- app_assoc.
      destruct (IH (bs0 ++ [length (h ++ extra)])
                  (extra ++ [dragged mp mv (h !!! r)])) as (new & extra' & Hf & Hall).
      exists (length (h ++ extra) :: new), ([dragged mp mv (h !!! r)] ++ extra').
      rewrite <- !app_assoc in *. split; [exact Hf|].
      constructor; [|exact Hall].
      unfold dragResult. unfold ref in *. rewrite E. split; [rewrite length_app; lia|].
      rewrite (app_assoc h extra).
      by apply (list_lookup_middle (h ++ extra) extra').
    + destruct (IH (bs0 ++ [r]) extra) as (new & extra' & Hf & Hall).
      exists (r :: new), extra'. rewrite <- app_assoc in Hf. split; [exact Hf|].
      constructor; [|exact Hall]. unfold dragResult. unfold ref in *. by rewrite E.
Qed.

(** X23: dragging a body.  The drag of [handleMouseMove] changes no
    object and no array of the store and returns a state with the
    contacts, energy and errors of the previous one, whose bodies array is
    a new array of the same length: entry by entry, a body whose id is not
    the dragged one keeps its object, and a body with the dragged id is
    replaced by a new object that has the mouse position, the velocity
    [(mousePos - lastMousePos) / TIMESTEP], an empty trail and
    otherwise the fields of the old one (a static body stays static). *)
Theorem drag_replaces_dragged (i : Z) (mousePos lastMousePos : Vec2)
    (prev : SimState) (hp : Heap) :
  Forall (fun r => r < length (objs hp))%nat (bodiesOf prev hp) ->
  let w := dragBodies i mousePos lastMousePos prev hp in
  contacts w.1 = contacts prev /\ totalEnergy w.1 = totalEnergy prev /\
  solverErrors w.1 = solverErrors prev /\
  (forall r, r < length (objs hp) -> objs w.2 !! r = objs hp !! r)%nat /\
  (forall a, a < length (arrs hp) -> arrs w.2 !! a = arrs hp !! a)%nat /\
  Forall2 (dragResult i mousePos (mouseVel mousePos lastMousePos) (objs hp) (objs w.2))
          (bodiesOf prev hp) (bodiesOf w.1 w.2) /\
  (forall b, sameIdentity b (dragged mousePos (mouseVel mousePos lastMousePos) b) /\
             pos (dragged mousePos (mouseVel mousePos lastMousePos) b) = mousePos /\
             vel (dragged mousePos (mouseVel mousePos lastMousePos) b)
               = mouseVel mousePos lastMousePos /\
             trail (dragged mousePos (mouseVel mousePos lastMousePos) b) = []).
Proof.
  intros Hvalid w. unfold w, dragBodies.
  destruct (dragStep_fold i mousePos (mouseVel mousePos lastMousePos) (objs hp)
              (bodiesOf prev hp) Hvalid [] []) as (new & extra & Hf & Hall).
  rewrite app_nil_r in Hf. fold (bodiesOf prev hp). rewrite Hf.
  cbn [fst snd contacts totalEnergy solverErrors objs arrs app] in *.
  split; [done|]. split; [done|]. split; [done|].
  split; [intros r Hr; by rewrite lookup_app_l|].
  split; [intros a Ha; by rewrite lookup_app_l|].
  split.
  - unfold bodiesOf at 2. cbn [bodies arrs].
    by rewrite list_lookup_total_middle.
  - intros b. by repeat split.
Qed.

Lemma drag_replaces_dragged_witness :
  let w := dragBodies 1 (mkVec2 8 6) (mkVec2 7.9 6) freshState pushedFromLeft in
  bodiesOf w.1 w.2 = [0; 2]%nat /\ contacts w.1 = [].
Proof.
  destruct (drag_replaces_dragged 1 (mkVec2 8 6) (mkVec2 7.9 6) freshState pushedFromLeft)
    as (H1 & _ & _ & _ & _ & _ & _).
  - repeat constructor.
  - split; [reflexivity|exact H1].
Defined.
